(** * Loup-garou: the session state machine and its command dispatcher

    A shallow embedding of [lg_app/services]: [schemas.py] (data model),
    [roles.py] (role quotas), [utils.py] (list helpers), [game_engine.py]
    (the state machine), [db.py] and [agent_runtime.py] (the store and the
    command dispatcher).

    Python objects that are mutated in place are modelled by explicit state
    passing in a state-and-exception monad: a computation that raises still
    returns the state as the mutations made before the [raise] left it. *)

From Stdlib Require Import Ascii.
From stdpp Require Import gmap strings list fin_maps pretty.

(** ** Data model ([schemas.py]) *)

(** [Player.role], validated against the four allowed role names. *)
Inductive Role := seer | witch | wolf | villager.

(** [Player.status], validated against ["alive"] and ["dead"]. *)
Inductive Status := alive | dead.

(** [Game.phase], validated against the six allowed phase names. *)
Inductive Phase := lobby | night_seer | night_wolves | night_witch | day | ended.

#[global] Instance Role_eq_dec : EqDecision Role.
Proof. solve_decision. Defined.
#[global] Instance Status_eq_dec : EqDecision Status.
Proof. solve_decision. Defined.
#[global] Instance Phase_eq_dec : EqDecision Phase.
Proof. solve_decision. Defined.

Record PotionState := { heal_used : bool; poison_used : bool }.

Record Player := { id : string; name : string; role : Role; status : Status }.

(** [Event]: a type tag and a payload; the timestamp (wall-clock time) is
    left out.  One constructor per event type the dispatcher builds. *)
Inductive Event :=
  | game_created (code : string)
  | player_added (name : string)
  | player_removed (name : string)
  | roles_assigned (players : nat)
  | seer_peeked (target : string) (r : Role)
  | wolves_voted (target : string)
  | witch_heal (saved : string)
  | witch_poison (target : string)
  | player_killed (name : string)
  | night_finished
  | night_started
  | game_over (winner : string).

Record ChatMessage := { chat_role : string; content : string }.

(** [Game]; [created_at] (wall-clock time) is left out. *)
Record Game := {
  code : string;
  phase : Phase;
  players : list Player;
  history : list Event;
  last_killed : option string;
  potions : PotionState;
  chat_history : list ChatMessage
}.

#[global] Instance PotionState_eq_dec : EqDecision PotionState.
Proof. solve_decision. Defined.
#[global] Instance Player_eq_dec : EqDecision Player.
Proof. solve_decision. Defined.

(** Field assignments. *)
Definition set_status (s : Status) (p : Player) : Player :=
  {| id := id p; name := name p; role := role p; status := s |}.

Definition set_role (r : Role) (p : Player) : Player :=
  {| id := id p; name := name p; role := r; status := status p |}.

Definition set_phase (ph : Phase) (g : Game) : Game :=
  {| code := code g; phase := ph; players := players g; history := history g;
     last_killed := last_killed g; potions := potions g;
     chat_history := chat_history g |}.

Definition set_players (ps : list Player) (g : Game) : Game :=
  {| code := code g; phase := phase g; players := ps; history := history g;
     last_killed := last_killed g; potions := potions g;
     chat_history := chat_history g |}.

Definition set_history (h : list Event) (g : Game) : Game :=
  {| code := code g; phase := phase g; players := players g; history := h;
     last_killed := last_killed g; potions := potions g;
     chat_history := chat_history g |}.

Definition set_last_killed (k : option string) (g : Game) : Game :=
  {| code := code g; phase := phase g; players := players g; history := history g;
     last_killed := k; potions := potions g; chat_history := chat_history g |}.

Definition set_potions (po : PotionState) (g : Game) : Game :=
  {| code := code g; phase := phase g; players := players g; history := history g;
     last_killed := last_killed g; potions := po; chat_history := chat_history g |}.

Definition set_heal_used (b : bool) (g : Game) : Game :=
  set_potions {| heal_used := b; poison_used := poison_used (potions g) |} g.

Definition set_poison_used (b : bool) (g : Game) : Game :=
  set_potions {| heal_used := heal_used (potions g); poison_used := b |} g.

Definition set_chat_history (h : list ChatMessage) (g : Game) : Game :=
  {| code := code g; phase := phase g; players := players g; history := history g;
     last_killed := last_killed g; potions := potions g; chat_history := h |}.

(** [Game(code=code)]: every other field at its default. *)
Definition new_game (c : string) : Game :=
  {| code := c; phase := lobby; players := []; history := [];
     last_killed := None;
     potions := {| heal_used := false; poison_used := false |};
     chat_history := [] |}.

(** [Player(id=..., name=...)]: a living villager. *)
Definition new_player (i n : string) : Player :=
  {| id := i; name := n; role := villager; status := alive |}.

(** Python truth value of an [Optional[str]]: [None] and the empty string
    are false. *)
Definition truthy (o : option string) : bool :=
  match o with
  | Some s => negb (String.eqb s EmptyString)
  | None => false
  end.

(** The first player of a list carrying an identifier, with its position:
    what a scan [for player in players: if player.id == k] finds. *)
Definition lookup_player (k : string) (ps : list Player) : option (nat * Player) :=
  list_find (λ p, id p = k) ps.

(** [kill o ps]: the player the identifier [o] refers to, if [o] is set
    and refers to one, is marked dead. *)
Definition kill (o : option string) (ps : list Player) : list Player :=
  match o with
  | Some k =>
      if truthy o then
        match lookup_player k ps with
        | Some (i, _) => alter (set_status dead) i ps
        | None => ps
        end
      else ps
  | None => ps
  end.

(** ** Exceptions *)

Inductive Potion := heal_potion | poison_potion.

(** The [GameStateError]s of [game_engine.py], one constructor per kind of
    message: a phase check that failed (with the phase the operation needs),
    [_get_player] ("Joueur introuvable"), [_ensure_alive], an exhausted
    potion, a heal with nobody to save, a poison aimed at the pending
    victim. *)
Inductive GameStateErrorKind :=
  | PhaseViolation (expected : Phase)
  | NotFound
  | NotAlive
  | PotionAlreadyUsed (p : Potion)
  | NoPendingVictim
  | DuplicateTarget.

(** The [ValueError]s: the two of [role_distribution], the duplicate code
    of [db.create_game], and the name validator of [Player]. *)
Inductive ValueErrorKind :=
  | InsufficientPlayers
  | NegativeVillagers
  | DuplicateCode
  | EmptyPlayerName
  | NameTooLong.

(** The [AgentToolError]s of [agent_runtime.py]; [engine_error] is the
    re-raise of a [GameStateError] caught around an engine call. *)
Inductive AgentToolErrorKind :=
  | NoActiveSession
  | InvalidCode
  | SessionNotFound
  | EmptyName
  | DuplicateName
  | NotRegistered
  | TooFewPlayers
  | RolesNotAssigned
  | SeerOnlyAtNight
  | NotSeerPhase (current : Phase)
  | UnknownTarget
  | SeerMustPlayFirst
  | NotWolvesPhase (current : Phase)
  | AlreadyEliminated
  | WolvesMustAttackFirst
  | NotWitchPhase (current : Phase)
  | NightNotOver
  | NotNightPhase
  | engine_error (e : GameStateErrorKind).

Inductive Exception :=
  | GameStateError (e : GameStateErrorKind)
  | ValueError (e : ValueErrorKind)
  | AgentToolError (e : AgentToolErrorKind)
  | KeyError
  | IndexError
  | AttributeError.

(** ** State-and-exception monad *)

Definition M (S A : Type) : Type := S → S * (Exception + A).

Definition raise {S A} (e : Exception) : M S A := λ s, (s, inl e).
Definition get {S} : M S S := λ s, (s, inr s).
Definition modify {S} (f : S → S) : M S unit := λ s, (f s, inr tt).

#[global] Instance M_ret {S} : MRet (M S) := λ A a s, (s, inr a).
#[global] Instance M_bind {S} : MBind (M S) := λ A B k m s,
  match m s with
  | (s', inr a) => k a s'
  | (s', inl e) => (s', inl e)
  end.


(** Sources of identifiers and randomness the program draws on:
    [uuid7 n] is the identifier the [n]-th call of [uuid6.uuid7] returns,
    [system_random n] the [n]-th draw of [random.SystemRandom], and the two
    shuffles are those [random.Random(seed)] performs, first on the
    identifiers and then on the bag of roles. *)
Class Environment := {
  uuid7 : nat → string;
  system_random : nat → nat;
  shuffle_ids : option Z → list string → list string;
  shuffle_bag : option Z → list string → list Role → list Role
}.

(** What is assumed of them: an identifier is never drawn twice. *)
Class EnvironmentOk `{Environment} := {
  uuid7_inj : Inj (=) (=) uuid7
}.

(** ** Role quotas and assignment ([roles.py]) *)

Module roles.

Definition _wolf_count (player_count : Z) : Z :=
  if (player_count <=? 6)%Z then 1%Z
  else if (player_count <=? 9)%Z then 2%Z
  else 3%Z.

(** A [Dict[str, int]] keyed by role name, in insertion order.
    [dict_set k v d] is [d[k] = v]: the entry is replaced where it stands,
    or appended when the key is new. *)
Fixpoint dict_set (k : Role) (v : Z) (d : list (Role * Z)) : list (Role * Z) :=
  match d with
  | [] => [(k, v)]
  | (k', v') :: d' =>
      if decide (k' = k) then (k, v) :: d' else (k', v') :: dict_set k v d'
  end.

Fixpoint dict_get (k : Role) (d : list (Role * Z)) : option Z :=
  match d with
  | [] => None
  | (k', v') :: d' => if decide (k' = k) then Some v' else dict_get k d'
  end.

(** [sum(distribution.values())] *)
Definition sum_values (d : list (Role * Z)) : Z :=
  foldr (λ kv acc, (kv.2 + acc)%Z) 0%Z d.

Definition role_distribution (player_count : Z) : Exception + list (Role * Z) :=
  if (player_count <? 5)%Z then inl (ValueError InsufficientPlayers)
  else
    let distribution := [(seer, 1%Z); (witch, 0%Z); (wolf, _wolf_count player_count)] in
    let distribution :=
      if (6 <=? player_count)%Z then dict_set witch 1%Z distribution
      else distribution in
    let villagers := (player_count - sum_values distribution)%Z in
    if (villagers <? 0)%Z then inl (ValueError NegativeVillagers)
    else inr (dict_set villager villagers distribution).

(** [bag.extend([role] * amount)] for each item of the distribution; a
    non-positive [amount] repeats nothing. *)
Definition bag_of (distribution : list (Role * Z)) : list Role :=
  flat_map (λ kv, replicate (Z.to_nat kv.2) kv.1) distribution.

(** [{player_id: bag[index] for index, player_id in enumerate(ids)}]:
    a later duplicate identifier overwrites, [bag[index]] out of range
    raises. *)
Fixpoint pair_by_position (bag : list Role) (index : nat) (ids : list string)
    (acc : gmap string Role) : Exception + gmap string Role :=
  match ids with
  | [] => inr acc
  | player_id :: ids' =>
      match bag !! index with
      | Some r => pair_by_position bag (S index) ids' (<[player_id := r]> acc)
      | None => inl IndexError
      end
  end.

Definition assign_roles `{Environment} (player_ids : list string) (seed : option Z)
    : Exception + gmap string Role :=
  let ids := player_ids in
  let count := Z.of_nat (length ids) in
  match role_distribution count with
  | inl e => inl e
  | inr distribution =>
      let bag := bag_of distribution in
      let ids' := shuffle_ids seed ids in
      let bag' := shuffle_bag seed ids bag in
      pair_by_position bag' 0 ids' ∅
  end.

End roles.

(** ** Python string methods, on ASCII text

    A [string] is the UTF-8 encoding of the Python [str].  On a string
    that [isascii] accepts, a byte is a character and [upper], [lower],
    [strip] and [String.length] below are [str.upper], [str.lower],
    [str.strip] and [len]; on other strings Python also changes the case
    of letters outside ASCII, strips Unicode white space and counts
    characters rather than bytes, which these definitions do not do. *)

Module pystr.

(** [c.isascii()] on one character, [s.isascii()] on a string. *)
Definition isascii_char (c : ascii) : bool :=
  bool_decide (nat_of_ascii c < 128)%nat.

Fixpoint isascii (s : string) : bool :=
  match s with
  | EmptyString => true
  | String c s' => isascii_char c && isascii s'
  end.

Definition is_space (c : ascii) : bool :=
  let n := nat_of_ascii c in
  bool_decide (n = 32 ∨ 9 ≤ n ≤ 13 ∨ 28 ≤ n ≤ 31)%nat.

Definition lower_char (c : ascii) : ascii :=
  let n := nat_of_ascii c in
  if bool_decide (65 ≤ n ≤ 90)%nat then ascii_of_nat (n + 32) else c.

Definition upper_char (c : ascii) : ascii :=
  let n := nat_of_ascii c in
  if bool_decide (97 ≤ n ≤ 122)%nat then ascii_of_nat (n - 32) else c.

Fixpoint map_chars (f : ascii → ascii) (s : string) : string :=
  match s with
  | EmptyString => EmptyString
  | String c s' => String (f c) (map_chars f s')
  end.

Fixpoint lstrip (s : string) : string :=
  match s with
  | EmptyString => EmptyString
  | String c s' => if is_space c then lstrip s' else s
  end.

Definition strip (s : string) : string :=
  String.rev (lstrip (String.rev (lstrip s))).

Definition lower : string → string := map_chars lower_char.
Definition upper : string → string := map_chars upper_char.

Fixpoint chars (s : string) : list ascii :=
  match s with
  | EmptyString => []
  | String c s' => c :: chars s'
  end.

Definition newline : string := String (ascii_of_nat 10) EmptyString.

(** [separator.join(parts)] *)
Fixpoint join (separator : string) (parts : list string) : string :=
  match parts with
  | [] => EmptyString
  | [x] => x
  | x :: rest => x +:+ separator +:+ join separator rest
  end.

End pystr.

(** ** List helpers ([utils.py]) *)

Module utils.

Definition alive_players (ps : list Player) : list Player :=
  filter (λ p, status p = alive) ps.

Definition count_role (ps : list Player) (r : Role) : nat :=
  length (filter (λ p, role p = r) ps).

Definition count_wolves (ps : list Player) : nat := count_role ps wolf.

(** [string.ascii_uppercase + string.digits] *)
Definition GAME_CODE_ALPHABET : list ascii :=
  pystr.chars "ABCDEFGHIJKLMNOPQRSTUVWXYZ0123456789".

(** [rng.choice(GAME_CODE_ALPHABET)] on the [n]-th draw of the system
    generator. *)
Definition choice `{Environment} (n : nat) : ascii :=
  default "A"%char
    (GAME_CODE_ALPHABET !! (system_random n `mod` length GAME_CODE_ALPHABET)%nat).

(** [generate_game_code(length)], the draws numbered from [n]. *)
Fixpoint generate_game_code `{Environment} (n : nat) (length : nat) : string :=
  match length with
  | O => EmptyString
  | S length' => String (choice n) (generate_game_code (S n) length')
  end.

Definition validate_game_code (code : string) : bool :=
  bool_decide (String.length code = 6%nat)
  && forallb (λ char, bool_decide (char ∈ GAME_CODE_ALPHABET))
       (pystr.chars (pystr.upper code)).

Definition find_player_by_name (ps : list Player) (name0 : string) : option (nat * Player) :=
  let target := pystr.lower (pystr.strip name0) in
  list_find (λ p, pystr.lower (pystr.strip (name p)) = target) ps.

Definition role_name (r : Role) : string :=
  match r with
  | seer => "seer"
  | witch => "witch"
  | wolf => "wolf"
  | villager => "villager"
  end.

Definition phase_name (ph : Phase) : string :=
  match ph with
  | lobby => "lobby"
  | night_seer => "night_seer"
  | night_wolves => "night_wolves"
  | night_witch => "night_witch"
  | day => "day"
  | ended => "ended"
  end.

End utils.

(** ** The state machine ([game_engine.py]) *)

Module game_engine.

(** [_get_player] returns a reference into [game.players]: here the
    position of the first player with that identifier, together with the
    player found there. *)
Definition _get_player (player_id : string) : M Game (nat * Player) :=
  g ← get;
  match lookup_player player_id (players g) with
  | Some found => mret found
  | None => raise (GameStateError NotFound)
  end.

Definition _ensure_alive (p : Player) : M Game unit :=
  if decide (status p ≠ alive) then raise (GameStateError NotAlive) else mret tt.

(** [player.status = "dead"] through the reference [i]. *)
Definition mark_dead (i : nat) : M Game unit :=
  modify (λ g, set_players (alter (set_status dead) i (players g)) g).

(** The loop of [assign_roles]: players before the first identifier
    missing from [assignments] are already updated when [KeyError] is
    raised. *)
Fixpoint assign_each (assignments : gmap string Role) (ps : list Player)
    : list Player * option Exception :=
  match ps with
  | [] => ([], None)
  | p :: ps' =>
      match assignments !! id p with
      | None => (p :: ps', Some KeyError)
      | Some r =>
          let (ps'', e) := assign_each assignments ps' in
          (set_status alive (set_role r p) :: ps'', e)
      end
  end.

Definition assign_roles `{Environment} (seed : option Z) : M Game (gmap string Role) :=
  g ← get;
  if decide (phase g ≠ lobby) then raise (GameStateError (PhaseViolation lobby))
  else
    let player_ids := id <$> players g in
    match roles.assign_roles player_ids seed with
    | inl e => raise e
    | inr assignments =>
        let (ps, e) := assign_each assignments (players g) in
        modify (set_players ps);;
        match e with
        | Some e => raise e
        | None => modify (set_phase night_seer);; mret assignments
        end
    end.

Definition seer_peek (target_player_id : string) : M Game Role :=
  g ← get;
  if decide (phase g ≠ night_seer) then raise (GameStateError (PhaseViolation night_seer))
  else
    target ← _get_player target_player_id;
    _ensure_alive target.2;;
    modify (set_phase night_wolves);;
    mret (role target.2).

Definition wolves_vote (target_player_id : string) : M Game string :=
  g ← get;
  if decide (phase g ≠ night_wolves) then raise (GameStateError (PhaseViolation night_wolves))
  else
    target ← _get_player target_player_id;
    _ensure_alive target.2;;
    modify (set_last_killed (Some (id target.2)));;
    modify (set_phase night_witch);;
    mret (id target.2).

(** The [if heal:] block; yields the new value of [killed_id]. *)
Definition witch_heal_step (killed_id : option string) : M Game (option string) :=
  g ← get;
  if heal_used (potions g) then raise (GameStateError (PotionAlreadyUsed heal_potion))
  else if negb (truthy (last_killed g)) then raise (GameStateError NoPendingVictim)
  else
    modify (set_last_killed None);;
    modify (set_heal_used true);;
    mret None.

(** The [if poison_target_id:] block; yields the new value of [killed_id]. *)
Definition witch_poison_step (poison_target_id : string) (killed_id : option string)
    : M Game (option string) :=
  g ← get;
  if poison_used (potions g) then raise (GameStateError (PotionAlreadyUsed poison_potion))
  else
    target ← _get_player poison_target_id;
    _ensure_alive target.2;;
    if decide (Some poison_target_id = killed_id) then raise (GameStateError DuplicateTarget)
    else
      mark_dead target.1;;
      modify (set_poison_used true);;
      mret (Some poison_target_id).

(** [if o: victim = _get_player(game, o); victim.status = "dead"] *)
Definition kill_if_set (o : option string) : M Game unit :=
  match o with
  | Some k =>
      if truthy o then (victim ← _get_player k; mark_dead victim.1) else mret tt
  | None => mret tt
  end.

Definition witch_action (heal : bool) (poison_target_id : option string)
    : M Game (option string) :=
  g ← get;
  if decide (phase g ≠ night_witch) then raise (GameStateError (PhaseViolation night_witch))
  else
    let killed_id := last_killed g in
    killed_id ← (if heal then witch_heal_step killed_id else mret killed_id);
    killed_id ← (match poison_target_id with
                 | Some t =>
                     if truthy poison_target_id then witch_poison_step t killed_id
                     else mret killed_id
                 | None => mret killed_id
                 end);
    kill_if_set killed_id;;
    g ← get;
    kill_if_set (last_killed g);;
    modify (set_last_killed None);;
    modify (set_phase day);;
    mret killed_id.

Definition start_next_night : M Game unit :=
  g ← get;
  if decide (phase g ≠ day) then raise (GameStateError (PhaseViolation day))
  else modify (set_phase night_seer).

Definition is_game_over (g : Game) : bool * option string :=
  let alive := utils.alive_players (players g) in
  let wolves := filter (λ p, role p = wolf) alive in
  let villagers := filter (λ p, role p ≠ wolf) alive in
  if decide (wolves = []) then (true, Some "village")
  else if decide (length villagers ≤ length wolves) then (true, Some "wolves")
  else (false, None).

Definition living_roles_summary (g : Game) : nat * Z :=
  let wolves := utils.count_wolves (utils.alive_players (players g)) in
  (wolves, (Z.of_nat (length (utils.alive_players (players g))) - Z.of_nat wolves)%Z).

End game_engine.



(** ** The store and the in-flight context *)

(** [AgentContext]; [user_message] and [chat_history], which no tool
    reads, are left out.  [errors] holds the tool errors the wrapper of
    [langchain_agent.py] recorded. *)
Record AgentContext := {
  game_code : option string;
  game : option Game;
  executed : list string;
  errors : list AgentToolErrorKind
}.

(** The world a command runs in: the [games] collection keyed by [code],
    the current context, and how many identifiers and random characters
    have been drawn so far. *)
Record World := {
  store : gmap string Game;
  context : AgentContext;
  uuid_calls : nat;
  random_calls : nat
}.

Definition set_game_code (c : option string) (x : AgentContext) : AgentContext :=
  {| game_code := c; game := game x; executed := executed x; errors := errors x |}.

Definition set_game (g : option Game) (x : AgentContext) : AgentContext :=
  {| game_code := game_code x; game := g; executed := executed x; errors := errors x |}.

Definition add_executed (m : string) (x : AgentContext) : AgentContext :=
  {| game_code := game_code x; game := game x; executed := executed x ++ [m];
     errors := errors x |}.

Definition add_error (e : AgentToolErrorKind) (x : AgentContext) : AgentContext :=
  {| game_code := game_code x; game := game x; executed := executed x;
     errors := errors x ++ [e] |}.

Definition set_store (st : gmap string Game) (w : World) : World :=
  {| store := st; context := context w; uuid_calls := uuid_calls w;
     random_calls := random_calls w |}.

Definition set_context (x : AgentContext) (w : World) : World :=
  {| store := store w; context := x; uuid_calls := uuid_calls w;
     random_calls := random_calls w |}.

Definition set_uuid_calls (n : nat) (w : World) : World :=
  {| store := store w; context := context w; uuid_calls := n;
     random_calls := random_calls w |}.

Definition set_random_calls (n : nat) (w : World) : World :=
  {| store := store w; context := context w; uuid_calls := uuid_calls w;
     random_calls := n |}.

Definition on_context (f : AgentContext → AgentContext) (w : World) : World :=
  set_context (f (context w)) w.

Definition on_store (f : gmap string Game → gmap string Game) (w : World) : World :=
  set_store (f (store w)) w.

(** ** The store ([db.py]) *)

Module db.

(** [update_one({"code": code}, ...)] changes the matching document and
    does nothing when there is none. *)
Definition update_one (code0 : string) (f : Game → Game) : M World unit :=
  modify (on_store (alter f code0)).

Definition create_game (code0 : string) : M World Game :=
  w ← get;
  match store w !! code0 with
  | Some _ => raise (ValueError DuplicateCode)
  | None =>
      let g := new_game code0 in
      modify (on_store (insert code0 g));;
      mret g
  end.

Definition get_game (code0 : string) : M World (option Game) :=
  w ← get; mret (store w !! code0).

(** [$set] of every field of the serialized game, with [upsert=True]. *)
Definition upsert_game (g : Game) : M World unit :=
  modify (on_store (insert (code g) g)).

(** [Player(id=str(uuid7()), name=name)] runs the name validator, which
    strips the name and rejects an empty or over-long one. *)
Definition add_player `{Environment} (code0 : string) (name0 : string) : M World string :=
  w ← get;
  let player_id := uuid7 (uuid_calls w) in
  modify (set_uuid_calls (S (uuid_calls w)));;
  let value := pystr.strip name0 in
  if decide (value = EmptyString) then raise (ValueError EmptyPlayerName)
  else if decide (40 < String.length value)%nat then raise (ValueError NameTooLong)
  else
    update_one code0 (λ g, set_players (players g ++ [new_player player_id value]) g);;
    mret player_id.

(** [$pull] removes every player carrying that identifier. *)
Definition remove_player (code0 : string) (player_id : string) : M World unit :=
  update_one code0 (λ g, set_players (filter (λ p, id p ≠ player_id) (players g)) g).

Definition set_phase (code0 : string) (ph : Phase) : M World unit :=
  update_one code0 (set_phase ph).

Definition log_event (code0 : string) (event : Event) : M World unit :=
  update_one code0 (λ g, set_history (history g ++ [event]) g).

Definition append_chat_message (code0 : string) (message : ChatMessage) : M World unit :=
  update_one code0 (λ g, set_chat_history (chat_history g ++ [message]) g).

Definition overwrite_chat_history (code0 : string) (messages : list ChatMessage)
    : M World unit :=
  update_one code0 (set_chat_history messages).

End db.

(** ** The command dispatcher ([agent_runtime.py]) *)

Module agent_runtime.

(** [AgentContext.reload_game] *)
Definition reload_game : M World unit :=
  w ← get;
  match game_code (context w) with
  | Some c =>
      if truthy (Some c) then g ← db.get_game c; modify (on_context (set_game g))
      else modify (on_context (set_game None))
  | None => modify (on_context (set_game None))
  end.

(** [set_current_context]: a fresh context for one exchange, bound to the
    code the caller supplies. *)
Definition set_current_context (code0 : option string) : M World unit :=
  modify (set_context {| game_code := code0; game := None; executed := []; errors := [] |});;
  reload_game.

Definition _ensure_game : M World Game :=
  w ← get;
  match game (context w) with
  | Some g =>
      if truthy (game_code (context w)) then mret g
      else raise (AgentToolError NoActiveSession)
  | None => raise (AgentToolError NoActiveSession)
  end.

(** Reading an attribute of the local variable [game], which aliases
    [context.game]; after a reload that found nothing it is [None]. *)
Definition the_game : M World Game :=
  w ← get;
  match game (context w) with
  | Some g => mret g
  | None => raise AttributeError
  end.

(** An engine operation applied to the object [game]: its mutations are
    visible through [context.game] whether or not it raises. *)
Definition on_game {A} (m : M Game A) : M World A :=
  g ← the_game;
  let (g', r) := m g in
  modify (on_context (set_game (Some g')));;
  match r with
  | inl e => raise e
  | inr a => mret a
  end.

(** [try: ... except GameStateError as exc: raise AgentToolError(str(exc))] *)
Definition engine_call {A} (m : M Game A) : M World A :=
  λ w, match on_game m w with
       | (w', inl (GameStateError e)) => (w', inl (AgentToolError (engine_error e)))
       | other => other
       end.

Definition say (message : string) : M World string :=
  modify (on_context (add_executed message));; mret message.

Definition _finalize_state : M World unit :=
  g ← the_game;
  let (over, winner) := game_engine.is_game_over g in
  (if over && bool_decide (phase g ≠ ended) then
     on_game (modify (set_phase ended));;
     db.log_event (code g) (game_over (if truthy winner then default "inconnu" winner else "inconnu"))
   else mret tt);;
  g ← the_game;
  db.upsert_game g;;
  modify (on_context (set_game_code (Some (code g))));;
  reload_game.

Definition tool_create_game `{Environment} (code0 : option string) : M World string :=
  generated_code ←
    (match code0 with
     | Some c =>
         if truthy code0 then
           let candidate := pystr.upper (pystr.strip c) in
           if negb (utils.validate_game_code candidate) then raise (AgentToolError InvalidCode)
           else mret candidate
         else
           w ← get;
           modify (set_random_calls (random_calls w + 6));;
           mret (utils.generate_game_code (random_calls w) 6)
     | None =>
         w ← get;
         modify (set_random_calls (random_calls w + 6));;
         mret (utils.generate_game_code (random_calls w) 6)
     end);
  g ← db.create_game generated_code;
  db.log_event generated_code (game_created generated_code);;
  modify (on_context (set_game_code (Some generated_code)));;
  modify (on_context (set_game (Some g)));;
  say ("Partie creee avec le code " +:+ generated_code +:+ ".").

Definition tool_join_game (code0 : string) : M World string :=
  let normalized := pystr.upper (pystr.strip code0) in
  if negb (utils.validate_game_code normalized) then raise (AgentToolError InvalidCode)
  else
    found ← db.get_game normalized;
    match found with
    | None => raise (AgentToolError SessionNotFound)
    | Some g =>
        modify (on_context (set_game_code (Some normalized)));;
        modify (on_context (set_game (Some g)));;
        say ("Salon " +:+ normalized +:+ " rejoint.")
    end.

Definition tool_add_player `{Environment} (name0 : string) : M World string :=
  g ← _ensure_game;
  let player_name := pystr.strip name0 in
  if decide (player_name = EmptyString) then raise (AgentToolError EmptyName)
  else if utils.find_player_by_name (players g) player_name is Some _
  then raise (AgentToolError DuplicateName)
  else
    db.add_player (code g) player_name;;
    db.log_event (code g) (player_added player_name);;
    reload_game;;
    say (player_name +:+ " rejoint la partie.").

Definition tool_remove_player (name0 : string) : M World string :=
  g ← _ensure_game;
  let target_name := pystr.strip name0 in
  if decide (target_name = EmptyString) then raise (AgentToolError EmptyName)
  else
    match utils.find_player_by_name (players g) target_name with
    | None => raise (AgentToolError NotRegistered)
    | Some (_, player) =>
        db.remove_player (code g) (id player);;
        db.log_event (code g) (player_removed (name player));;
        reload_game;;
        say (name player +:+ " a ete retire du salon.")
    end.

Definition tool_list_players : M World string :=
  g ← _ensure_game;
  if decide (players g = []) then mret "Aucun joueur inscrit pour le moment."
  else
    let line (p : Player) :=
      "- " +:+ name p +:+ " ("
      +:+ (if decide (status p = alive) then "vivant" else "mort")
      +:+ ", role: "
      +:+ (if decide (phase g = ended ∨ status p = dead) then utils.role_name (role p) else "?")
      +:+ ")" in
    let message :=
      "Joueurs inscrits :" +:+ pystr.newline +:+ pystr.join pystr.newline (line <$> players g) in
    modify (on_context (add_executed "Consultation de la liste des joueurs."));;
    mret message.

Definition tool_assign_roles `{Environment} (seed : option Z) : M World string :=
  g ← _ensure_game;
  if decide (length (players g) < 5)%nat then raise (AgentToolError TooFewPlayers)
  else
    assignments ← engine_call (game_engine.assign_roles seed);
    db.log_event (code g) (roles_assigned (size assignments));;
    _finalize_state;;
    say "Les roles sont distribues. La nuit commence.".

Definition tool_seer_peek (target_name : string) : M World string :=
  g ← _ensure_game;
  if decide (phase g ≠ night_seer) then
    if decide (phase g = lobby) then raise (AgentToolError RolesNotAssigned)
    else if decide (phase g = day) then raise (AgentToolError SeerOnlyAtNight)
    else raise (AgentToolError (NotSeerPhase (phase g)))
  else
    match utils.find_player_by_name (players g) target_name with
    | None => raise (AgentToolError UnknownTarget)
    | Some (_, target) =>
        r ← engine_call (game_engine.seer_peek (id target));
        db.log_event (code g) (seer_peeked (name target) r);;
        _finalize_state;;
        say ("La Voyante decouvre que " +:+ name target +:+ " est "
             +:+ utils.role_name r +:+ ".")
    end.

(** The forced passage past a night phase whose actor is gone:
    [game.phase = ...; db.set_phase(game.code, ...); context.reload_game();
    game = context.game]. *)
Definition force_phase (ph : Phase) : M World unit :=
  g ← the_game;
  on_game (modify (set_phase ph));;
  db.set_phase (code g) ph;;
  reload_game.

Definition living_seer (g : Game) : option (nat * Player) :=
  list_find (λ p, role p = seer ∧ status p = alive) (players g).

Definition living_wolves (g : Game) : list Player :=
  filter (λ p, role p = wolf ∧ status p = alive) (players g).

Definition living_witch (g : Game) : option (nat * Player) :=
  list_find (λ p, role p = witch ∧ status p = alive) (players g).

Definition tool_wolves_vote (target_name : string) : M World string :=
  g ← _ensure_game;
  (if decide (phase g = night_seer) then
     if living_seer g is Some _ then raise (AgentToolError SeerMustPlayFirst)
     else force_phase night_wolves
   else if decide (phase g ≠ night_wolves) then raise (AgentToolError (NotWolvesPhase (phase g)))
   else mret tt);;
  g ← the_game;
  match utils.find_player_by_name (players g) target_name with
  | None => raise (AgentToolError UnknownTarget)
  | Some (_, target) =>
      if decide (status target ≠ alive) then raise (AgentToolError AlreadyEliminated)
      else
        engine_call (game_engine.wolves_vote (id target));;
        db.log_event (code g) (wolves_voted (name target));;
        _finalize_state;;
        say ("Les Loups ciblent " +:+ name target +:+ ".")
  end.

(** [next((player for player in game.players if player.id == k), None)] *)
Definition player_with_id (g : Game) (k : string) : option (nat * Player) :=
  lookup_player k (players g).

(** The [player_killed] event both night-ending tools log. *)
Definition log_killed (g : Game) (killed_id : option string) : M World unit :=
  match killed_id with
  | Some k =>
      if truthy killed_id then
        match player_with_id g k with
        | Some (_, victim) => db.log_event (code g) (player_killed (name victim))
        | None => mret tt
        end
      else mret tt
  | None => mret tt
  end.

Definition tool_witch_action (heal : bool) (poison_target : option string) : M World string :=
  g ← _ensure_game;
  (if decide (phase g = night_seer) then raise (AgentToolError SeerMustPlayFirst)
   else if decide (phase g = night_wolves) then
     if decide (living_wolves g ≠ []) then raise (AgentToolError WolvesMustAttackFirst)
     else force_phase night_witch
   else if decide (phase g ≠ night_witch) then raise (AgentToolError (NotWitchPhase (phase g)))
   else mret tt);;
  g ← the_game;
  poison ←
    (match poison_target with
     | Some t =>
         if truthy poison_target then
           match utils.find_player_by_name (players g) t with
           | None => raise (AgentToolError UnknownTarget)
           | Some (_, target) => mret (Some (id target), Some (name target))
           end
         else mret (None, None)
     | None => mret (None, None)
     end);
  let (poison_id, poisoned_name) := poison : option string * option string in
  let saved_name :=
    if heal && truthy (last_killed g) then
      match last_killed g with
      | Some k => if player_with_id g k is Some (_, victim) then Some (name victim) else None
      | None => None
      end
    else None in
  killed_id ← engine_call (game_engine.witch_action heal poison_id);
  (if heal then
     db.log_event (code g) (witch_heal (if truthy saved_name then default "aucun" saved_name else "aucun"))
   else mret tt);;
  (if truthy poisoned_name then
     db.log_event (code g) (witch_poison (default EmptyString poisoned_name))
   else mret tt);;
  g' ← the_game;
  log_killed g' killed_id;;
  _finalize_state;;
  say "Action de la Sorciere appliquee.".

Definition tool_advance_to_day : M World string :=
  g ← _ensure_game;
  if decide (phase g ≠ night_witch) then raise (AgentToolError NightNotOver)
  else
    killed_id ← engine_call (game_engine.witch_action false None);
    g' ← the_game;
    log_killed g' killed_id;;
    db.log_event (code g) night_finished;;
    _finalize_state;;
    say "Le village se reveille.".

Definition tool_run_night_sequence : M World string :=
  g ← _ensure_game;
  if decide (phase g ∉ [night_seer; night_wolves; night_witch])
  then raise (AgentToolError NotNightPhase)
  else
    messages1 ←
      (if decide (phase g = night_seer) then
         match living_seer g with
         | Some (_, seer0) =>
             mret ["La nuit commence. La Voyante (" +:+ name seer0 +:+ ") se reveille.";
                   "Voyante, qui veux-tu sonder ?"]
         | None =>
             force_phase night_wolves;;
             mret ["La Voyante n'est plus parmi nous..."]
         end
       else mret []);
    g ← the_game;
    messages2 ←
      (if decide (phase g = night_wolves) then
         let wolves := living_wolves g in
         if decide (wolves ≠ []) then
           mret ["Les Loups-garous (" +:+ pystr.join ", " (name <$> wolves)
                 +:+ ") se reveillent.";
                 "Loups, qui voulez-vous devorer ?"]
         else
           force_phase night_witch;;
           mret ["Les Loups-garous ont tous ete elimines..."]
       else mret []);
    g ← the_game;
    let messages3 :=
      if decide (phase g = night_witch) then
        match living_witch g with
        | Some (_, witch0) =>
            let heal_info :=
              if negb (heal_used (potions g)) && truthy (last_killed g) then
                match last_killed g with
                | Some k =>
                    if player_with_id g k is Some (_, victim)
                    then ["Les loups ont attaque " +:+ name victim
                          +:+ ". Tu peux le/la sauver avec ta potion de soin."]
                    else []
                | None => []
                end
              else [] in
            let poison_info :=
              if negb (poison_used (potions g))
              then ["Tu disposes encore de ta potion de poison."] else [] in
            let potion_info := heal_info ++ poison_info in
            ["La Sorciere (" +:+ name witch0 +:+ ") se reveille."]
            ++ (if decide (potion_info ≠ []) then
                  ["Sorciere : " +:+ pystr.join " " potion_info;
                   "(la sorciere sauve, empoisonne ou passe son tour)"]
                else [])
        | None =>
            ["La Sorciere n'est plus parmi nous...";
             "Toutes les phases de nuit sont terminees."]
        end
      else [] in
    mret (pystr.join pystr.newline (messages1 ++ messages2 ++ messages3)).

Definition tool_start_next_night : M World string :=
  g ← _ensure_game;
  engine_call game_engine.start_next_night;;
  db.log_event (code g) night_started;;
  _finalize_state;;
  say "Une nouvelle nuit tombe sur le village.".

Definition tool_game_status : M World string :=
  _ensure_game;;
  reload_game;;
  g ← the_game;
  let names (st : Status) := name <$> filter (λ p, status p = st) (players g) in
  let listing (l : list string) := if decide (l = []) then "aucun" else pystr.join ", " l in
  let flag (b : bool) := if b then "True" else "False" in
  let status_text :=
    "Phase actuelle : " +:+ utils.phase_name (phase g) +:+ "." +:+ pystr.newline
    +:+ "Vivants : " +:+ listing (names alive) +:+ "." +:+ pystr.newline
    +:+ "Morts : " +:+ listing (names dead) +:+ "." +:+ pystr.newline
    +:+ "Potions - soin utilise : " +:+ flag (heal_used (potions g))
    +:+ ", poison utilise : " +:+ flag (poison_used (potions g)) +:+ "." in
  modify (on_context (add_executed "Statut de la partie consulte."));;
  mret status_text.

Record AgentResponse := {
  reply : string;
  response_game_code : option string;
  response_chat_history : list ChatMessage;
  response_errors : list AgentToolErrorKind;
  executed_actions : list string;
  game_snapshot : option Game
}.

(** [persist_interaction]; the message of the user and the chat history
    the exchange started from are fields of the context in the source,
    arguments here.  A list of role and content pairs is a list of
    messages. *)
Definition persist_interaction (user_message : string) (chat_history0 : list ChatMessage)
    (assistant_reply : string) : M World AgentResponse :=
  w ← get;
  let user := {| chat_role := "user"; content := user_message |} in
  let assistant := {| chat_role := "assistant"; content := assistant_reply |} in
  outcome ←
    (match game_code (context w) with
     | Some c =>
         if truthy (game_code (context w)) then
           db.append_chat_message c user;;
           db.append_chat_message c assistant;;
           snapshot ← db.get_game c;
           let persisted := if snapshot is Some s then chat_history s else [] in
           mret (persisted, snapshot)
         else mret (chat_history0 ++ [user] ++ [assistant], None)
     | None => mret (chat_history0 ++ [user] ++ [assistant], None)
     end);
  w' ← get;
  mret {| reply := assistant_reply;
          response_game_code := game_code (context w');
          response_chat_history := outcome.1;
          response_errors := errors (context w');
          executed_actions := executed (context w');
          game_snapshot := outcome.2 |}.

End agent_runtime.

(** ** The administration panel ([app.py]) *)

Module app.

(** [_reset_game]: the session is replaced by a fresh one under the same
    code; the chat shown in the page, which is not part of the world, is
    left out. *)
Definition _reset_game (g : Game) : M World unit :=
  db.upsert_game (new_game (code g));;
  db.overwrite_chat_history (code g) [].

End app.

(** ** Commands and exchanges *)

(** A structured command: a tool name of [TOOL_FUNCTIONS] with its
    arguments, an omitted optional argument taking the default of the tool
    function. *)
Inductive Command :=
  | cmd_create_game (code : option string)
  | cmd_join_game (code : string)
  | cmd_add_player (name : string)
  | cmd_remove_player (name : string)
  | cmd_list_players
  | cmd_assign_roles (seed : option Z)
  | cmd_seer_peek (target_name : string)
  | cmd_wolves_vote (target_name : string)
  | cmd_witch_action (heal : bool) (poison_target : option string)
  | cmd_run_night_sequence
  | cmd_advance_to_day
  | cmd_start_next_night
  | cmd_game_status.

Module langchain_agent.

(** The entry of [agent_runtime.TOOL_FUNCTIONS] for the command, applied
    to its arguments. *)
Definition tool_function `{Environment} (c : Command) : M World string :=
  match c with
  | cmd_create_game code0 => agent_runtime.tool_create_game code0
  | cmd_join_game code0 => agent_runtime.tool_join_game code0
  | cmd_add_player name0 => agent_runtime.tool_add_player name0
  | cmd_remove_player name0 => agent_runtime.tool_remove_player name0
  | cmd_list_players => agent_runtime.tool_list_players
  | cmd_assign_roles seed => agent_runtime.tool_assign_roles seed
  | cmd_seer_peek target_name => agent_runtime.tool_seer_peek target_name
  | cmd_wolves_vote target_name => agent_runtime.tool_wolves_vote target_name
  | cmd_witch_action heal poison_target => agent_runtime.tool_witch_action heal poison_target
  | cmd_run_night_sequence => agent_runtime.tool_run_night_sequence
  | cmd_advance_to_day => agent_runtime.tool_advance_to_day
  | cmd_start_next_night => agent_runtime.tool_start_next_night
  | cmd_game_status => agent_runtime.tool_game_status
  end.

(** [_wrap_tool]: an [AgentToolError] is recorded in [context.errors] and
    answered as text; any other exception propagates. *)
Definition _wrap_tool `{Environment} (c : Command) : M World string :=
  λ w, match tool_function c w with
       | (w', inl (AgentToolError e)) => (on_context (add_error e) w', inr "Erreur")
       | other => other
       end.

End langchain_agent.

(** What happens to the world over time: an exchange begins
    ([process_message] installs a fresh context bound to the caller's
    code), or the agent invokes a tool within the current exchange.  An
    exception that escapes the wrapper ends the exchange; the world is
    left as the exception found it. *)
Inductive Step :=
  | begin_exchange (game_code0 : option string)
  | invoke (c : Command).

Definition exec `{Environment} (s : Step) (w : World) : World :=
  match s with
  | begin_exchange game_code0 => (agent_runtime.set_current_context game_code0 w).1
  | invoke c => (langchain_agent._wrap_tool c w).1
  end.

Definition run `{Environment} (steps : list Step) (w : World) : World :=
  foldl (λ w s, exec s w) w steps.

(** Nothing stored, nothing drawn, no session bound. *)
Definition empty_world : World :=
  {| store := ∅;
     context := {| game_code := None; game := None; executed := []; errors := [] |};
     uuid_calls := 0; random_calls := 0 |}.

Definition reachable `{Environment} (w : World) : Prop :=
  ∃ steps, w = run steps empty_world.


(** ** A worked environment and worked sessions *)

(** Identifiers [u0], [u1], ...; shuffles that leave the order alone. *)
Definition demo_environment : Environment :=
  {| uuid7 n := "u" +:+ pretty n;
     system_random n := n;
     shuffle_ids _ ids := ids;
     shuffle_bag _ _ bag := bag |}.

Definition six_players : list Player :=
  [ {| id := "u0"; name := "Alice"; role := seer; status := alive |};
    {| id := "u1"; name := "Bob"; role := witch; status := alive |};
    {| id := "u2"; name := "Carol"; role := wolf; status := alive |};
    {| id := "u3"; name := "Dave"; role := villager; status := alive |};
    {| id := "u4"; name := "Erin"; role := villager; status := alive |};
    {| id := "u5"; name := "Frank"; role := villager; status := alive |} ].

(** The first night, the seer about to play. *)
Definition seer_night : Game :=
  {| code := "ABCDEF"; phase := night_seer; players := six_players; history := [];
     last_killed := None;
     potions := {| heal_used := false; poison_used := false |};
     chat_history := [] |}.

(** The first night, the wolves having chosen Dave. *)
Definition witch_night : Game :=
  set_phase night_witch (set_last_killed (Some "u3") seer_night).

(** A lobby of six, a first night in which the wolves kill Frank and the
    witch poisons Erin, and a second night up to the wolves' vote
    against Dave. *)
Definition two_nights : list Step :=
  [ begin_exchange None;
    invoke (cmd_create_game (Some "ABCDEF"));
    invoke (cmd_add_player "Alice"); invoke (cmd_add_player "Bob");
    invoke (cmd_add_player "Carol"); invoke (cmd_add_player "Dave");
    invoke (cmd_add_player "Erin"); invoke (cmd_add_player "Frank");
    invoke (cmd_assign_roles None);
    invoke (cmd_seer_peek "Dave");
    invoke (cmd_wolves_vote "Frank");
    invoke (cmd_witch_action false (Some "Erin"));
    invoke cmd_start_next_night;
    invoke (cmd_seer_peek "Bob");
    invoke (cmd_wolves_vote "Dave") ].

(** The session those steps lead to: the witch's turn of the second
    night, her poison spent, her heal unused. *)
Definition second_witch_night : Game :=
  {| code := "ABCDEF"; phase := night_witch;
     players :=
       [ {| id := "u0"; name := "Alice"; role := seer; status := alive |};
         {| id := "u1"; name := "Bob"; role := witch; status := alive |};
         {| id := "u2"; name := "Carol"; role := wolf; status := alive |};
         {| id := "u3"; name := "Dave"; role := villager; status := alive |};
         {| id := "u4"; name := "Erin"; role := villager; status := dead |};
         {| id := "u5"; name := "Frank"; role := villager; status := dead |} ];
     history :=
       [ game_created "ABCDEF"; player_added "Alice"; player_added "Bob";
         player_added "Carol"; player_added "Dave"; player_added "Erin";
         player_added "Frank" ];
     last_killed := Some "u3";
     potions := {| heal_used := false; poison_used := true |};
     chat_history := [] |}.

(** The world of an exchange bound to the stored session [g], six
    identifiers drawn. *)
Definition world_with (g : Game) : World :=
  {| store := {[ code g := g ]};
     context := {| game_code := Some (code g); game := Some g;
                   executed := []; errors := [] |};
     uuid_calls := 6; random_calls := 0 |}.

(** The seer's phase of a night, the seer and the only wolf dead. *)
Definition night_without_actors : Game :=
  set_players
    [ {| id := "u0"; name := "Alice"; role := seer; status := dead |};
      {| id := "u1"; name := "Bob"; role := witch; status := alive |};
      {| id := "u2"; name := "Carol"; role := wolf; status := dead |};
      {| id := "u3"; name := "Dave"; role := villager; status := alive |};
      {| id := "u4"; name := "Erin"; role := villager; status := alive |};
      {| id := "u5"; name := "Frank"; role := villager; status := alive |} ]
    seer_night.

(** A lobby of six and a first night in which the wolves kill the seer,
    up to the start of the second night. *)
Definition seer_lost : list Step :=
  [ begin_exchange None;
    invoke (cmd_create_game (Some "ABCDEF"));
    invoke (cmd_add_player "Alice"); invoke (cmd_add_player "Bob");
    invoke (cmd_add_player "Carol"); invoke (cmd_add_player "Dave");
    invoke (cmd_add_player "Erin"); invoke (cmd_add_player "Frank");
    invoke (cmd_assign_roles None);
    invoke (cmd_seer_peek "Dave");
    invoke (cmd_wolves_vote "Alice");
    invoke (cmd_witch_action false None);
    invoke cmd_start_next_night ].



(** The world after [force_phase ph] where the session bound to the
    context is stored as [s] under [c]. *)
Definition advanced (ph : Phase) (c : string) (s : Game) (w : World) : World :=
  on_context (set_game (Some (set_phase ph s))) (on_store (alter (set_phase ph) c) w).

(** The world [seer_lost] leads to, and its session: the seer's phase of
    the second night, the seer dead, the wolf alive. *)
Definition seer_lost_world : World := @run demo_environment seer_lost empty_world.

Definition second_seer_night : Game :=
  {| code := "ABCDEF"; phase := night_seer;
     players :=
       [ {| id := "u0"; name := "Alice"; role := seer; status := dead |};
         {| id := "u1"; name := "Bob"; role := witch; status := alive |};
         {| id := "u2"; name := "Carol"; role := wolf; status := alive |};
         {| id := "u3"; name := "Dave"; role := villager; status := alive |};
         {| id := "u4"; name := "Erin"; role := villager; status := alive |};
         {| id := "u5"; name := "Frank"; role := villager; status := alive |} ];
     history :=
       [ game_created "ABCDEF"; player_added "Alice"; player_added "Bob";
         player_added "Carol"; player_added "Dave"; player_added "Erin";
         player_added "Frank" ];
     last_killed := None;
     potions := {| heal_used := false; poison_used := false |};
     chat_history := [] |}.

(** ** Vocabulary of the properties *)

(** A player as found later: same identifier, and still dead if it was. *)
Definition player_evolves (p p' : Player) : Prop :=
  id p' = id p ∧ (status p = dead → status p' = dead).

(** In the lobby nobody is dead. *)
Definition lobby_alive (g : Game) : Prop :=
  phase g = lobby → Forall (λ p, status p = alive) (players g).

(** A session as found later: same code, the same players in the same
    order, each evolved. *)
Definition evolves (g g' : Game) : Prop :=
  code g' = code g ∧ Forall2 player_evolves (players g) (players g') ∧ lobby_alive g'.

(** Past the lobby. *)
Definition in_play (g : Game) : Prop := phase g ≠ lobby.

(** Whatever its outcome, a computation started in a session satisfying
    [P] only lets the session evolve, and ends in one satisfying [P]. *)
Definition keeps (P : Game → Prop) {A} (m : M Game A) : Prop :=
  ∀ g g' r, P g → m g = (g', r) → evolves g g' ∧ P g'.

Definition engine_ok {A} (m : M Game A) : Prop := keeps lobby_alive m.

(** A session is sound, [n] identifiers having been drawn: the lobby rule
    holds, the players' identifiers are distinct, and each was drawn. *)
Definition sound `{Environment} (n : nat) (g : Game) : Prop :=
  lobby_alive g ∧
  NoDup (id <$> players g) ∧
  Forall (λ p, ∃ m, (m < n)%nat ∧ id p = uuid7 m) (players g).

(** The stored session [s] is behind the in-flight session [g]: the same
    players, each at most evolved. *)
Definition behind (s g : Game) : Prop :=
  Forall2 player_evolves (players s) (players g).

(** Every session is stored under its own code, and is sound. *)
Definition store_ok `{Environment} (w : World) : Prop :=
  ∀ c s, store w !! c = Some s → code s = c ∧ sound (uuid_calls w) s.

(** The in-flight session is sound and ahead of the stored one. *)
Definition context_ok `{Environment} (w : World) : Prop :=
  ∀ g, game (context w) = Some g →
       sound (uuid_calls w) g ∧ ∃ s, store w !! code g = Some s ∧ behind s g.

Definition world_ok `{Environment} (w : World) : Prop := store_ok w ∧ context_ok w.

(** From [w] to [w']: no session is lost, and every player of a session of
    [w'] either carries an identifier drawn since [w] or is the evolution
    of a player the session had in [w]. *)
Definition one_way `{Environment} (w w' : World) : Prop :=
  (uuid_calls w ≤ uuid_calls w')%nat ∧
  (∀ c, is_Some (store w !! c) → is_Some (store w' !! c)) ∧
  (∀ c s s', store w !! c = Some s → store w' !! c = Some s' →
     Forall (λ p', (∃ m, (uuid_calls w ≤ m)%nat ∧ id p' = uuid7 m) ∨
                   (∃ p, p ∈ players s ∧ player_evolves p p')) (players s')).

(** A computation on the world: started where [P] holds, it ends where
    [Q] holds if it returns and where [E] holds if it raises, one way
    from where it started. *)
Definition triple `{Environment} {A} (P : World → Prop) (m : M World A)
    (Q : A → World → Prop) (E : World → Prop) : Prop :=
  ∀ w, P w →
       match m w with
       | (w', inr a) => Q a w' ∧ one_way w w'
       | (w', inl _) => E w' ∧ one_way w w'
       end.

(** The computation keeps the world sound, whatever its outcome. *)
Definition steady `{Environment} {A} (m : M World A) : Prop :=
  triple world_ok m (λ _, world_ok) world_ok.

(** A session with nobody in it is stored under [c]. *)
Definition empty_session_at (c : string) (w : World) : Prop :=
  ∃ s, store w !! c = Some s ∧ players s = [].


(** ** Vocabulary of the further properties *)

(** An engine call with its arguments, its result dropped. *)
Inductive Operation :=
  | op_assign_roles (seed : option Z)
  | op_seer_peek (target_player_id : string)
  | op_wolves_vote (target_player_id : string)
  | op_witch_action (heal : bool) (poison_target_id : option string)
  | op_start_next_night.

Definition drop_result {S A} (m : M S A) : M S unit := m ≫= λ _, mret tt.

Definition perform `{Environment} (o : Operation) : M Game unit :=
  match o with
  | op_assign_roles seed => drop_result (game_engine.assign_roles seed)
  | op_seer_peek t => drop_result (game_engine.seer_peek t)
  | op_wolves_vote t => drop_result (game_engine.wolves_vote t)
  | op_witch_action heal poison => drop_result (game_engine.witch_action heal poison)
  | op_start_next_night => game_engine.start_next_night
  end.

(** The session after a series of engine calls, each applied to what the
    one before left, whether it raised or not. *)
Definition perform_all `{Environment} (os : list Operation) (g : Game) : Game :=
  foldl (λ g o, (perform o g).1) g os.

(** Whatever its outcome, the computation relates the session it ends in
    to the one it started in by [R]. *)
Definition respects (R : Game → Game → Prop) {A} (m : M Game A) : Prop :=
  ∀ g g' r, m g = (g', r) → R g g'.

(** A potion once used stays used. *)
Definition potions_kept (g g' : Game) : Prop :=
  (heal_used (potions g) = true → heal_used (potions g') = true) ∧
  (poison_used (potions g) = true → poison_used (potions g') = true).

(** The same code, history and chat, and the same players in the same
    order by identifier and name. *)
Definition same_roster (g g' : Game) : Prop :=
  code g' = code g ∧ history g' = history g ∧ chat_history g' = chat_history g ∧
  id <$> players g' = id <$> players g ∧ name <$> players g' = name <$> players g.

(** Once past the lobby, the session stays past it and every player keeps
    the role dealt. *)
Definition roles_settled (g g' : Game) : Prop :=
  in_play g → in_play g' ∧ role <$> players g' = role <$> players g.

(** A shuffle permutes its argument. *)
Class ShufflePermutes `{Environment} := {
  shuffle_ids_perm : ∀ seed ids, shuffle_ids seed ids ≡ₚ ids;
  shuffle_bag_perm : ∀ seed ids bag, shuffle_bag seed ids bag ≡ₚ bag
}.

(** A lobby of six. *)
Definition lobby_of_six : Game := set_phase lobby seer_night.

(** The events the dispatcher logs outside the game proper: a session
    created, a player registered, a player withdrawn. *)
Definition lobby_event (e : Event) : Prop :=
  match e with
  | game_created _ | player_added _ | player_removed _ => True
  | _ => False
  end.

(** A name as [find_player_by_name] compares it. *)
Definition normal_name (n : string) : string := pystr.lower (pystr.strip n).

(** A name the [Player] validator lets through, as it leaves it. *)
Definition proper_name (n : string) : Prop :=
  n ≠ EmptyString ∧ pystr.strip n = n ∧ (String.length n ≤ 40)%nat.

(** A session in order: only lobby events in its history, proper names
    that differ even up to case, and a valid code in upper case. *)
Definition tidy (g : Game) : Prop :=
  Forall lobby_event (history g) ∧
  Forall proper_name (name <$> players g) ∧
  NoDup (normal_name <$> (name <$> players g)) ∧
  utils.validate_game_code (code g) = true ∧
  pystr.upper (code g) = code g.

(** Every stored session is in order, under its own code. *)
Definition stored_tidy (w : World) : Prop :=
  ∀ c s, store w !! c = Some s → code s = c ∧ tidy s.

(** The in-flight session is in order, and carries the names of the
    session stored under its code. *)
Definition context_tidy (w : World) : Prop :=
  ∀ g, game (context w) = Some g →
       tidy g ∧ ∀ s, store w !! code g = Some s → name <$> players s = name <$> players g.

Definition world_tidy (w : World) : Prop := stored_tidy w ∧ context_tidy w.

(** Between the first event a command logs and the write that ends it:
    the in-flight session is in order, it has code [c], and every session
    stored under another code is in order. *)
Definition mid_command (c : string) (w : World) : Prop :=
  (∀ c' s, store w !! c' = Some s → code s = c' ∧ (c' ≠ c → tidy s)) ∧
  (∃ g, game (context w) = Some g ∧ code g = c ∧ tidy g).

(** A computation on the world, specified: started where [P] holds, it
    ends where [Q] holds if it returns and where [E] holds if it raises. *)
Definition hoare {A} (P : World → Prop) (m : M World A)
    (Q : A → World → Prop) (E : World → Prop) : Prop :=
  ∀ w, P w → match m w with
             | (w', inr a) => Q a w'
             | (w', inl _) => E w'
             end.

(** The computation keeps the world in order, whatever its outcome. *)
Definition neat {A} (m : M World A) : Prop :=
  hoare world_tidy m (λ _, world_tidy) world_tidy.

(** The errors the wrapper of [langchain_agent.py] answers as text. *)
Definition handled (e : Exception) : Prop := ∃ k, e = AgentToolError k.

(** The context is bound to the code of the session it holds. *)
Definition bound_ok (w : World) : Prop :=
  ∀ g, game (context w) = Some g → game_code (context w) = Some (code g).

(** The world between two commands: sound, the context bound. *)
Definition at_rest `{Environment} (w : World) : Prop := world_ok w ∧ bound_ok w.

(** The world within a command that has found its session. *)
Definition in_session `{Environment} (w : World) : Prop :=
  at_rest w ∧ is_Some (game (context w)) ∧ truthy (game_code (context w)) = true.

(** A specification that tells the exceptions apart. *)
Definition hoarex {A} (P : World → Prop) (m : M World A)
    (Q : A → World → Prop) (E : Exception → World → Prop) : Prop :=
  ∀ w, P w → match m w with
             | (w', inr a) => Q a w'
             | (w', inl e) => E e w'
             end.

(** Raising, the computation leaves the world at rest and raises an
    error the wrapper handles. *)
Definition handled_at_rest `{Environment} (e : Exception) (w : World) : Prop :=
  at_rest w ∧ handled e.

(** A step of a command that has found its session: the session stays
    found, and an error is one the wrapper handles. *)
Definition calm `{Environment} {A} (m : M World A) : Prop :=
  hoarex in_session m (λ _, in_session) handled_at_rest.

(** An engine operation that, applied to [g], raises nothing but the
    engine's own error. *)
Definition only_state_errors {A} (m : M Game A) (g : Game) : Prop :=
  ∀ g' e, m g = (g', inl e) → ∃ k, e = GameStateError k.

(** The errors a command lets through the wrapper. *)
Definition escapes (c : Command) (e : Exception) : Prop :=
  match c with
  | cmd_create_game _ => e = ValueError DuplicateCode
  | cmd_add_player _ => e = ValueError NameTooLong
  | _ => False
  end.

(** Whatever its outcome, the command leaves the world at rest, and an
    error it raises is one the wrapper handles or one it lets through. *)
Definition well_behaved `{Environment} {A} (c : Command) (m : M World A) : Prop :=
  hoarex at_rest m (λ _, at_rest) (λ e w, at_rest w ∧ (handled e ∨ escapes c e)).

(** The text a command carries is ASCII: the code given to create or join
    a session, a player's name, a target's name. *)
Definition ascii_text (o : option string) : bool :=
  match o with
  | Some s => pystr.isascii s
  | None => true
  end.

Definition ascii_command (c : Command) : bool :=
  match c with
  | cmd_create_game code0 => ascii_text code0
  | cmd_join_game code0 => pystr.isascii code0
  | cmd_add_player name0 => pystr.isascii name0
  | cmd_remove_player name0 => pystr.isascii name0
  | cmd_seer_peek target_name => pystr.isascii target_name
  | cmd_wolves_vote target_name => pystr.isascii target_name
  | cmd_witch_action _ poison_target => ascii_text poison_target
  | _ => true
  end.

Definition ascii_step (s : Step) : bool :=
  match s with
  | begin_exchange game_code0 => ascii_text game_code0
  | invoke c => ascii_command c
  end.
(** * Properties *)

(** ** Role quotas *)

Lemma dict_set_witch a b c v :
  roles.dict_set witch v [(seer, a); (witch, b); (wolf, c)]
  = [(seer, a); (witch, v); (wolf, c)].
Proof. reflexivity. Qed.

Lemma dict_set_villager a b c v :
  roles.dict_set villager v [(seer, a); (witch, b); (wolf, c)]
  = [(seer, a); (witch, b); (wolf, c); (villager, v)].
Proof. reflexivity. Qed.

(** Above the minimum of five players no branch of [role_distribution]
    raises, and the dictionary it returns is fully determined. *)
Lemma role_distribution_ok (n : Z) :
  (5 ≤ n)%Z →
  roles.role_distribution n =
    inr [(seer, 1%Z);
         (witch, if (6 <=? n)%Z then 1%Z else 0%Z);
         (wolf, roles._wolf_count n);
         (villager,
           (n - (1 + ((if (6 <=? n)%Z then 1 else 0) + (roles._wolf_count n + 0))))%Z)].
Proof.
  intros Hn. unfold roles.role_distribution.
  destruct (Z.ltb_spec n 5) as [|_]; [lia|].
  assert (Hw : (1 ≤ roles._wolf_count n ≤ 3)%Z ∧ (n ≤ 6 → roles._wolf_count n = 1)%Z).
  { unfold roles._wolf_count. destruct (Z.leb_spec n 6), (Z.leb_spec n 9); lia. }
  destruct (Z.leb_spec 6 n); rewrite ?dict_set_witch; cbn [roles.sum_values foldr snd];
    match goal with |- context [Z.ltb ?a 0] => destruct (Z.ltb_spec a 0) end;
    try lia; by rewrite dict_set_villager.
Qed.

(** C5: for 5 ≤ n ≤ 20 the role counts sum to n, with one wolf up to six
    players, two from seven to nine, three from ten on, a witch exactly
    from six players on, one seer, and the rest villagers; below five
    players the call raises the insufficient-players [ValueError]. *)
Theorem role_distribution_quota (n : Z) :
  ((5 ≤ n ≤ 20)%Z →
   ∃ d wolves witches villagers,
     roles.role_distribution n = inr d ∧
     d.*1 = [seer; witch; wolf; villager] ∧
     roles.dict_get seer d = Some 1%Z ∧
     roles.dict_get witch d = Some witches ∧
     roles.dict_get wolf d = Some wolves ∧
     roles.dict_get villager d = Some villagers ∧
     roles.sum_values d = n ∧
     (wolves = 1 ↔ n ≤ 6)%Z ∧ (wolves = 2 ↔ 7 ≤ n ≤ 9)%Z ∧ (wolves = 3 ↔ 10 ≤ n)%Z ∧
     (witches = 1 ↔ 6 ≤ n)%Z ∧ (witches = 0 ↔ n < 6)%Z ∧
     villagers = (n - 1 - witches - wolves)%Z ∧ (0 ≤ villagers)%Z) ∧
  ((n < 5)%Z → roles.role_distribution n = inl (ValueError InsufficientPlayers)).
Proof.
  split.
  - intros [Hlo Hhi]. rewrite role_distribution_ok by done.
    eexists _, _, _, _. split; [reflexivity|].
    do 5 (split; [reflexivity|]).
    cbn [roles.sum_values foldr snd]. unfold roles._wolf_count.
    destruct (Z.leb_spec 6 n), (Z.leb_spec n 6), (Z.leb_spec n 9); lia.
  - intros Hn. unfold roles.role_distribution.
    by destruct (Z.ltb_spec n 5); [|lia].
Qed.

Lemma role_distribution_quota_witness :
  ∃ d, roles.role_distribution 8 = inr d ∧ roles.dict_get wolf d = Some 2%Z
       ∧ roles.sum_values d = 8%Z.
Proof.
  destruct (role_distribution_quota 8) as [H _].
  destruct H as (d & wolves & witches & villagers & Hd & _ & _ & _ & Hw & _ & Hs & _ & H2 & _);
    [lia|].
  exists d. split; [exact Hd|]. split; [|exact Hs].
  rewrite Hw. f_equal. apply H2. lia.
Defined.

(** C9: from five players on the villager count is non-negative, so the
    negative-villagers branch is never taken; [role_distribution] raises
    exactly when the player count is below five, and then with the
    insufficient-players error. *)
Theorem role_distribution_raises_only_below_five (n : Z) :
  ((5 ≤ n)%Z →
   ∃ d villagers,
     roles.role_distribution n = inr d ∧
     roles.dict_get villager d = Some villagers ∧
     villagers = (n - roles.sum_values (removelast d))%Z ∧
     (0 ≤ villagers)%Z) ∧
  (∀ e, roles.role_distribution n = inl e → (n < 5)%Z ∧ e = ValueError InsufficientPlayers) ∧
  ((∃ e, roles.role_distribution n = inl e) ↔ (n < 5)%Z).
Proof.
  assert (Hlow : (n < 5)%Z →
            roles.role_distribution n = inl (ValueError InsufficientPlayers)).
  { intros Hn. unfold roles.role_distribution. by destruct (Z.ltb_spec n 5); [|lia]. }
  split; [|split].
  - intros Hn. rewrite role_distribution_ok by done.
    eexists _, _. split; [reflexivity|]. split; [reflexivity|].
    cbn [removelast roles.sum_values foldr snd]. unfold roles._wolf_count.
    destruct (Z.leb_spec 6 n), (Z.leb_spec n 6), (Z.leb_spec n 9); lia.
  - intros e He. destruct (Z.lt_ge_cases n 5) as [Hn|Hn].
    + rewrite Hlow in He by done. by simplify_eq.
    + by rewrite role_distribution_ok in He by done.
  - split.
    + intros [e He]. destruct (Z.lt_ge_cases n 5) as [Hn|Hn]; [done|].
      by rewrite role_distribution_ok in He by done.
    + intros Hn. eexists. by apply Hlow.
Qed.

Lemma role_distribution_raises_only_below_five_witness :
  ∃ d, roles.role_distribution 5 = inr d ∧ roles.dict_get villager d = Some 3%Z.
Proof.
  destruct (role_distribution_raises_only_below_five 5) as [H _].
  destruct H as (d & villagers & Hd & Hv & Heq & _); [lia|].
  exists d. split; [exact Hd|].
  rewrite Hv. f_equal. rewrite Heq.
  vm_compute in Hd. injection Hd as <-. reflexivity.
Defined.

(** ** Win detection *)

Lemma no_living_wolf_iff (ps : list Player) :
  filter (λ p, role p = wolf) (utils.alive_players ps) = []
  ↔ ∀ p, p ∈ ps → status p = alive → role p ≠ wolf.
Proof.
  unfold utils.alive_players. split.
  - intros Hnil p Hp Halive Hwolf.
    eapply (filter_nil_not_elem_of _ _ p Hnil Hwolf).
    by apply list_elem_of_filter.
  - intros Hno. apply elem_of_nil_inv. intros p.
    rewrite !list_elem_of_filter. intros (Hwolf & Halive & Hp). by eapply Hno.
Qed.

(** C3: [is_game_over] answers village exactly when no living player is a
    wolf; otherwise wolves exactly when the living wolves are at least as
    many as the other living players (a tie included); otherwise not
    over.  It is a function of the session alone and returns no new
    session: nothing is mutated, whatever the phase. *)
Theorem is_game_over_spec (g : Game) :
  let wolves := filter (λ p, role p = wolf) (utils.alive_players (players g)) in
  let others := filter (λ p, role p ≠ wolf) (utils.alive_players (players g)) in
  let no_wolf := ∀ p, p ∈ players g → status p = alive → role p ≠ wolf in
  (game_engine.is_game_over g = (true, Some "village") ↔ no_wolf) ∧
  (game_engine.is_game_over g = (true, Some "wolves")
   ↔ ¬ no_wolf ∧ length others ≤ length wolves) ∧
  (game_engine.is_game_over g = (false, None)
   ↔ ¬ no_wolf ∧ length wolves < length others).
Proof.
  intros wolves others no_wolf.
  pose proof (no_living_wolf_iff (players g)) as Hnil.
  fold wolves in Hnil. fold no_wolf in Hnil.
  unfold game_engine.is_game_over. fold wolves others.
  rewrite <- Hnil.
  destruct (decide (wolves = [])) as [Hw|Hw];
    [|destruct (decide (length others ≤ length wolves))];
    intuition (try congruence; try lia).
Qed.

(** ** The witch's turn *)

(** Unfolding of the engine monad, for symbolic execution. *)
Ltac unfold_engine :=
  unfold game_engine.witch_action, game_engine.witch_heal_step,
    game_engine.witch_poison_step, game_engine.kill_if_set,
    game_engine.seer_peek, game_engine.wolves_vote,
    game_engine.start_next_night, game_engine._get_player,
    game_engine._ensure_alive, game_engine.mark_dead;
  unfold mbind, M_bind, mret, M_ret, get, modify, raise.

(** A hypothesis on a boolean test and one on its negation. *)
Ltac bool_clash :=
  repeat match goal with
  | H : ?b = _, H' : negb ?b = _ |- _ => rewrite H in H'; cbn in H'
  end.

Ltac split_cases :=
  repeat (case_match; simplify_eq/=; bool_clash; try done; try congruence).

Ltac run_engine := unfold_engine; split_cases.

(** Marking a player dead or alive does not change who an identifier
    refers to. *)
Lemma lookup_player_alter (k : string) (s : Status) (i : nat) (ps : list Player) :
  lookup_player k (alter (set_status s) i ps)
  = prod_map (λ j, j) (λ p, if decide (lookup_player k ps = Some (i, p)) then set_status s p else p)
      <$> lookup_player k ps.
Proof.
  unfold lookup_player. revert i. induction ps as [|q ps IH]; intros i; [done|].
  destruct i as [|i]; cbn.
  - destruct (decide (id q = k)) as [Hq|Hq].
    + cbn. by rewrite decide_True.
    + destruct (list_find _ ps) as [[j p]|]; cbn; [|done].
      by rewrite decide_False by congruence.
  - destruct (decide (id q = k)) as [Hq|Hq].
    + cbn. by rewrite decide_False by congruence.
    + rewrite IH. destruct (list_find _ ps) as [[j p]|]; cbn; [|done].
      do 2 f_equal. repeat case_decide; naive_solver.
Qed.

Lemma is_game_over_spec_witness :
  game_engine.is_game_over seer_night = (false, None).
Proof.
  apply (is_game_over_spec seer_night). split.
  - intros Hno. by apply (Hno {| id := "u2"; name := "Carol"; role := wolf; status := alive |});
      [apply list_elem_of_lookup; exists 2%nat|..].
  - vm_compute. lia.
Defined.
Lemma truthy_Some k : truthy (Some k) = true ↔ k ≠ EmptyString.
Proof.
  cbn. destruct (String.eqb_spec k EmptyString); naive_solver.
Qed.

Lemma mark_dead_twice (i : nat) (ps : list Player) :
  alter (set_status dead) i (alter (set_status dead) i ps) = alter (set_status dead) i ps.
Proof. rewrite list_alter_alter_eq. by apply list_alter_ext. Qed.

Lemma lookup_player_Some (k : string) (ps : list Player) (i : nat) (p : Player) :
  lookup_player k ps = Some (i, p) → ps !! i = Some p ∧ id p = k.
Proof. intros (? & ? & _)%list_find_Some. done. Qed.

(** Marking the player an identifier refers to leaves every player with
    another identifier as it was. *)
Lemma mark_dead_other (k : string) (ps : list Player) (i j : nat) (v q : Player) :
  lookup_player k ps = Some (i, v) → ps !! j = Some q → id q ≠ k →
  alter (set_status dead) i ps !! j = Some q.
Proof.
  intros [Hi Hk]%lookup_player_Some Hj Hq.
  destruct (decide (i = j)) as [->|Hne]; [congruence|].
  by rewrite list_lookup_alter_ne.
Qed.

Lemma truthy_Some_false k : truthy (Some k) = false ↔ k = EmptyString.
Proof.
  cbn. destruct (String.eqb_spec k EmptyString); naive_solver.
Qed.

(** Tests on the emptiness of an identifier, as (in)equations. *)
Ltac settle_truthy :=
  repeat match goal with
  | H : negb (String.eqb ?k EmptyString) = true |- _ =>
      apply (proj1 (truthy_Some k)) in H
  | H : negb (String.eqb ?k EmptyString) = false |- _ =>
      apply (proj1 (truthy_Some_false k)) in H
  end.

(** Lookups by position in a list where some players were marked. *)
Ltac solve_marked :=
  repeat match goal with
  | H : lookup_player _ _ = Some (_, _) |- _ =>
      apply lookup_player_Some in H as [? ?]
  end;
  rewrite ?list_lookup_alter; repeat case_decide; simplify_eq/=;
  repeat match goal with
  | H : ?l !! ?i = Some _ |- context [?l !! ?i] => rewrite H
  end;
  try done.

(** After the case analysis: relate every lookup in a marked list to the
    lookup in the original list. *)
Ltac settle_lookups :=
  repeat match goal with
  | H : lookup_player _ (alter (set_status _) _ _) = _ |- _ =>
      rewrite lookup_player_alter in H
  | H : lookup_player ?k ?ps = Some _, H' : context [lookup_player ?k ?ps] |- _ =>
      rewrite H in H'
  | H : lookup_player ?k ?ps = None, H' : context [lookup_player ?k ?ps] |- _ =>
      rewrite H in H'
  end;
  simplify_eq/=.

(** C10: with a pending victim and both potions unused, healing and
    poisoning the pending victim in one call never raises the
    duplicate-target error, the heal having cleared the pending kill the
    check compares against; when that victim is a living player of the
    session the call succeeds, uses both potions, and the player just
    healed ends the night dead, killed by the poison. *)
Theorem heal_then_poison_same_target (g : Game) (v : string) :
  phase g = night_witch →
  last_killed g = Some v → v ≠ EmptyString →
  heal_used (potions g) = false → poison_used (potions g) = false →
  (game_engine.witch_action true (Some v) g).2 ≠ inl (GameStateError DuplicateTarget) ∧
  (∀ i p, lookup_player v (players g) = Some (i, p) → status p = alive →
     ∃ g', game_engine.witch_action true (Some v) g = (g', inr (Some v)) ∧
           phase g' = day ∧ last_killed g' = None ∧
           potions g' = {| heal_used := true; poison_used := true |} ∧
           players g' = alter (set_status dead) i (players g) ∧
           players g' !! i = Some (set_status dead p)).
Proof.
  intros Hph Hlk Hv Hheal Hpoison.
  apply truthy_Some in Hv as Hv'. cbn in Hv'.
  split.
  - run_engine.
  - intros i p Hfind Halive.
    assert (Hi : players g !! i = Some p).
    { by apply list_find_Some in Hfind as [? _]. }
    run_engine; settle_lookups.
    + rewrite Hlk in *. cbn in *. by rewrite Hv' in *.
    + eexists. split; [reflexivity|]. cbn. rewrite mark_dead_twice.
      repeat split; try done. by rewrite list_lookup_alter_eq, Hi.
Qed.

(** C6: healing with the potion already used raises the used-potion
    error, and otherwise with no pending victim raises the no-victim
    error, the session untouched in both cases; otherwise the pending kill
    is cleared and the heal potion marked used, whatever the rest of the
    call does, and the wolf attack kills nobody: every player other than
    the poison target is exactly as before.  Without a poison target the
    call succeeds, nobody dies and no kill is returned. *)
Theorem witch_heal_spec (g : Game) (poison : option string) :
  phase g = night_witch →
  (heal_used (potions g) = true →
   game_engine.witch_action true poison g
   = (g, inl (GameStateError (PotionAlreadyUsed heal_potion)))) ∧
  (heal_used (potions g) = false → truthy (last_killed g) = false →
   game_engine.witch_action true poison g = (g, inl (GameStateError NoPendingVictim))) ∧
  (heal_used (potions g) = false → truthy (last_killed g) = true →
   (∀ g' r, game_engine.witch_action true poison g = (g', r) →
      last_killed g' = None ∧ heal_used (potions g') = true ∧
      (∀ i p, players g !! i = Some p → Some (id p) ≠ poison →
              players g' !! i = Some p) ∧
      (∀ k, r = inr k → k = if truthy poison then poison else None)) ∧
   game_engine.witch_action true None g
   = (set_phase day (set_heal_used true (set_last_killed None g)), inr None)).
Proof.
  intros Hph. split; [|split].
  - intros Hused. run_engine.
  - intros Hused Hnone. run_engine.
  - intros Hused Hsome. split.
    + intros g' r. run_engine;
        intros; simplify_eq/=; settle_lookups;
        repeat split; try done; try congruence.
      intros j q Hj Hq. rewrite mark_dead_twice. destruct p as [t target].
      eapply mark_dead_other; [done..|congruence].
    + run_engine.
Qed.

(** ** The seer's turn *)

(** C7: in the seer's phase, peeking at an identifier that refers to a
    living player returns that player's role and moves the phase to the
    wolves' turn; the players (roles and statuses), the pending kill, the
    potion flags and every other field are as before. *)
Theorem seer_peek_frame (g : Game) (target_player_id : string) (i : nat) (p : Player) :
  phase g = night_seer →
  lookup_player target_player_id (players g) = Some (i, p) →
  status p = alive →
  game_engine.seer_peek target_player_id g = (set_phase night_wolves g, inr (role p)) ∧
  phase (set_phase night_wolves g) = night_wolves ∧
  players (set_phase night_wolves g) = players g ∧
  last_killed (set_phase night_wolves g) = last_killed g ∧
  potions (set_phase night_wolves g) = potions g ∧
  code (set_phase night_wolves g) = code g ∧
  history (set_phase night_wolves g) = history g ∧
  chat_history (set_phase night_wolves g) = chat_history g.
Proof.
  intros Hph Hfind Halive. split; [|done]. run_engine.
Qed.

(** ** The end of the night *)

(** A computation that returned went through both halves of a bind. *)
Lemma bind_returns {S A B} (m : M S A) (k : A → M S B) (s s' : S) (b : B) :
  (m ≫= k) s = (s', inr b) → ∃ a s1, m s = (s1, inr a) ∧ k a s1 = (s', inr b).
Proof.
  unfold mbind, M_bind. destruct (m s) as [s1 [e|a]]; [done|]. eauto.
Qed.

Lemma kill_if_set_returns (o : option string) (g g' : Game) (u : unit) :
  game_engine.kill_if_set o g = (g', inr u) →
  g' = set_players (kill o (players g)) g ∧
  (∀ k, o = Some k → k ≠ EmptyString → is_Some (lookup_player k (players g))).
Proof.
  unfold kill. run_engine; intros; simplify_eq/=; settle_truthy.
  - split; [done|]. intros; simplify_eq. eauto.
  - split; [by destruct g'|]. intros; simplify_eq.
  - split; [by destruct g'|]. intros; simplify_eq.
Qed.

Lemma kill_falsy (o : option string) (ps : list Player) :
  truthy o = false → kill o ps = ps.
Proof. unfold kill. intros ->. by destruct o. Qed.


Lemma kill_twice (o : option string) (ps : list Player) :
  kill o (kill o ps) = kill o ps.
Proof.
  unfold kill. destruct o as [k|]; [|done]. destruct (truthy (Some k)); [|done].
  destruct (lookup_player k ps) as [[i v]|] eqn:Hfind.
  - rewrite lookup_player_alter, Hfind. cbn. apply mark_dead_twice.
  - by rewrite Hfind.
Qed.

Lemma heal_branch_returns (heal : bool) (killed_id a : option string) (g g1 : Game) :
  (if heal then game_engine.witch_heal_step killed_id else mret killed_id) g = (g1, inr a) →
  (heal = false ∧ g1 = g ∧ a = killed_id) ∨
  (heal = true ∧ heal_used (potions g) = false ∧ truthy (last_killed g) = true ∧
   g1 = set_heal_used true (set_last_killed None g) ∧ a = None).
Proof.
  destruct heal; [|intros [= <- <-]; by left].
  run_engine. intros [= <- <-]. right. by destruct (truthy (last_killed g)).
Qed.

Lemma poison_branch_returns (poison killed_id a : option string) (g g1 : Game) :
  match poison with
  | Some t =>
      if truthy poison then game_engine.witch_poison_step t killed_id else mret killed_id
  | None => mret killed_id
  end g = (g1, inr a) →
  (truthy poison = false ∧ g1 = g ∧ a = killed_id) ∨
  (truthy poison = true ∧ poison_used (potions g) = false ∧ poison ≠ killed_id ∧
   (∃ t i p, poison = Some t ∧ lookup_player t (players g) = Some (i, p) ∧ status p = alive) ∧
   g1 = set_poison_used true (set_players (kill poison (players g)) g) ∧ a = poison).
Proof.
  destruct poison as [t|]; [|intros [= <- <-]; by left].
  destruct (truthy (Some t)) eqn:Ht; [|intros [= <- <-]; by left].
  unfold kill. rewrite Ht. run_engine. intros [= <- <-]. right.
  repeat split; try done.
  eexists t, _, _. repeat split; try done. by destruct (status p0).
Qed.

(** What a call of [witch_action] that returns has done. *)
Lemma witch_action_returns (g g' : Game) (heal : bool) (poison r : option string) :
  phase g = night_witch →
  game_engine.witch_action heal poison g = (g', inr r) →
  let pending := if heal then None else last_killed g in
  r = (if truthy poison then poison else pending) ∧
  phase g' = day ∧ last_killed g' = None ∧
  players g' = kill pending (kill poison (players g)) ∧
  potions g' = {| heal_used := heal || heal_used (potions g);
                  poison_used := truthy poison || poison_used (potions g) |} ∧
  code g' = code g ∧ history g' = history g ∧ chat_history g' = chat_history g.
Proof.
  intros Hph Hrun pending. unfold game_engine.witch_action in Hrun.
  apply bind_returns in Hrun as (g0 & ? & [= <- <-] & Hrun).
  rewrite decide_False in Hrun by (by rewrite Hph; intros []).
  apply bind_returns in Hrun as (kid1 & g1 & Hheal & Hrun).
  apply bind_returns in Hrun as (kid2 & g2 & Hpoison & Hrun).
  apply bind_returns in Hrun as ([] & g3 & Hkill1 & Hrun).
  apply bind_returns in Hrun as (? & ? & [= <- <-] & Hrun).
  apply bind_returns in Hrun as ([] & g4 & Hkill2 & Hrun).
  cbv in Hrun. injection Hrun as <- <-.
  apply kill_if_set_returns in Hkill1 as [-> _].
  apply kill_if_set_returns in Hkill2 as [-> _].
  assert (Hg1 : last_killed g1 = pending ∧ kid1 = pending ∧ players g1 = players g ∧
                heal_used (potions g1) = heal || heal_used (potions g) ∧
                poison_used (potions g1) = poison_used (potions g) ∧
                code g1 = code g ∧ history g1 = history g ∧
                chat_history g1 = chat_history g).
  { subst pending.
    apply heal_branch_returns in Hheal as [(-> & -> & ->)|(-> & Hu & _ & -> & ->)];
      by rewrite ?Hu. }
  destruct Hg1 as (Hlk & -> & Hps & Hh & Hp & Hc & Hhi & Hch).
  apply poison_branch_returns in Hpoison
    as [(Hf & -> & ->)|(Ht & Hu & _ & _ & -> & ->)]; cbn.
  - rewrite Hf, Hlk, Hps, kill_twice, (kill_falsy poison) by done.
    repeat split; try done. destruct (potions g1); cbn in *; by subst.
  - rewrite Ht, Hlk, Hps, kill_twice.
    repeat split; try done. destruct (potions g1); cbn in *; by subst.
Qed.




(** A pass, evaluated: with a pending kill that refers to a player, and
    with none. *)
Lemma witch_pass_kills (g : Game) (k : string) (i : nat) (v : Player) :
  phase g = night_witch → last_killed g = Some k → k ≠ EmptyString →
  lookup_player k (players g) = Some (i, v) →
  game_engine.witch_action false None g
  = (set_phase day (set_last_killed None
       (set_players (alter (set_status dead) i (players g)) g)), inr (Some k)).
Proof.
  intros Hph Hlk Hk%truthy_Some Hfind. cbn in Hk.
  run_engine; settle_lookups. by rewrite mark_dead_twice.
Qed.






Lemma witch_heal_spec_witness :
  game_engine.witch_action true None witch_night
  = (set_phase day (set_heal_used true (set_last_killed None witch_night)), inr None).
Proof.
  destruct (witch_heal_spec witch_night None eq_refl) as (_ & _ & Hheal).
  by destruct (Hheal eq_refl eq_refl) as [_ ->].
Defined.

Lemma heal_then_poison_same_target_witness :
  ∃ g', game_engine.witch_action true (Some "u3") witch_night = (g', inr (Some "u3")) ∧
        potions g' = {| heal_used := true; poison_used := true |} ∧
        players g' !! 3%nat
        = Some {| id := "u3"; name := "Dave"; role := villager; status := dead |}.
Proof.
  destruct (heal_then_poison_same_target witch_night "u3" eq_refl eq_refl)
    as [_ Hkill]; [done..|].
  destruct (Hkill 3%nat _ eq_refl eq_refl) as (g' & Hrun & _ & _ & Hpotions & _ & Hdead).
  by exists g'.
Defined.

Lemma seer_peek_frame_witness :
  game_engine.seer_peek "u3" seer_night = (set_phase night_wolves seer_night, inr villager).
Proof.
  by destruct (seer_peek_frame seer_night "u3" 3%nat _ eq_refl eq_refl eq_refl) as [-> _].
Defined.

(** ** A failing call that leaves its mark *)

(** Without a heal, a call that raises one of the witch's errors at its
    checks has not touched the session. *)
Lemma witch_action_checks_fail_clean (g g' : Game) (poison : option string)
    (e : GameStateErrorKind) :
  phase g = night_witch →
  game_engine.witch_action false poison g = (g', inl (GameStateError e)) →
  e ≠ NotFound → g' = g.
Proof.
  intros Hph. run_engine; intros; simplify_eq/=; done.
Qed.

(** C1, at a session the dispatcher reaches: on the second night, with the
    poison already spent, a call that heals and poisons raises the
    used-potion error for the poison, yet the session it was applied to
    has lost its pending kill and has its heal potion marked used.  The
    store is untouched by the failing command, but the next command of
    the same exchange persists the mutated session: the night ends with
    the heal spent and the wolves' victim alive. *)
Theorem witch_action_failure_keeps_heal :
  let w := @run demo_environment two_nights empty_world in
  let failed := @langchain_agent._wrap_tool demo_environment
                  (cmd_witch_action true (Some "Alice")) w in
  let w' := @exec demo_environment (invoke cmd_advance_to_day) failed.1 in
  game (context w) = Some second_witch_night ∧
  store w !! "ABCDEF" = Some second_witch_night ∧
  game_engine.witch_action true (Some "u0") second_witch_night
  = (set_heal_used true (set_last_killed None second_witch_night),
     inl (GameStateError (PotionAlreadyUsed poison_potion))) ∧
  errors (context failed.1) = [engine_error (PotionAlreadyUsed poison_potion)] ∧
  game (context failed.1)
  = Some (set_heal_used true (set_last_killed None second_witch_night)) ∧
  store failed.1 = store w ∧
  store w' !! "ABCDEF"
  = Some (set_phase day (set_heal_used true (set_last_killed None second_witch_night))).
Proof.
  vm_compute. repeat split; reflexivity.
Qed.

(** ** What an engine operation may do to a session *)

Lemma player_evolves_refl (p : Player) : player_evolves p p.
Proof. done. Qed.

Lemma player_evolves_trans (p q r : Player) :
  player_evolves p q → player_evolves q r → player_evolves p r.
Proof. intros [? ?] [? ?]. split; [congruence|auto]. Qed.

Lemma players_evolve_refl (ps : list Player) : Forall2 player_evolves ps ps.
Proof. apply Forall2_same_length_lookup. split; [done|]. intros; simplify_eq. done. Qed.

Lemma players_evolve_trans (ps qs rs : list Player) :
  Forall2 player_evolves ps qs → Forall2 player_evolves qs rs →
  Forall2 player_evolves ps rs.
Proof.
  apply Forall2_trans, player_evolves_trans.
Qed.

Lemma evolves_refl (g : Game) : lobby_alive g → evolves g g.
Proof. intros ?. repeat split; [apply players_evolve_refl|done]. Qed.

Lemma evolves_trans (g1 g2 g3 : Game) : evolves g1 g2 → evolves g2 g3 → evolves g1 g3.
Proof.
  intros (? & ? & ?) (? & ? & ?). repeat split; [congruence| |done].
  by eapply players_evolve_trans.
Qed.

Lemma in_play_lobby_alive (g : Game) : in_play g → lobby_alive g.
Proof. by intros ? ?. Qed.

(** The rules of [keeps], for a predicate under which the lobby rule
    holds. *)
Section keeps.
Context (P : Game → Prop) (HP : ∀ g, P g → lobby_alive g).

Lemma keeps_ret {A} (a : A) : keeps P (mret a).
Proof. intros g g' r Hg. cbv. intros [= <- <-]. split; [apply evolves_refl|]; auto. Qed.

Lemma keeps_raise {A} (e : Exception) : keeps P (raise e : M Game A).
Proof. intros g g' r Hg. cbv. intros [= <- <-]. split; [apply evolves_refl|]; auto. Qed.

Lemma keeps_get : keeps P get.
Proof. intros g g' r Hg. cbv. intros [= <- <-]. split; [apply evolves_refl|]; auto. Qed.

Lemma keeps_bind {A B} (m : M Game A) (k : A → M Game B) :
  keeps P m → (∀ a, keeps P (k a)) → keeps P (m ≫= k).
Proof.
  intros Hm Hk g g' r Hg. unfold mbind, M_bind.
  destruct (m g) as [g1 [e|a]] eqn:Hrun.
  - intros [= <- <-]. by eapply Hm.
  - intros Hrun'. destruct (Hm _ _ _ Hg Hrun) as [Hev Hg1].
    destruct (Hk a _ _ _ Hg1 Hrun') as [Hev' Hg'].
    split; [by eapply evolves_trans|done].
Qed.

Lemma keeps_modify (f : Game → Game) :
  (∀ g, P g → evolves g (f g) ∧ P (f g)) → keeps P (modify f).
Proof. intros Hf g g' r Hg. unfold modify. intros [= <- <-]. by apply Hf. Qed.

End keeps.

Lemma set_phase_evolves (ph : Phase) (g : Game) :
  ph ≠ lobby → evolves g (set_phase ph g).
Proof. intros Hph. repeat split; [apply players_evolve_refl|by intros ?]. Qed.

Lemma set_last_killed_evolves (k : option string) (g : Game) :
  lobby_alive g → evolves g (set_last_killed k g).
Proof. intros Hg. repeat split; [apply players_evolve_refl|done]. Qed.

Lemma set_potions_evolves (po : PotionState) (g : Game) :
  lobby_alive g → evolves g (set_potions po g).
Proof. intros Hg. repeat split; [apply players_evolve_refl|done]. Qed.

Lemma mark_dead_evolves (i : nat) (g : Game) :
  in_play g → evolves g (set_players (alter (set_status dead) i (players g)) g).
Proof.
  intros Hph. repeat split; [|by intros ?]. cbn.
  apply Forall2_same_length_lookup. split; [by rewrite length_alter|].
  intros j p p' Hp. rewrite list_lookup_alter. case_decide; simplify_eq/=.
  - rewrite Hp. intros [= <-]. done.
  - rewrite Hp. intros [= <-]. done.
Qed.

(** Decomposition of an engine computation along its binds and tests. *)
Ltac keeps_step HP :=
  first
    [ apply keeps_bind; [|intros ?]
    | apply (keeps_ret _ HP)
    | apply (keeps_raise _ HP)
    | apply (keeps_get _ HP)
    | apply keeps_modify; intros ? ?
    | case_match
    | case_decide ].

(** The field assignments the engine makes. *)
Ltac solve_assignment :=
  split;
  [ first [ by apply mark_dead_evolves
          | by apply set_phase_evolves
          | apply set_last_killed_evolves
          | apply set_potions_evolves ];
    auto using in_play_lobby_alive
  | first [ assumption | by unfold in_play | by intros ? ] ].

Lemma witch_body_keeps (heal : bool) (poison : option string) (killed_id : option string) :
  keeps in_play
    (killed_id ← (if heal then game_engine.witch_heal_step killed_id else mret killed_id);
     killed_id ← (match poison with
                  | Some t =>
                      if truthy poison then game_engine.witch_poison_step t killed_id
                      else mret killed_id
                  | None => mret killed_id
                  end);
     game_engine.kill_if_set killed_id;;
     g ← get;
     game_engine.kill_if_set (last_killed g);;
     modify (set_last_killed None);;
     modify (set_phase day);;
     mret killed_id).
Proof.
  unfold game_engine.witch_heal_step, game_engine.witch_poison_step,
    game_engine.kill_if_set, game_engine._get_player, game_engine._ensure_alive,
    game_engine.mark_dead.
  repeat keeps_step in_play_lobby_alive; solve_assignment.
Qed.

(** An operation guarded by a phase test: outside the phase it raises,
    inside it the session is in play. *)
Lemma guarded_ok {A} (ph : Phase) (e : Exception) (body : Game → M Game A) :
  ph ≠ lobby → (∀ g, keeps in_play (body g)) →
  engine_ok (g ← get; if decide (phase g ≠ ph) then raise e else body g).
Proof.
  intros Hph Hbody g g' r Hg. unfold mbind, M_bind, get.
  case_decide as Hphase.
  - cbv. intros [= <- <-]. split; [by apply evolves_refl|done].
  - intros Hrun.
    destruct (Hbody g g g' r) as [Hev _]; [unfold in_play; congruence|done|].
    split; [done|apply Hev].
Qed.

Lemma witch_action_ok (heal : bool) (poison : option string) :
  engine_ok (game_engine.witch_action heal poison).
Proof.
  apply guarded_ok; [done|]. intros g. apply witch_body_keeps.
Qed.

Lemma seer_peek_ok (target_player_id : string) :
  engine_ok (game_engine.seer_peek target_player_id).
Proof.
  apply guarded_ok; [done|]. intros g.
  unfold game_engine._get_player, game_engine._ensure_alive.
  repeat keeps_step in_play_lobby_alive; solve_assignment.
Qed.

Lemma wolves_vote_ok (target_player_id : string) :
  engine_ok (game_engine.wolves_vote target_player_id).
Proof.
  apply guarded_ok; [done|]. intros g.
  unfold game_engine._get_player, game_engine._ensure_alive.
  repeat keeps_step in_play_lobby_alive; solve_assignment.
Qed.

Lemma start_next_night_ok : engine_ok game_engine.start_next_night.
Proof.
  apply guarded_ok; [done|]. intros g.
  repeat keeps_step in_play_lobby_alive; solve_assignment.
Qed.

Lemma set_phase_ok (ph : Phase) : ph ≠ lobby → engine_ok (modify (set_phase ph)).
Proof.
  intros Hph. apply keeps_modify. intros g Hg.
  split; [by apply set_phase_evolves|by intros ?].
Qed.

Lemma assign_each_alive (assignments : gmap string Role) (ps : list Player) :
  Forall (λ p, status p = alive) ps →
  Forall2 player_evolves ps (game_engine.assign_each assignments ps).1 ∧
  Forall (λ p, status p = alive) (game_engine.assign_each assignments ps).1.
Proof.
  induction 1 as [|p ps Hp Hps [IH1 IH2]]; cbn; [by split|].
  destruct (assignments !! id p) as [r|]; cbn.
  - destruct (game_engine.assign_each assignments ps) as [ps' e]. cbn in *.
    split; constructor; try done. split; [done|]. congruence.
  - split; [apply players_evolve_refl|by constructor].
Qed.

Lemma assign_roles_ok `{Environment} (seed : option Z) :
  engine_ok (game_engine.assign_roles seed).
Proof.
  intros g g' r Hg. unfold game_engine.assign_roles, mbind, M_bind, get.
  case_decide as Hphase.
  { cbv. intros [= <- <-]. split; [by apply evolves_refl|done]. }
  destruct (roles.assign_roles _ seed) as [e|assignments].
  { cbv. intros [= <- <-]. split; [by apply evolves_refl|done]. }
  destruct (assign_each_alive assignments (players g) (Hg Hphase)) as [Hev Halive].
  destruct (game_engine.assign_each assignments (players g)) as [ps e]. cbn in *.
  assert (Hg1 : evolves g (set_players ps g)).
  { split; [done|]. split; [done|]. by intros ?. }
  destruct e as [e|]; cbv; intros [= <- <-].
  - split; [done|apply Hg1].
  - assert (Hnight : evolves g {| code := code g; phase := night_seer; players := ps;
              history := history g; last_killed := last_killed g;
              potions := potions g; chat_history := chat_history g |}).
    { split; [done|]. split; [done|]. by intros ?. }
    split; [done|apply Hnight].
Qed.

(** ** What a command may do to the world *)

Section world.
Context `{Environment} `{!EnvironmentOk}.

Lemma one_way_refl (w : World) : one_way w w.
Proof.
  split; [done|]. split; [done|]. intros c s s' Hs Hs'. simplify_eq.
  apply Forall_forall. intros p Hp. right. by exists p.
Qed.

Lemma one_way_same (w w' : World) :
  store w' = store w → uuid_calls w' = uuid_calls w → one_way w w'.
Proof.
  intros Hstore Hcalls. unfold one_way. rewrite Hstore, Hcalls.
  apply one_way_refl.
Qed.

Lemma one_way_trans (w1 w2 w3 : World) : one_way w1 w2 → one_way w2 w3 → one_way w1 w3.
Proof.
  intros (Hn1 & Hkeep1 & Hp1) (Hn2 & Hkeep2 & Hp2).
  split; [lia|]. split; [auto|].
  intros c s1 s3 Hs1 Hs3.
  destruct (Hkeep1 c) as [s2 Hs2]; [by eexists|].
  specialize (Hp1 c s1 s2 Hs1 Hs2). specialize (Hp2 c s2 s3 Hs2 Hs3).
  rewrite Forall_forall in Hp1, Hp2. apply Forall_forall. intros p3 Hin3.
  destruct (Hp2 p3 Hin3) as [(m & Hm & Hid)|(p2 & Hin2 & Hev2)].
  - left. exists m. split; [lia|done].
  - destruct (Hp1 p2 Hin2) as [(m & Hm & Hid)|(p1 & Hin1 & Hev1)].
    + left. exists m. split; [done|]. destruct Hev2. congruence.
    + right. exists p1. split; [done|]. by eapply player_evolves_trans.
Qed.

Lemma triple_ret {A} (a : A) (Q : A → World → Prop) (E : World → Prop) :
  triple (Q a) (mret a) Q E.
Proof. intros w Hw. cbv [mret M_ret]. split; [done|apply one_way_refl]. Qed.

Lemma triple_raise {A} (e : Exception) (Q : A → World → Prop) (E : World → Prop) :
  triple E (raise e) Q E.
Proof. intros w Hw. cbv [raise]. split; [done|apply one_way_refl]. Qed.

Lemma triple_get (Q : World → World → Prop) (E : World → Prop) :
  triple (λ w, Q w w) get Q E.
Proof. intros w Hw. cbv [get]. split; [done|apply one_way_refl]. Qed.

Lemma triple_modify (f : World → World) (P : World → Prop)
    (Q : unit → World → Prop) (E : World → Prop) :
  (∀ w, P w → Q tt (f w) ∧ one_way w (f w)) → triple P (modify f) Q E.
Proof. intros Hf w Hw. cbv [modify]. by apply Hf. Qed.

Lemma triple_bind {A B} (m : M World A) (k : A → M World B)
    (P : World → Prop) (Q : A → World → Prop) (R : B → World → Prop)
    (E : World → Prop) :
  triple P m Q E → (∀ a, triple (Q a) (k a) R E) → triple P (m ≫= k) R E.
Proof.
  intros Hm Hk w Hw. unfold mbind, M_bind.
  specialize (Hm w Hw). destruct (m w) as [w1 [e|a]]; [done|].
  destruct Hm as [HQ Hone]. specialize (Hk a w1 HQ).
  destruct (k a w1) as [w2 [e|b]]; destruct Hk as [? Hone'];
    (split; [done|by eapply one_way_trans]).
Qed.

Lemma triple_weaken {A} (m : M World A)
    (P P' : World → Prop) (Q Q' : A → World → Prop) (E E' : World → Prop) :
  (∀ w, P' w → P w) → (∀ a w, Q a w → Q' a w) → (∀ w, E w → E' w) →
  triple P m Q E → triple P' m Q' E'.
Proof.
  intros HP HQ HE Hm w Hw. specialize (Hm w (HP w Hw)).
  destruct (m w) as [w' [e|a]]; destruct Hm; split; auto.
Qed.

Lemma steady_bind {A B} (m : M World A) (k : A → M World B) :
  steady m → (∀ a, steady (k a)) → steady (m ≫= k).
Proof. apply triple_bind. Qed.

Lemma steady_ret {A} (a : A) : steady (mret a).
Proof. apply (triple_ret a (λ _, world_ok)). Qed.

Lemma steady_raise {A} (e : Exception) : steady (raise e : M World A).
Proof. apply triple_raise. Qed.

Lemma steady_get : steady get.
Proof. apply (triple_get (λ _, world_ok)). Qed.

(** *** The store *)

Lemma sound_mono (n n' : nat) (g : Game) : (n ≤ n')%nat → sound n g → sound n' g.
Proof.
  intros Hn (? & ? & Hids). repeat split; try done.
  eapply Forall_impl; [done|]. intros p (m & ? & ?). exists m. split; [lia|done].
Qed.

Lemma alter_store_ok (c : string) (f : Game → Game) (w : World) :
  store_ok w →
  (∀ s, store w !! c = Some s → code (f s) = code s ∧ sound (uuid_calls w) (f s)) →
  store_ok (on_store (alter f c) w).
Proof.
  intros Hw Hf c' s'. cbn. rewrite lookup_alter. case_decide as Hc; [subst c'|].
  - destruct (store w !! c) as [s|] eqn:Hs; [|done]. intros [= <-].
    destruct (Hw c s Hs) as [Hcode _]. destruct (Hf s eq_refl) as [Hcode' Hsound].
    split; [congruence|done].
  - apply Hw.
Qed.

Lemma alter_one_way (c : string) (f : Game → Game) (w : World) :
  (∀ s, store w !! c = Some s →
        Forall (λ p', ∃ p, p ∈ players s ∧ player_evolves p p') (players (f s))) →
  one_way w (on_store (alter f c) w).
Proof.
  intros Hf. split; [done|]. split.
  - intros c' [s Hs]. cbn. rewrite lookup_alter. case_decide; [subst c'|by eexists].
    rewrite Hs. by eexists.
  - intros c' s s' Hs. cbn. rewrite lookup_alter. case_decide as Hc; [subst c'|].
    + rewrite Hs. intros [= <-]. eapply Forall_impl; [by apply Hf|]. intros p' ?. by right.
    + rewrite Hs. intros [= <-]. apply Forall_forall. intros p ?. right. by exists p.
Qed.

Lemma alter_context_ok (c : string) (f : Game → Game) (w : World) :
  context_ok w → (∀ s, players (f s) = players s) →
  context_ok (on_store (alter f c) w).
Proof.
  intros Hw Hf g Hg. destruct (Hw g Hg) as [Hsound (s & Hs & Hbehind)].
  split; [done|]. cbn. rewrite lookup_alter. case_decide as Hc.
  - subst c. rewrite Hs. eexists. split; [done|]. unfold behind. by rewrite Hf.
  - by exists s.
Qed.

(** An update of a stored session that keeps its code, its players and
    the lobby rule keeps the world sound. *)
Lemma update_one_steady (c : string) (f : Game → Game) :
  (∀ s, code (f s) = code s) → (∀ s, players (f s) = players s) →
  (∀ s, lobby_alive s → lobby_alive (f s)) →
  steady (db.update_one c f) ∧
  ∀ E, triple store_ok (db.update_one c f) (λ _, store_ok) E.
Proof.
  intros Hcode Hplayers Hlobby.
  assert (Hstore : ∀ w, store_ok w → store_ok (on_store (alter f c) w)).
  { intros w Hw. apply alter_store_ok; [done|]. intros s Hs. split; [done|].
    destruct (Hw c s Hs) as [_ (? & ? & ?)]. unfold sound. rewrite Hplayers. auto. }
  assert (Hone : ∀ w, one_way w (on_store (alter f c) w)).
  { intros w. apply alter_one_way. intros s _. rewrite Hplayers.
    apply Forall_forall. intros p ?. by exists p. }
  split; [|intros E]; apply triple_modify.
  - intros w [Hs Hc]. split; [|done]. split; [by apply Hstore|by apply alter_context_ok].
  - intros w Hs. split; [by apply Hstore|done].
Qed.

Lemma log_event_steady (c : string) (event : Event) : steady (db.log_event c event).
Proof. by apply update_one_steady. Qed.

Lemma log_event_store (c : string) (event : Event) (E : World → Prop) :
  triple store_ok (db.log_event c event) (λ _, store_ok) E.
Proof. by apply update_one_steady. Qed.

Lemma set_phase_steady (c : string) (ph : Phase) : ph ≠ lobby → steady (db.set_phase c ph).
Proof. intros Hph. apply update_one_steady; try done. by intros s _ ?. Qed.

(** *** The context *)

(** A change of the context that leaves the in-flight session alone. *)
Lemma on_context_steady (f : AgentContext → AgentContext) :
  (∀ x, game (f x) = game x) → steady (modify (on_context f)).
Proof.
  intros Hf. apply triple_modify. intros w [Hs Hc]. split; [|by apply one_way_same].
  split; [done|]. intros g. cbn. rewrite Hf. apply Hc.
Qed.

Lemma say_steady (message : string) : steady (agent_runtime.say message).
Proof.
  apply steady_bind; [by apply on_context_steady|]. intros _. apply steady_ret.
Qed.

Lemma reload_game_eval (w : World) :
  agent_runtime.reload_game w
  = (on_context (set_game (match game_code (context w) with
                           | Some c => if truthy (Some c) then store w !! c else None
                           | None => None
                           end)) w, inr tt).
Proof.
  unfold agent_runtime.reload_game, db.get_game, mbind, M_bind, get, modify, mret, M_ret.
  destruct (game_code (context w)) as [c|]; [|done]. by destruct (truthy (Some c)).
Qed.

Lemma players_evolve_NoDup (ps ps' : list Player) :
  Forall2 player_evolves ps ps' → id <$> ps' = id <$> ps.
Proof. induction 1 as [|p p' ps ps' [Hid _]]; [done|]. cbn. by f_equal. Qed.

(** From the store alone, a reload makes the whole world sound. *)
Lemma reload_game_restores :
  triple store_ok agent_runtime.reload_game (λ _, world_ok) world_ok.
Proof.
  intros w Hw. rewrite reload_game_eval. split; [|by apply one_way_same].
  split; [done|]. intros g. cbn [context on_context set_context game set_game].
  destruct (game_code (context w)) as [c|]; [|done].
  destruct (truthy (Some c)); [|done]. intros Hg.
  destruct (Hw c g Hg) as [Hcode Hsound]. split; [done|].
  exists g. split; [by rewrite Hcode|]. apply players_evolve_refl.
Qed.

Lemma reload_game_steady : steady agent_runtime.reload_game.
Proof. eapply triple_weaken; [| | |apply reload_game_restores]; try done. by intros w []. Qed.

Lemma the_game_spec :
  triple world_ok agent_runtime.the_game
    (λ g w, world_ok w ∧ game (context w) = Some g) world_ok.
Proof.
  intros w Hw. unfold agent_runtime.the_game, mbind, M_bind, get.
  destruct (game (context w)) as [g|] eqn:Hg; (split; [done|apply one_way_refl]).
Qed.

Lemma the_game_steady : steady agent_runtime.the_game.
Proof. eapply triple_weaken; [| | |apply the_game_spec]; try done. by intros g w []. Qed.

Lemma ensure_game_steady : steady agent_runtime._ensure_game.
Proof.
  intros w Hw. unfold agent_runtime._ensure_game, mbind, M_bind, get.
  destruct (game (context w)) as [g|]; [destruct (truthy _)|];
    (split; [done|apply one_way_refl]).
Qed.

Lemma sound_evolves (n : nat) (g g' : Game) : sound n g → evolves g g' → sound n g'.
Proof.
  intros (Hlobby & Hnodup & Hids) (Hcode & Hps & Hlobby').
  split; [done|]. split; [by rewrite (players_evolve_NoDup _ _ Hps)|].
  apply Forall_forall. intros p' Hp'.
  apply list_elem_of_lookup in Hp' as [i Hi].
  destruct (Forall2_lookup_r _ _ _ _ _ Hps Hi) as (p & Hp & Hid & _).
  rewrite Forall_forall in Hids. destruct (Hids p) as (m & ? & ?).
  { by eapply list_elem_of_lookup_2. }
  exists m. split; [done|congruence].
Qed.

(** An engine operation applied to the in-flight session. *)
Lemma on_game_steady {A} (m : M Game A) : engine_ok m → steady (agent_runtime.on_game m).
Proof.
  intros Hm w [Hs Hc]. unfold agent_runtime.on_game, agent_runtime.the_game.
  unfold mbind, M_bind, get, modify, mret, M_ret, raise.
  destruct (game (context w)) as [g|] eqn:Hg.
  2:{ split; [done|apply one_way_refl]. }
  destruct (Hc g Hg) as [Hsound (s & Hstored & Hbehind)].
  destruct (m g) as [g' r] eqn:Hrun.
  destruct (Hm g g' r (proj1 Hsound) Hrun) as [Hev _].
  assert (Hok : world_ok (on_context (set_game (Some g')) w)).
  { split; [done|]. intros ? [= <-]. split; [by eapply sound_evolves|].
    exists s. destruct Hev as (-> & Hps & _). split; [done|].
    by eapply players_evolve_trans. }
  destruct r; (split; [done|by apply one_way_same]).
Qed.

Lemma engine_call_steady {A} (m : M Game A) :
  engine_ok m → steady (agent_runtime.engine_call m).
Proof.
  intros Hm w Hw. unfold agent_runtime.engine_call.
  pose proof (on_game_steady m Hm w Hw) as Hrun.
  destruct (agent_runtime.on_game m w) as [w' [e|a]]; [|done].
  by destruct e.
Qed.

(** The in-flight session written back to the store. *)
Lemma upsert_game_current (g : Game) :
  triple (λ w, world_ok w ∧ game (context w) = Some g) (db.upsert_game g)
    (λ _, world_ok) world_ok.
Proof.
  apply triple_modify. intros w [[Hs Hc] Hg].
  destruct (Hc g Hg) as [Hsound (s & Hstored & Hbehind)].
  split; [split|].
  - intros c s'. cbn. rewrite lookup_insert. case_decide as Hcode.
    + intros [= <-]. by split.
    + apply Hs.
  - intros g'. cbn. rewrite Hg. intros [= <-]. split; [done|].
    exists g. rewrite lookup_insert_eq. split; [done|apply players_evolve_refl].
  - split; [done|]. split.
    + intros c [s' Hs']. cbn. rewrite lookup_insert. case_decide; by eexists.
    + intros c s1 s2 Hs1. cbn. rewrite lookup_insert. case_decide as Hcode.
      * subst c. intros [= <-]. rewrite Hstored in Hs1. injection Hs1 as <-.
        apply Forall_forall. intros p' Hp'. right.
        apply list_elem_of_lookup in Hp' as [i Hi].
        destruct (Forall2_lookup_r _ _ _ _ _ Hbehind Hi) as (p & Hp & Hev).
        exists p. split; [by eapply list_elem_of_lookup_2|done].
      * rewrite Hs1. intros [= <-]. apply Forall_forall. intros p ?. right. by exists p.
Qed.

(** *** Players joining and leaving, sessions created *)

Lemma add_player_store (c name0 : string) :
  triple world_ok (db.add_player c name0) (λ _, store_ok) world_ok.
Proof.
  intros w [Hs Hc]. unfold db.add_player, db.update_one.
  unfold mbind, M_bind, get, modify, mret, M_ret, raise.
  set (w1 := set_uuid_calls (S (uuid_calls w)) w).
  assert (Hw1 : world_ok w1 ∧ one_way w w1).
  { split; [split|].
    - intros c' s Hs'. destruct (Hs c' s Hs') as [? ?].
      split; [done|]. eapply sound_mono; [|done]. cbn. lia.
    - intros g Hg. destruct (Hc g Hg) as [? ?].
      split; [|done]. eapply sound_mono; [|done]. cbn. lia.
    - split; [cbn; lia|]. split; [done|]. intros c' s s' Hs1 Hs2.
      cbn in Hs2. simplify_eq. apply Forall_forall. intros p ?. right. by exists p. }
  repeat case_decide; try done.
  set (new := new_player (uuid7 (uuid_calls w)) (pystr.strip name0)).
  set (f := λ g : Game, set_players (players g ++ [new]) g).
  destruct Hw1 as [[Hs1 _] Hone1]. split.
  - apply (alter_store_ok c f w1); [done|]. intros s Hstored. split; [done|].
    destruct (Hs c s Hstored) as [_ (Hlobby & Hnodup & Hids)].
    split; [|split]; cbn.
    + intros Hph. apply Forall_app. split; [by apply Hlobby|]. by apply Forall_singleton.
    + rewrite fmap_app. apply NoDup_app. split; [done|]. split; [|apply NoDup_singleton].
      intros i Hi [= ->]%list_elem_of_singleton.
      apply list_elem_of_fmap in Hi as (p & Hid & Hp).
      rewrite Forall_forall in Hids. destruct (Hids p Hp) as (m & Hm & Hpm).
      cbn in Hid. rewrite Hpm in Hid. apply uuid7_inj in Hid. lia.
    + apply Forall_app. split.
      * eapply Forall_impl; [done|]. intros p (m & ? & ?). exists m. split; [lia|done].
      * apply Forall_singleton. exists (uuid_calls w). split; [cbn; lia|done].
  - split; [cbn; lia|]. split.
    + intros c' [s Hstored]. cbn. rewrite lookup_alter.
      case_decide; [subst c'|by eexists]. rewrite Hstored. by eexists.
    + intros c' s s' Hstored. cbn. rewrite lookup_alter.
      case_decide; [subst c'|].
      * rewrite Hstored. intros [= <-]. cbn. apply Forall_app. split.
        -- apply Forall_forall. intros p ?. right. by exists p.
        -- apply Forall_singleton. left. exists (uuid_calls w). split; [lia|done].
      * rewrite Hstored. intros [= <-]. apply Forall_forall. intros p ?. right. by exists p.
Qed.

Lemma Forall_filter_keep {A} (P Q : A → Prop) `{∀ x, Decision (Q x)} (l : list A) :
  Forall P l → Forall P (filter Q l).
Proof.
  rewrite !Forall_forall. intros Hl x [_ ?]%list_elem_of_filter. auto.
Qed.

Lemma remove_player_store (c player_id : string) :
  triple world_ok (db.remove_player c player_id) (λ _, store_ok) world_ok.
Proof.
  apply triple_modify. intros w [Hs Hc].
  set (f := λ g : Game, set_players (filter (λ p, id p ≠ player_id) (players g)) g).
  split.
  - apply (alter_store_ok c f); [done|]. intros s Hstored. split; [done|].
    destruct (Hs c s Hstored) as [_ (Hlobby & Hnodup & Hids)].
    split; [|split]; cbn.
    + intros Hph. by apply Forall_filter_keep, Hlobby.
    + eapply (sublist_NoDup _ (id <$> players s)); [done|].
      apply fmap_sublist, sublist_filter.
    + by apply Forall_filter_keep.
  - apply (alter_one_way c f). intros s _. cbn.
    apply Forall_forall. intros p [_ ?]%list_elem_of_filter. by exists p.
Qed.

Lemma create_game_spec (c : string) :
  triple world_ok (db.create_game c)
    (λ g w, world_ok w ∧ g = new_game c ∧ ∃ s, store w !! c = Some s ∧ players s = [])
    world_ok.
Proof.
  intros w [Hs Hc]. unfold db.create_game, mbind, M_bind, get, modify, mret, M_ret, raise.
  destruct (store w !! c) as [s|] eqn:Hstored.
  { split; [done|apply one_way_refl]. }
  split; [split; [split|]|].
  - intros c' s'. cbn. rewrite lookup_insert. case_decide.
    + intros [= <-]. split; [done|]. split; [by intros ?|]. split; [constructor|done].
    + apply Hs.
  - intros g Hg. destruct (Hc g Hg) as [? (s & Hsg & ?)]. split; [done|].
    exists s. cbn. rewrite lookup_insert_ne; [done|]. congruence.
  - split; [done|]. exists (new_game c). cbn. by rewrite lookup_insert_eq.
  - split; [done|]. split.
    + intros c' [s Hs']. cbn. rewrite lookup_insert. case_decide; by eexists.
    + intros c' s s' Hs1. cbn. rewrite lookup_insert. case_decide; [congruence|].
      rewrite Hs1. intros [= <-]. apply Forall_forall. intros p ?. right. by exists p.
Qed.

Lemma set_random_calls_steady (n : nat) : steady (modify (set_random_calls n)).
Proof.
  apply triple_modify. intros w [Hs Hc]. split; [by split|by apply one_way_same].
Qed.

(** *** The tools *)

(** Decomposition of a tool along its binds and tests. *)
Ltac steady_step :=
  first
    [ apply steady_ret
    | apply steady_raise
    | apply steady_get
    | apply say_steady
    | apply log_event_steady
    | apply reload_game_steady
    | apply the_game_steady
    | apply ensure_game_steady
    | apply set_random_calls_steady
    | apply on_context_steady; done
    | apply set_phase_steady; done
    | apply engine_call_steady
    | apply on_game_steady
    | apply witch_action_ok
    | apply seer_peek_ok
    | apply wolves_vote_ok
    | apply start_next_night_ok
    | apply assign_roles_ok
    | apply set_phase_ok; done
    | apply steady_bind; [|intros ?]
    | case_match
    | case_decide ].

Lemma force_phase_steady (ph : Phase) : ph ≠ lobby → steady (agent_runtime.force_phase ph).
Proof. intros Hph. unfold agent_runtime.force_phase. repeat steady_step. Qed.

Lemma finalize_state_steady : steady agent_runtime._finalize_state.
Proof.
  unfold agent_runtime._finalize_state.
  apply steady_bind; [apply the_game_steady|]. intros g.
  destruct (game_engine.is_game_over g) as [over winner].
  apply steady_bind; [repeat steady_step|]. intros ?.
  eapply triple_bind; [apply the_game_spec|]. intros g'.
  eapply triple_bind; [apply upsert_game_current|]. intros ?.
  repeat steady_step.
Qed.

Lemma log_killed_steady (g : Game) (killed_id : option string) :
  steady (agent_runtime.log_killed g killed_id).
Proof.
  unfold agent_runtime.log_killed. repeat steady_step.
Qed.

Lemma tool_list_players_steady : steady agent_runtime.tool_list_players.
Proof. unfold agent_runtime.tool_list_players. repeat steady_step. Qed.

Lemma tool_assign_roles_steady (seed : option Z) :
  steady (agent_runtime.tool_assign_roles seed).
Proof.
  unfold agent_runtime.tool_assign_roles.
  repeat first [apply finalize_state_steady | steady_step].
Qed.

Lemma tool_seer_peek_steady (target_name : string) :
  steady (agent_runtime.tool_seer_peek target_name).
Proof.
  unfold agent_runtime.tool_seer_peek.
  repeat first [apply finalize_state_steady | steady_step].
Qed.

Lemma tool_wolves_vote_steady (target_name : string) :
  steady (agent_runtime.tool_wolves_vote target_name).
Proof.
  unfold agent_runtime.tool_wolves_vote.
  repeat first [apply finalize_state_steady | by apply force_phase_steady | steady_step].
Qed.

Lemma tool_witch_action_steady (heal : bool) (poison_target : option string) :
  steady (agent_runtime.tool_witch_action heal poison_target).
Proof.
  unfold agent_runtime.tool_witch_action.
  repeat first [apply finalize_state_steady | by apply force_phase_steady
               | apply log_killed_steady | steady_step].
Qed.

Lemma tool_advance_to_day_steady : steady agent_runtime.tool_advance_to_day.
Proof.
  unfold agent_runtime.tool_advance_to_day.
  repeat first [apply finalize_state_steady | apply log_killed_steady | steady_step].
Qed.

Lemma tool_run_night_sequence_steady : steady agent_runtime.tool_run_night_sequence.
Proof.
  unfold agent_runtime.tool_run_night_sequence.
  repeat first [by apply force_phase_steady | steady_step].
Qed.

Lemma tool_start_next_night_steady : steady agent_runtime.tool_start_next_night.
Proof.
  unfold agent_runtime.tool_start_next_night.
  repeat first [apply finalize_state_steady | steady_step].
Qed.

Lemma tool_game_status_steady : steady agent_runtime.tool_game_status.
Proof. unfold agent_runtime.tool_game_status. repeat steady_step. Qed.

Lemma tool_add_player_steady (name0 : string) :
  steady (agent_runtime.tool_add_player name0).
Proof.
  unfold agent_runtime.tool_add_player.
  apply steady_bind; [apply ensure_game_steady|]. intros g.
  case_decide; [apply steady_raise|]. case_match; [apply steady_raise|].
  eapply triple_bind; [apply add_player_store|]. intros ?.
  eapply triple_bind; [apply log_event_store|]. intros ?.
  eapply triple_bind; [apply reload_game_restores|]. intros ?.
  apply say_steady.
Qed.

Lemma tool_remove_player_steady (name0 : string) :
  steady (agent_runtime.tool_remove_player name0).
Proof.
  unfold agent_runtime.tool_remove_player.
  apply steady_bind; [apply ensure_game_steady|]. intros g.
  case_decide; [apply steady_raise|]. case_match; [|apply steady_raise].
  case_match.
  eapply triple_bind; [apply remove_player_store|]. intros ?.
  eapply triple_bind; [apply log_event_store|]. intros ?.
  eapply triple_bind; [apply reload_game_restores|]. intros ?.
  apply say_steady.
Qed.

Lemma tool_create_game_steady (code0 : option string) :
  steady (agent_runtime.tool_create_game code0).
Proof.
  unfold agent_runtime.tool_create_game.
  apply steady_bind; [repeat steady_step|]. intros c.
  eapply triple_bind; [apply create_game_spec|]. intros g.
  eapply (triple_bind _ _ _ (λ _ w, world_ok w ∧ g = new_game c ∧ empty_session_at c w)).
  { apply triple_modify. intros w (Hw & -> & s & Hs & Hps).
    destruct (log_event_steady c (game_created c) w Hw) as [Hw' Hone].
    split; [|done]. split; [done|]. split; [done|].
    eexists. cbn. rewrite lookup_alter, decide_True, Hs by done. done. }
  intros ?.
  eapply (triple_bind _ _ _ (λ _ w, world_ok w ∧ g = new_game c ∧ empty_session_at c w)).
  { apply triple_modify. intros w (Hw & -> & Hempty).
    destruct (on_context_steady (set_game_code (Some c)) (λ _, eq_refl) w Hw) as [Hw' Hone].
    done. }
  intros ?.
  eapply triple_bind; [|intros ?; apply say_steady].
  apply triple_modify. intros w ([Hs Hc] & -> & s & Hstored & Hps).
  split; [|by apply one_way_same]. split; [done|].
  intros ? [= <-]. split.
  - split; [by intros ?|]. split; [constructor|done].
  - exists s. split; [done|]. unfold behind. rewrite Hps. constructor.
Qed.

Lemma tool_join_game_steady (code0 : string) :
  steady (agent_runtime.tool_join_game code0).
Proof.
  unfold agent_runtime.tool_join_game. case_match; [apply steady_raise|].
  set (c := pystr.upper (pystr.strip code0)).
  eapply (triple_bind _ _ _ (λ found w, world_ok w ∧ found = store w !! c)).
  { intros w Hw. cbv [db.get_game mbind M_bind get mret M_ret].
    split; [done|apply one_way_refl]. }
  intros [g|]; [|by intros w [Hw _]; split; [|apply one_way_refl]].
  eapply (triple_bind _ _ _ (λ _ w, world_ok w ∧ Some g = store w !! c)).
  { apply triple_modify. intros w (Hw & Hg).
    destruct (on_context_steady (set_game_code (Some c)) (λ _, eq_refl) w Hw) as [Hw' Hone].
    done. }
  intros ?.
  eapply triple_bind; [|intros ?; apply say_steady].
  apply triple_modify. intros w ([Hs Hc] & Hg).
  split; [|by apply one_way_same]. split; [done|].
  intros ? [= <-]. destruct (Hs c g) as [Hcode Hsound]; [done|].
  split; [done|]. exists g. split; [by rewrite Hcode|apply players_evolve_refl].
Qed.

Lemma tool_function_steady (c : Command) : steady (langchain_agent.tool_function c).
Proof.
  destruct c; cbn;
    auto using tool_create_game_steady, tool_join_game_steady, tool_add_player_steady,
      tool_remove_player_steady, tool_list_players_steady, tool_assign_roles_steady,
      tool_seer_peek_steady, tool_wolves_vote_steady, tool_witch_action_steady,
      tool_run_night_sequence_steady, tool_advance_to_day_steady,
      tool_start_next_night_steady, tool_game_status_steady.
Qed.

Lemma wrap_tool_steady (c : Command) : steady (langchain_agent._wrap_tool c).
Proof.
  intros w Hw. unfold langchain_agent._wrap_tool.
  pose proof (tool_function_steady c w Hw) as Hrun.
  destruct (langchain_agent.tool_function c w) as [w' [e|a]]; [|done].
  destruct Hrun as [Hw' Hone].
  assert (Herr : ∀ k, world_ok (on_context (add_error k) w')
                      ∧ one_way w (on_context (add_error k) w')).
  { intros k. destruct (on_context_steady (add_error k) (λ _, eq_refl) w' Hw') as [? ?].
    split; [done|]. by eapply one_way_trans. }
  destruct e; first [done|apply Herr].
Qed.

Lemma set_current_context_steady (code0 : option string) :
  steady (agent_runtime.set_current_context code0).
Proof.
  unfold agent_runtime.set_current_context.
  apply steady_bind; [|intros ?; apply reload_game_steady].
  apply triple_modify. intros w [Hs Hc]. split; [|by apply one_way_same].
  split; [done|]. by intros g.
Qed.

(** Every step keeps the world sound and goes one way. *)
Lemma exec_steady (s : Step) (w : World) :
  world_ok w → world_ok (exec s w) ∧ one_way w (exec s w).
Proof.
  intros Hw. destruct s as [code0|c]; cbn.
  - pose proof (set_current_context_steady code0 w Hw) as Hrun.
    by destruct (agent_runtime.set_current_context code0 w) as [w' [e|a]].
  - pose proof (wrap_tool_steady c w Hw) as Hrun.
    by destruct (langchain_agent._wrap_tool c w) as [w' [e|a]].
Qed.

Lemma run_steady (steps : list Step) (w : World) :
  world_ok w → world_ok (run steps w) ∧ one_way w (run steps w).
Proof.
  revert w. induction steps as [|s steps IH]; intros w Hw; cbn.
  - split; [done|apply one_way_refl].
  - destruct (exec_steady s w Hw) as [Hw' Hone].
    destruct (IH _ Hw') as [Hw'' Hone']. split; [done|]. by eapply one_way_trans.
Qed.

Lemma empty_world_ok : world_ok empty_world.
Proof. split; [by intros c s|by intros g]. Qed.

End world.

(** ** Death is final *)

Lemma NoDup_fmap_eq {A B} (f : A → B) (l : list A) (x y : A) :
  NoDup (f <$> l) → x ∈ l → y ∈ l → f x = f y → x = y.
Proof.
  intros Hnodup [i Hi]%list_elem_of_lookup [j Hj]%list_elem_of_lookup Hf.
  assert (i = j) as ->; [|congruence].
  eapply NoDup_lookup; [done| |]; rewrite list_lookup_fmap.
  - by rewrite Hi.
  - rewrite Hj. cbn. by rewrite Hf.
Qed.

(** C8: take any world the dispatcher reaches from the empty one, where
    every session was created by a command, and any further steps,
    [assign_roles] included.  A player dead in a stored session is dead in
    that session ever after: a player with the same identifier found
    there later is dead. *)
Theorem dead_is_terminal `{Environment} `{!EnvironmentOk}
    (before after : list Step) (c : string) (s1 s2 : Game) (p1 p2 : Player) :
  store (run before empty_world) !! c = Some s1 →
  store (run after (run before empty_world)) !! c = Some s2 →
  p1 ∈ players s1 → status p1 = dead →
  p2 ∈ players s2 → id p2 = id p1 →
  status p2 = dead.
Proof.
  intros Hs1 Hs2 Hp1 Hdead Hp2 Hid.
  destruct (run_steady before empty_world empty_world_ok) as [[Hstore _] _].
  destruct (run_steady after _ (conj Hstore (proj2 (proj1
              (run_steady before empty_world empty_world_ok))))) as [_ (_ & _ & Hone)].
  destruct (Hstore c s1 Hs1) as [_ (_ & Hnodup & Hids)].
  specialize (Hone c s1 s2 Hs1 Hs2). rewrite Forall_forall in Hone, Hids.
  destruct (Hone p2 Hp2) as [(m & Hm & Hfresh)|(p & Hp & Hidp & Hstays)].
  - destruct (Hids p1 Hp1) as (m' & Hm' & Hdrawn).
    rewrite Hid, Hdrawn in Hfresh. apply uuid7_inj in Hfresh. lia.
  - assert (p = p1) as ->.
    { eapply (NoDup_fmap_eq id); [done..|congruence]. }
    auto.
Qed.

Lemma demo_environment_ok : @EnvironmentOk demo_environment.
Proof.
  split. intros m n. cbn. intros [= Heq]. by apply (inj pretty).
Qed.

Lemma dead_is_terminal_witness :
  ∃ s2 p2,
    store (@run demo_environment
             [invoke (cmd_witch_action true None); invoke cmd_start_next_night]
             (@run demo_environment two_nights empty_world)) !! "ABCDEF" = Some s2 ∧
    players s2 !! 4%nat = Some p2 ∧ id p2 = "u4" ∧ status p2 = dead.
Proof.
  eexists _, _. split; [vm_compute; reflexivity|]. split; [reflexivity|].
  split; [reflexivity|].
  eapply (@dead_is_terminal demo_environment demo_environment_ok two_nights
            [invoke (cmd_witch_action true None); invoke cmd_start_next_night]
            "ABCDEF" second_witch_night _
            {| id := "u4"; name := "Erin"; role := villager; status := dead |}).
  - vm_compute. reflexivity.
  - vm_compute. reflexivity.
  - apply list_elem_of_lookup. by exists 4%nat.
  - reflexivity.
  - apply list_elem_of_lookup. by exists 4%nat.
  - reflexivity.
Defined.

(** ** Skipping the turn of a role that is gone *)

Lemma ensure_game_bound (w : World) (g : Game) :
  game (context w) = Some g → truthy (game_code (context w)) = true →
  agent_runtime._ensure_game w = (w, inr g).
Proof.
  intros Hg Hc. unfold agent_runtime._ensure_game, mbind, M_bind, get.
  by rewrite Hg, Hc.
Qed.

(** The forced passage, evaluated: the stored phase is set, and the
    context holds the stored session again. *)
Lemma force_phase_eval (ph : Phase) (w : World) (g s : Game) (c : string) :
  game (context w) = Some g → game_code (context w) = Some c → c ≠ EmptyString →
  code g = c → store w !! c = Some s →
  agent_runtime.force_phase ph w = (advanced ph c s w, inr tt).
Proof.
  intros Hg Hc Hne%truthy_Some Hcode Hs.
  unfold agent_runtime.force_phase, agent_runtime.on_game, agent_runtime.the_game.
  unfold db.set_phase, db.update_one.
  unfold mbind, M_bind, get, modify, mret, M_ret.
  rewrite Hg. cbv beta iota. rewrite Hg. cbv beta iota.
  rewrite reload_game_eval. cbn [fst snd set_game game context on_context set_context on_store set_store store game_code].
  rewrite Hc, Hne, Hcode. cbn. rewrite lookup_alter, decide_True, Hs by done.
  by destruct w.
Qed.

Lemma bind_eval {S A B} (m : M S A) (k : A → M S B) (s s' : S) (a : A) :
  m s = (s', inr a) → (m ≫= k) s = k a s'.
Proof. intros Hm. unfold mbind, M_bind. by rewrite Hm. Qed.

(** C2, as the code has it: an action handler passes over the one phase
    just before its own when that phase's role has no living member, and
    then proceeds exactly as if dispatched in its own phase, the advance
    being stored; the wolves' vote skips a dead seer, the witch's action
    skips dead wolves.  Nothing cascades: the witch's action dispatched in
    the seer's phase is refused, whoever is alive, and changes nothing. *)
Theorem auto_skip_is_one_phase (w : World) (g s : Game) (c : string) :
  game (context w) = Some g → game_code (context w) = Some c → c ≠ EmptyString →
  code g = c → store w !! c = Some s →
  (phase g = night_seer → agent_runtime.living_seer g = None →
   phase <$> store (advanced night_wolves c s w) !! c = Some night_wolves ∧
   phase <$> game (context (advanced night_wolves c s w)) = Some night_wolves ∧
   ∀ target_name,
     agent_runtime.tool_wolves_vote target_name w
     = agent_runtime.tool_wolves_vote target_name (advanced night_wolves c s w)) ∧
  (phase g = night_wolves → agent_runtime.living_wolves g = [] →
   phase <$> store (advanced night_witch c s w) !! c = Some night_witch ∧
   phase <$> game (context (advanced night_witch c s w)) = Some night_witch ∧
   ∀ heal poison_target,
     agent_runtime.tool_witch_action heal poison_target w
     = agent_runtime.tool_witch_action heal poison_target (advanced night_witch c s w)) ∧
  (phase g = night_seer →
   ∀ heal poison_target,
     agent_runtime.tool_witch_action heal poison_target w
     = (w, inl (AgentToolError SeerMustPlayFirst))).
Proof.
  intros Hg Hc Hne Hcode Hs.
  assert (Hbound : agent_runtime._ensure_game w = (w, inr g)).
  { apply ensure_game_bound; [done|]. rewrite Hc. by apply truthy_Some. }
  assert (Hadvanced : ∀ ph,
            store (advanced ph c s w) !! c = Some (set_phase ph s) ∧
            agent_runtime._ensure_game (advanced ph c s w)
            = (advanced ph c s w, inr (set_phase ph s))).
  { intros ph. split.
    - cbn. by rewrite lookup_alter, decide_True, Hs.
    - apply ensure_game_bound; [done|]. cbn. rewrite Hc. by apply truthy_Some. }
  split; [|split].
  - intros Hph Hseer. destruct (Hadvanced night_wolves) as [Hstored Hbound'].
    split; [by rewrite Hstored|]. split; [done|]. intros target_name.
    unfold agent_runtime.tool_wolves_vote.
    rewrite (bind_eval _ _ _ _ _ Hbound), (bind_eval _ _ _ _ _ Hbound').
    rewrite decide_True, Hseer by done.
    rewrite (bind_eval _ _ _ _ _ (force_phase_eval night_wolves w g s c Hg Hc Hne Hcode Hs)).
    cbn [phase set_phase]. rewrite decide_False, decide_False by (try done; by intros []).
    done.
  - intros Hph Hwolves. destruct (Hadvanced night_witch) as [Hstored Hbound'].
    split; [by rewrite Hstored|]. split; [done|]. intros heal poison_target.
    unfold agent_runtime.tool_witch_action.
    rewrite (bind_eval _ _ _ _ _ Hbound), (bind_eval _ _ _ _ _ Hbound').
    rewrite decide_False, decide_True, (decide_False (P := agent_runtime.living_wolves g ≠ []))
      by (try done; congruence).
    rewrite (bind_eval _ _ _ _ _ (force_phase_eval night_witch w g s c Hg Hc Hne Hcode Hs)).
    cbn [phase set_phase].
    rewrite decide_False, decide_False, decide_False by (try done; by intros []).
    done.
  - intros Hph heal poison_target. unfold agent_runtime.tool_witch_action.
    rewrite (bind_eval _ _ _ _ _ Hbound). by rewrite decide_True.
Qed.

Lemma auto_skip_is_one_phase_witness :
  phase <$> store (advanced night_wolves "ABCDEF" second_seer_night seer_lost_world)
              !! "ABCDEF"
  = Some night_wolves ∧
  agent_runtime.tool_wolves_vote "Dave" seer_lost_world
  = agent_runtime.tool_wolves_vote "Dave"
      (advanced night_wolves "ABCDEF" second_seer_night seer_lost_world) ∧
  agent_runtime.tool_witch_action false None seer_lost_world
  = (seer_lost_world, inl (AgentToolError SeerMustPlayFirst)).
Proof.
  assert (Hg : game (context seer_lost_world) = Some second_seer_night)
    by (vm_compute; reflexivity).
  assert (Hc : game_code (context seer_lost_world) = Some "ABCDEF")
    by (vm_compute; reflexivity).
  assert (Hs : store seer_lost_world !! "ABCDEF" = Some second_seer_night)
    by (vm_compute; reflexivity).
  assert (Hne : "ABCDEF" ≠ EmptyString) by discriminate.
  pose proof (auto_skip_is_one_phase seer_lost_world second_seer_night
                second_seer_night "ABCDEF" Hg Hc Hne eq_refl Hs)
    as (Hvote & _ & Hwitch).
  assert (Hseer : agent_runtime.living_seer second_seer_night = None)
    by (vm_compute; reflexivity).
  pose proof (Hvote eq_refl Hseer) as (Hstored & _ & Hsame).
  split; [exact Hstored|]. split; [exact (Hsame "Dave")|].
  exact (Hwitch eq_refl false None).
Defined.

(** C2 as stated fails: in the seer's phase with the seer and every wolf
    dead, the witch's action is refused and the phase stays where it was;
    so it is in a world the dispatcher reaches, the seer dead at the
    start of the second night: the session is not advanced past the
    seer's phase before the refusal. *)
Lemma auto_skip_does_not_cascade :
  phase night_without_actors = night_seer ∧
  agent_runtime.living_seer night_without_actors = None ∧
  agent_runtime.living_wolves night_without_actors = [] ∧
  agent_runtime.tool_witch_action false None (world_with night_without_actors)
  = (world_with night_without_actors, inl (AgentToolError SeerMustPlayFirst)) ∧
  phase <$> game (context (world_with night_without_actors)) ≠ Some night_witch ∧
  agent_runtime.living_seer <$> game (context seer_lost_world) = Some None ∧
  (agent_runtime.tool_witch_action false None seer_lost_world).2
  = inl (AgentToolError SeerMustPlayFirst) ∧
  phase <$> store (agent_runtime.tool_witch_action false None seer_lost_world).1 !! "ABCDEF"
  = Some night_seer.
Proof.
  vm_compute. repeat split; try reflexivity. discriminate.
Qed.

(** * Further properties *)

(** ** Rules for relations every engine step respects *)

Section respects.
Context (R : Game → Game → Prop) `{!Reflexive R} `{!Transitive R}.

Lemma respects_ret {A} (a : A) : respects R (mret a).
Proof. intros g g' r. cbv. by intros [= <- <-]. Qed.

Lemma respects_raise {A} (e : Exception) : respects R (raise e : M Game A).
Proof. intros g g' r. cbv. by intros [= <- <-]. Qed.

Lemma respects_get : respects R get.
Proof. intros g g' r. cbv. by intros [= <- <-]. Qed.

Lemma respects_modify (f : Game → Game) : (∀ g, R g (f g)) → respects R (modify f).
Proof. intros Hf g g' r. unfold modify. intros [= <- <-]. apply Hf. Qed.

Lemma respects_bind {A B} (m : M Game A) (k : A → M Game B) :
  respects R m → (∀ a, respects R (k a)) → respects R (m ≫= k).
Proof.
  intros Hm Hk g g' r. unfold mbind, M_bind.
  destruct (m g) as [g1 [e|a]] eqn:Hrun.
  - intros [= <- <-]. by eapply Hm.
  - intros Hrun'. etrans; [by eapply Hm|by eapply Hk].
Qed.

Lemma respects_perform_all `{Environment} (os : list Operation) (g : Game) :
  (∀ o, respects R (perform o)) → R g (perform_all os g).
Proof.
  intros Hop. unfold perform_all. revert g.
  induction os as [|o os IH]; intros g; cbn; [done|].
  etrans; [|apply IH]. destruct (perform o g) as [g1 r] eqn:Hrun. by eapply Hop.
Qed.

End respects.

Ltac unfold_ops :=
  unfold perform, drop_result, game_engine.witch_action, game_engine.witch_heal_step,
    game_engine.witch_poison_step, game_engine.kill_if_set,
    game_engine.seer_peek, game_engine.wolves_vote,
    game_engine.start_next_night, game_engine._get_player,
    game_engine._ensure_alive, game_engine.mark_dead.

Ltac respects_step :=
  first
    [ apply respects_ret; try apply _
    | apply respects_raise; try apply _
    | apply respects_get; try apply _
    | apply respects_modify; [intros ?]
    | apply respects_bind; [try apply _ | | intros ?]
    | case_match
    | case_decide ].

#[global] Instance potions_kept_refl : Reflexive potions_kept.
Proof. intros g. by split. Qed.
#[global] Instance potions_kept_trans : Transitive potions_kept.
Proof. intros g1 g2 g3 [? ?] [? ?]. split; auto. Qed.

#[global] Instance same_roster_refl : Reflexive same_roster.
Proof. intros g. by repeat split. Qed.
#[global] Instance same_roster_trans : Transitive same_roster.
Proof. intros g1 g2 g3 (?&?&?&?&?) (?&?&?&?&?). repeat split; congruence. Qed.

#[global] Instance roles_settled_refl : Reflexive roles_settled.
Proof. intros g ?. by split. Qed.
#[global] Instance roles_settled_trans : Transitive roles_settled.
Proof.
  intros g1 g2 g3 H1 H2 Hplay. destruct (H1 Hplay) as [Hplay2 Hroles].
  destruct (H2 Hplay2) as [? ?]. split; [done|congruence].
Qed.

Lemma assign_each_roster (assignments : gmap string Role) (ps : list Player) :
  id <$> (game_engine.assign_each assignments ps).1 = id <$> ps ∧
  name <$> (game_engine.assign_each assignments ps).1 = name <$> ps.
Proof.
  induction ps as [|p ps [IH1 IH2]]; cbn; [done|].
  destruct (assignments !! id p) as [r|]; cbn; [|done].
  destruct (game_engine.assign_each assignments ps) as [ps' e]. cbn in *.
  by rewrite IH1, IH2.
Qed.

Lemma alter_status_roster (s : Status) (i : nat) (ps : list Player) :
  id <$> alter (set_status s) i ps = id <$> ps ∧
  name <$> alter (set_status s) i ps = name <$> ps ∧
  role <$> alter (set_status s) i ps = role <$> ps.
Proof.
  revert i. induction ps as [|p ps IH]; intros [|i]; cbn; try done.
  destruct (IH i) as (-> & -> & ->). done.
Qed.

(** The three relations hold across [assign_roles], whatever it does. *)
Lemma assign_roles_respects `{Environment} (seed : option Z) :
  respects potions_kept (game_engine.assign_roles seed) ∧
  respects same_roster (game_engine.assign_roles seed) ∧
  respects roles_settled (game_engine.assign_roles seed).
Proof.
  split; [|split]; intros g g' r; unfold game_engine.assign_roles, mbind, M_bind, get;
    (case_decide as Hphase; [cbv; by intros [= <- <-]|]);
    (destruct (roles.assign_roles _ seed) as [e|assignments];
       [cbv; by intros [= <- <-]|]);
    pose proof (assign_each_roster assignments (players g)) as [Hid Hname];
    destruct (game_engine.assign_each assignments (players g)) as [ps e]; cbn in *;
    destruct e; cbv [modify raise mret M_ret]; intros [= <- <-]; try done.
Qed.

Lemma perform_potions_kept `{Environment} (o : Operation) :
  respects potions_kept (perform o).
Proof.
  destruct o as [seed| | | |].
  { apply respects_bind; [apply _|apply assign_roles_respects|intros ?].
    apply respects_ret; apply _. }
  all: unfold_ops; repeat respects_step; by split.
Qed.

Lemma perform_same_roster `{Environment} (o : Operation) :
  respects same_roster (perform o).
Proof.
  destruct o as [seed| | | |].
  { apply respects_bind; [apply _|apply assign_roles_respects|intros ?].
    apply respects_ret; apply _. }
  all: unfold_ops; repeat respects_step;
    try (by repeat split);
    repeat split; try done; cbn; apply alter_status_roster.
Qed.

Lemma perform_roles_settled `{Environment} (o : Operation) :
  respects roles_settled (perform o).
Proof.
  destruct o as [seed| | | |].
  { apply respects_bind; [apply _|apply assign_roles_respects|intros ?].
    apply respects_ret; apply _. }
  all: unfold_ops; repeat respects_step; intros Hplay;
    try (by split); split; try done; cbn; apply alter_status_roster.
Qed.

(** ** What no series of engine calls does *)

(** X1: whatever engine calls are made on a session, with whatever
    arguments and whether they succeed or raise, a potion that was used
    stays used: no call resets a potion flag. *)
Theorem potions_never_reset `{Environment} (os : list Operation) (g : Game) :
  potions_kept g (perform_all os g).
Proof. apply respects_perform_all; try apply _. apply perform_potions_kept. Qed.

(** X2: whatever engine calls are made on a session, its code, its event
    history and its chat history are untouched, and it has the same
    players in the same order, by identifier and by name: the engine
    neither adds, removes, reorders nor renames a player. *)
Theorem engine_keeps_roster `{Environment} (os : list Operation) (g : Game) :
  same_roster g (perform_all os g).
Proof. apply respects_perform_all; try apply _. apply perform_same_roster. Qed.

(** X3: once a session is past the lobby, no series of engine calls
    brings it back to the lobby, and every player keeps the role dealt:
    roles are assigned once. *)
Theorem roles_are_dealt_once `{Environment} (os : list Operation) (g : Game) :
  in_play g →
  in_play (perform_all os g) ∧ role <$> players (perform_all os g) = role <$> players g.
Proof.
  intros Hplay.
  by apply (respects_perform_all roles_settled os g perform_roles_settled).
Qed.

Lemma roles_are_dealt_once_witness :
  in_play seer_night ∧
  in_play (@perform_all demo_environment
             [op_seer_peek "u3"; op_assign_roles None; op_wolves_vote "u5";
              op_witch_action false (Some "u4"); op_start_next_night] seer_night) ∧
  role <$> players (@perform_all demo_environment
             [op_seer_peek "u3"; op_assign_roles None; op_wolves_vote "u5";
              op_witch_action false (Some "u4"); op_start_next_night] seer_night)
  = role <$> players seer_night.
Proof.
  assert (in_play seer_night) as Hplay by (intros [=]).
  split; [exact Hplay|].
  exact (@roles_are_dealt_once demo_environment _ seer_night Hplay).
Defined.

(** ** Guards and refusals *)

(** X4: each engine call is tied to one phase.  Made in any other phase
    it raises the phase error naming the phase it expects, and the
    session is exactly as before. *)
Theorem engine_phase_guards `{Environment} (g : Game) :
  (phase g ≠ lobby → ∀ seed,
     game_engine.assign_roles seed g = (g, inl (GameStateError (PhaseViolation lobby)))) ∧
  (phase g ≠ night_seer → ∀ t,
     game_engine.seer_peek t g = (g, inl (GameStateError (PhaseViolation night_seer)))) ∧
  (phase g ≠ night_wolves → ∀ t,
     game_engine.wolves_vote t g = (g, inl (GameStateError (PhaseViolation night_wolves)))) ∧
  (phase g ≠ night_witch → ∀ heal poison,
     game_engine.witch_action heal poison g
     = (g, inl (GameStateError (PhaseViolation night_witch)))) ∧
  (phase g ≠ day →
     game_engine.start_next_night g = (g, inl (GameStateError (PhaseViolation day)))).
Proof.
  repeat split; intros Hph; intros;
    unfold game_engine.assign_roles, game_engine.seer_peek, game_engine.wolves_vote,
      game_engine.witch_action, game_engine.start_next_night, mbind, M_bind, get;
    by rewrite decide_True.
Qed.

Lemma engine_phase_guards_witness :
  @game_engine.assign_roles demo_environment None witch_night
  = (witch_night, inl (GameStateError (PhaseViolation lobby))) ∧
  game_engine.seer_peek "u3" witch_night
  = (witch_night, inl (GameStateError (PhaseViolation night_seer))) ∧
  game_engine.wolves_vote "u3" witch_night
  = (witch_night, inl (GameStateError (PhaseViolation night_wolves))) ∧
  game_engine.witch_action true None seer_night
  = (seer_night, inl (GameStateError (PhaseViolation night_witch))) ∧
  game_engine.start_next_night witch_night
  = (witch_night, inl (GameStateError (PhaseViolation day))).
Proof.
  destruct (@engine_phase_guards demo_environment witch_night) as (H1 & H2 & H3 & _ & H5).
  destruct (@engine_phase_guards demo_environment seer_night) as (_ & _ & _ & H4 & _).
  split_and!.
  - apply H1. intros [=].
  - apply H2. intros [=].
  - apply H3. intros [=].
  - apply H4. intros [=].
  - apply H5. intros [=].
Defined.

(** X5: the seer and the wolves can only aim at a living player of the
    session.  In its own phase, a peek or a vote at an identifier no
    player carries raises the not-found error, one at a dead player
    raises the not-alive error, and either way the session is exactly as
    before: the phase has not moved and no kill is pending that was not. *)
Theorem night_target_must_be_alive (g : Game) (t : string) :
  (lookup_player t (players g) = None →
     (phase g = night_seer →
        game_engine.seer_peek t g = (g, inl (GameStateError NotFound))) ∧
     (phase g = night_wolves →
        game_engine.wolves_vote t g = (g, inl (GameStateError NotFound)))) ∧
  (∀ i p, lookup_player t (players g) = Some (i, p) → status p = dead →
     (phase g = night_seer →
        game_engine.seer_peek t g = (g, inl (GameStateError NotAlive))) ∧
     (phase g = night_wolves →
        game_engine.wolves_vote t g = (g, inl (GameStateError NotAlive)))).
Proof.
  split.
  - intros Hfind. split; intros Hph; run_engine.
  - intros i p Hfind Hdead. split; intros Hph; run_engine;
      exfalso; match goal with Hn : ¬ status _ ≠ alive |- _ => apply Hn end; by rewrite Hdead.
Qed.

Lemma night_target_must_be_alive_witness :
  game_engine.seer_peek "nobody" second_seer_night
  = (second_seer_night, inl (GameStateError NotFound)) ∧
  game_engine.seer_peek "u0" second_seer_night
  = (second_seer_night, inl (GameStateError NotAlive)) ∧
  game_engine.wolves_vote "nobody" (set_phase night_wolves second_seer_night)
  = (set_phase night_wolves second_seer_night, inl (GameStateError NotFound)) ∧
  game_engine.wolves_vote "u0" (set_phase night_wolves second_seer_night)
  = (set_phase night_wolves second_seer_night, inl (GameStateError NotAlive)).
Proof.
  destruct (night_target_must_be_alive second_seer_night "nobody") as [Ha _].
  destruct (night_target_must_be_alive second_seer_night "u0") as [_ Hb].
  destruct (night_target_must_be_alive (set_phase night_wolves second_seer_night) "nobody")
    as [Hc _].
  destruct (night_target_must_be_alive (set_phase night_wolves second_seer_night) "u0")
    as [_ Hd].
  split_and!.
  - apply Ha; reflexivity.
  - eapply Hb; reflexivity.
  - apply Hc; reflexivity.
  - eapply Hd; reflexivity.
Defined.

(** X6: a peek, a vote or the start of a night that raises, for whatever
    reason, has not touched the session. *)
Theorem night_calls_fail_clean (g g' : Game) (e : Exception) :
  (∀ t, game_engine.seer_peek t g = (g', inl e) → g' = g) ∧
  (∀ t, game_engine.wolves_vote t g = (g', inl e) → g' = g) ∧
  (game_engine.start_next_night g = (g', inl e) → g' = g).
Proof.
  repeat split; intros; revert select (_ = (g', inl e)); run_engine.
Qed.

Lemma night_calls_fail_clean_witness :
  game_engine.seer_peek "u0" second_seer_night
  = (second_seer_night, inl (GameStateError NotAlive)) ∧
  second_seer_night = second_seer_night.
Proof.
  assert (game_engine.seer_peek "u0" second_seer_night
          = (second_seer_night, inl (GameStateError NotAlive))) as Hrun by reflexivity.
  split; [exact Hrun|].
  exact (proj1 (night_calls_fail_clean second_seer_night second_seer_night _) _ Hrun).
Defined.

(** ** The wolves' turn, and a whole night *)

(** X7: in the wolves' phase, a vote against an identifier that refers to
    a living player returns that identifier, records it as the pending
    kill and moves to the witch's phase; nobody dies yet, and the
    players, the potions and every other field are as before. *)
Theorem wolves_vote_frame (g : Game) (t : string) (i : nat) (p : Player) :
  phase g = night_wolves →
  lookup_player t (players g) = Some (i, p) →
  status p = alive →
  game_engine.wolves_vote t g = (set_phase night_witch (set_last_killed (Some t) g), inr t) ∧
  players (set_phase night_witch (set_last_killed (Some t) g)) = players g ∧
  potions (set_phase night_witch (set_last_killed (Some t) g)) = potions g.
Proof.
  intros Hph Hfind Halive. split; [|done].
  pose proof (lookup_player_Some _ _ _ _ Hfind) as [_ Hid].
  run_engine.
Qed.

Lemma wolves_vote_frame_witness :
  game_engine.wolves_vote "u3" (set_phase night_wolves seer_night)
  = (set_phase night_witch
       (set_last_killed (Some "u3") (set_phase night_wolves seer_night)), inr "u3") ∧
  players (set_phase night_witch
             (set_last_killed (Some "u3") (set_phase night_wolves seer_night)))
  = players (set_phase night_wolves seer_night) ∧
  potions (set_phase night_witch
             (set_last_killed (Some "u3") (set_phase night_wolves seer_night)))
  = potions (set_phase night_wolves seer_night).
Proof.
  eapply (wolves_vote_frame (set_phase night_wolves seer_night) "u3"); reflexivity.
Defined.

(** X8: a whole night, call after call.  From the seer's phase, a peek at
    a living player, a vote against a living player, a pass of the witch
    and the start of the next night all succeed, and lead back to the
    seer's phase in a session that differs from the first one in exactly
    this: the player voted against is dead, and no kill is pending. *)
Theorem uneventful_night (g : Game) (t1 t2 : string) (i1 i2 : nat) (p1 p2 : Player) :
  phase g = night_seer →
  lookup_player t1 (players g) = Some (i1, p1) → status p1 = alive →
  lookup_player t2 (players g) = Some (i2, p2) → status p2 = alive →
  t2 ≠ EmptyString →
  (game_engine.seer_peek t1;; game_engine.wolves_vote t2;;
   game_engine.witch_action false None;; game_engine.start_next_night) g
  = (set_last_killed None (set_players (alter (set_status dead) i2 (players g)) g),
     inr tt).
Proof.
  intros Hph H1 Ha1 H2 Ha2 Hne.
  pose proof (lookup_player_Some _ _ _ _ H2) as [_ Hid].
  assert (game_engine.seer_peek t1 g = (set_phase night_wolves g, inr (role p1))) as Hpeek
    by run_engine.
  assert (game_engine.wolves_vote t2 (set_phase night_wolves g)
          = (set_phase night_witch (set_last_killed (Some t2) g), inr t2)) as Hvote
    by run_engine.
  rewrite (bind_eval _ _ _ _ _ Hpeek), (bind_eval _ _ _ _ _ Hvote).
  rewrite (bind_eval _ _ _ _ _
             (witch_pass_kills (set_phase night_witch (set_last_killed (Some t2) g))
                t2 i2 p2 eq_refl eq_refl Hne H2)).
  destruct g; cbn in *. subst. reflexivity.
Qed.

Lemma uneventful_night_witness :
  (game_engine.seer_peek "u1";; game_engine.wolves_vote "u3";;
   game_engine.witch_action false None;; game_engine.start_next_night) seer_night
  = (set_last_killed None
       (set_players (alter (set_status dead) 3%nat (players seer_night)) seer_night),
     inr tt).
Proof.
  eapply (uneventful_night seer_night "u1" "u3"); try reflexivity. intros [=].
Defined.

(** ** Dealing the roles *)

Lemma filter_replicate_length (r r' : Role) (n : nat) :
  length (filter (λ x, x = r) (replicate n r')) = if decide (r' = r) then n else 0%nat.
Proof.
  induction n as [|n IH]; [by case_decide|].
  change (replicate (S n) r') with (r' :: replicate n r').
  rewrite filter_cons. case_decide; cbn; by rewrite IH.
Qed.

(** The bag of roles for [n] players, role by role. *)
Lemma bag_of_distribution (n : Z) :
  (5 ≤ n)%Z →
  ∃ d, roles.role_distribution n = inr d ∧
       roles.bag_of d
       = seer :: replicate (if (6 <=? n)%Z then 1 else 0)%nat witch
              ++ replicate (Z.to_nat (roles._wolf_count n)) wolf
              ++ replicate (Z.to_nat n - 1 - (if (6 <=? n)%Z then 1 else 0)
                            - Z.to_nat (roles._wolf_count n))%nat villager ∧
       length (roles.bag_of d) = Z.to_nat n.
Proof.
  intros Hn. eexists. split; [by apply role_distribution_ok|].
  assert (Hw : (1 ≤ roles._wolf_count n ≤ 3)%Z ∧ (n ≤ 6 → roles._wolf_count n = 1)%Z).
  { unfold roles._wolf_count. destruct (Z.leb_spec n 6), (Z.leb_spec n 9); lia. }
  unfold roles.bag_of. cbn [flat_map fst snd].
  rewrite app_nil_r.
  assert (Z.to_nat (if (6 <=? n)%Z then 1 else 0) = (if (6 <=? n)%Z then 1 else 0)%nat) as ->
    by (by destruct (6 <=? n)%Z).
  assert (Z.to_nat (n - (1 + ((if (6 <=? n)%Z then 1 else 0) + (roles._wolf_count n + 0))))
          = (Z.to_nat n - 1 - (if (6 <=? n)%Z then 1 else 0)
             - Z.to_nat (roles._wolf_count n))%nat) as ->
    by (destruct (Z.leb_spec 6 n); lia).
  split; [done|].
  rewrite !length_app, !length_replicate. destruct (Z.leb_spec 6 n); lia.
Qed.

(** Pairing identifiers with a bag long enough: every identifier gets the
    role at its position, and nothing else is bound. *)
Lemma pair_by_position_spec (bag : list Role) (ids : list string) :
  ∀ (index : nat) (acc : gmap string Role),
    NoDup ids → (index + length ids ≤ length bag)%nat →
    ∃ m, roles.pair_by_position bag index ids acc = inr m ∧
         (∀ j k, ids !! j = Some k → m !! k = bag !! (index + j)%nat) ∧
         (∀ k, k ∉ ids → m !! k = acc !! k).
Proof.
  induction ids as [|k0 ids IH]; intros index acc Hnd Hlen; cbn.
  - eexists. split; [done|]. split; [by intros ??|done].
  - apply NoDup_cons in Hnd as [Hk0 Hnd]. cbn in Hlen.
    destruct (lookup_lt_is_Some_2 bag index) as [r Hr]; [lia|]. rewrite Hr.
    destruct (IH (S index) (<[k0:=r]> acc) Hnd) as (m & Hrun & Hin & Hout); [lia|].
    exists m. split; [done|]. split.
    + intros [|j] k Hj; cbn in Hj.
      * simplify_eq. rewrite Hout by done. rewrite lookup_insert_eq.
        by rewrite Nat.add_0_r.
      * rewrite (Hin j k Hj). f_equal. lia.
    + intros k [Hne Hk]%not_elem_of_cons. rewrite Hout by done.
      by rewrite lookup_insert_ne.
Qed.

(** What [roles.assign_roles] hands out, for five or more distinct
    identifiers. *)
Lemma roles_assign_roles_deals `{Environment} `{!ShufflePermutes}
    (ids : list string) (seed : option Z) :
  NoDup ids → (5 ≤ length ids)%nat →
  ∃ d m,
    roles.role_distribution (Z.of_nat (length ids)) = inr d ∧
    roles.assign_roles ids seed = inr m ∧
    (∀ k, is_Some (m !! k) ↔ k ∈ ids) ∧
    (λ k, default villager (m !! k)) <$> ids ≡ₚ roles.bag_of d.
Proof.
  intros Hnd Hlen.
  destruct (bag_of_distribution (Z.of_nat (length ids))) as (d & Hd & _ & Hbag); [lia|].
  rewrite Nat2Z.id in Hbag.
  unfold roles.assign_roles. rewrite Hd.
  pose proof (shuffle_ids_perm seed ids) as Hids.
  pose proof (shuffle_bag_perm seed ids (roles.bag_of d)) as Hbags.
  destruct (pair_by_position_spec (shuffle_bag seed ids (roles.bag_of d))
              (shuffle_ids seed ids) 0 ∅) as (m & Hrun & Hin & Hout).
  { by rewrite Hids. }
  { rewrite Hids, Hbags. cbn. lia. }
  exists d, m. split; [done|]. split; [done|].
  assert (length (shuffle_ids seed ids) = length (shuffle_bag seed ids (roles.bag_of d)))
    as Hsame by (rewrite Hids, Hbags; lia).
  split.
  - intros k. rewrite <-Hids. split.
    + intros Hsome. destruct (decide (k ∈ shuffle_ids seed ids)) as [|Hk]; [done|].
      rewrite (Hout k Hk), lookup_empty in Hsome. by destruct Hsome.
    + intros [j Hj]%list_elem_of_lookup. rewrite (Hin j k Hj). cbn.
      apply lookup_lt_is_Some_2. rewrite <-Hsame. by eapply lookup_lt_Some.
  - etrans; [apply fmap_Permutation; symmetry; exact Hids|].
    etrans; [|exact Hbags].
    assert ((λ k, default villager (m !! k)) <$> shuffle_ids seed ids
            = shuffle_bag seed ids (roles.bag_of d)) as ->; [|done].
    apply list_eq. intros j. rewrite list_lookup_fmap.
    destruct (shuffle_ids seed ids !! j) as [k|] eqn:Hj; cbn.
    + rewrite (Hin j k Hj). cbn.
      destruct (lookup_lt_is_Some_2 (shuffle_bag seed ids (roles.bag_of d)) j) as [r Hr].
      { rewrite <-Hsame. by eapply lookup_lt_Some. }
      by rewrite Hr.
    + symmetry. apply lookup_ge_None. rewrite <-Hsame. by apply lookup_ge_None.
Qed.

(** With every identifier bound, the loop of [assign_roles] updates every
    player and raises nothing. *)
Lemma assign_each_total (m : gmap string Role) (ps : list Player) :
  (∀ p, p ∈ ps → is_Some (m !! id p)) →
  game_engine.assign_each m ps
  = ((λ p, set_status alive (set_role (default villager (m !! id p)) p)) <$> ps, None).
Proof.
  induction ps as [|p ps IH]; intros Hall; cbn; [done|].
  destruct (Hall p) as [r Hr]; [by left|]. rewrite Hr. cbn.
  rewrite IH; [done|]. intros q Hq. apply Hall. by right.
Qed.

Lemma count_role_fmap (ps : list Player) (r : Role) :
  utils.count_role ps r = length (filter (λ x, x = r) (role <$> ps)).
Proof.
  unfold utils.count_role. induction ps as [|p ps IH]; [done|].
  rewrite fmap_cons, !filter_cons. case_decide; cbn; by rewrite IH.
Qed.

Lemma filter_all {A} (P : A → Prop) `{∀ x, Decision (P x)} (l : list A) :
  Forall P l → filter P l = l.
Proof.
  induction 1 as [|x l Hx Hl IH]; [done|]. rewrite filter_cons, decide_True by done.
  by rewrite IH.
Qed.

Lemma bag_counts (r : Role) (a b c : nat) (bag : list Role) :
  bag = seer :: replicate a witch ++ replicate b wolf ++ replicate c villager →
  length (filter (λ x, x = r) bag)
  = match r with seer => 1%nat | witch => a | wolf => b | villager => c end.
Proof.
  intros ->.
  change (seer :: ?l) with (replicate 1 seer ++ l).
  rewrite !filter_app, !length_app, !filter_replicate_length.
  destruct r; repeat case_decide; try done; lia.
Qed.

(** The session [assign_roles] leaves, and what it returns, in a lobby of
    five or more players with distinct identifiers. *)
Lemma assign_roles_deals `{Environment} `{!ShufflePermutes} (g : Game) (seed : option Z) :
  phase g = lobby → (5 ≤ length (players g))%nat → NoDup (id <$> players g) →
  ∃ d m ps,
    roles.role_distribution (Z.of_nat (length (players g))) = inr d ∧
    game_engine.assign_roles seed g = (set_phase night_seer (set_players ps g), inr m) ∧
    ps = (λ p, set_status alive (set_role (default villager (m !! id p)) p)) <$> players g ∧
    (∀ k, is_Some (m !! k) ↔ k ∈ id <$> players g) ∧
    role <$> ps ≡ₚ roles.bag_of d.
Proof.
  intros Hph Hlen Hnd.
  destruct (roles_assign_roles_deals (id <$> players g) seed) as (d & m & Hd & Hm & Hkeys & Hbag);
    [done|by rewrite length_fmap|].
  rewrite length_fmap in Hd.
  exists d, m, ((λ p, set_status alive (set_role (default villager (m !! id p)) p))
                <$> players g).
  split; [done|]. split; [|split; [done|split; [done|]]].
  - unfold game_engine.assign_roles, mbind, M_bind, get.
    rewrite decide_False by (by rewrite Hph; intros ?).
    rewrite Hm, assign_each_total; [done|].
    intros p Hp. apply Hkeys. by apply list_elem_of_fmap_2.
  - rewrite <-Hbag, <-!list_fmap_compose. done.
Qed.

(** X9: [roles.assign_roles] on five or more distinct identifiers, the
    shuffles being permutations: it returns a dictionary whose keys are
    exactly the identifiers given, and the roles it hands out are, counted
    with multiplicity, exactly the bag the quota prescribes for that many
    players.  On fewer than five identifiers it raises the
    insufficient-players error. *)
Theorem roles_assign_roles_spec `{Environment} `{!ShufflePermutes}
    (ids : list string) (seed : option Z) :
  (NoDup ids → (5 ≤ length ids)%nat →
   ∃ d m,
     roles.role_distribution (Z.of_nat (length ids)) = inr d ∧
     roles.assign_roles ids seed = inr m ∧
     (∀ k, is_Some (m !! k) ↔ k ∈ ids) ∧
     (λ k, default villager (m !! k)) <$> ids ≡ₚ roles.bag_of d ∧
     length (roles.bag_of d) = length ids) ∧
  ((length ids < 5)%nat →
   roles.assign_roles ids seed = inl (ValueError InsufficientPlayers)).
Proof.
  split.
  - intros Hnd Hlen.
    destruct (roles_assign_roles_deals ids seed Hnd Hlen) as (d & m & Hd & Hm & Hkeys & Hbag).
    exists d, m. split_and!; try done.
    by rewrite <-Hbag, length_fmap.
  - intros Hlen. unfold roles.assign_roles, roles.role_distribution.
    by destruct (Z.ltb_spec (Z.of_nat (length ids)) 5); [|lia].
Qed.

Lemma demo_shuffles : @ShufflePermutes demo_environment.
Proof. split; reflexivity. Qed.

Lemma roles_assign_roles_spec_witness :
  ∃ d m,
    roles.role_distribution (Z.of_nat (length (id <$> six_players))) = inr d ∧
    @roles.assign_roles demo_environment (id <$> six_players) None = inr m ∧
    (∀ k, is_Some (m !! k) ↔ k ∈ id <$> six_players) ∧
    (λ k, default villager (m !! k)) <$> (id <$> six_players) ≡ₚ roles.bag_of d ∧
    length (roles.bag_of d) = length (id <$> six_players).
Proof.
  assert (NoDup (id <$> six_players)) as Hnd
    by (apply (bool_decide_unpack _); vm_compute; reflexivity).
  assert (5 ≤ length (id <$> six_players))%nat as Hlen by (vm_compute; lia).
  exact (proj1 (@roles_assign_roles_spec demo_environment demo_shuffles
                  (id <$> six_players) None) Hnd Hlen).
Defined.

(** X10: [assign_roles] in a lobby of five or more players with distinct
    identifiers, the shuffles being permutations: the call succeeds and
    opens the first night at the seer's phase; the players are the same,
    in the same order, under the same names, all alive, each with the role
    the returned dictionary gives its identifier; and the table counts
    exactly one seer, one witch from six players on and none below, one
    wolf up to six players, two up to nine and three beyond, everybody
    else a villager.  The pending kill, the potions and the histories are
    untouched. *)
Theorem assign_roles_spec `{Environment} `{!ShufflePermutes} (g : Game) (seed : option Z) :
  phase g = lobby → (5 ≤ length (players g))%nat → NoDup (id <$> players g) →
  ∃ m g',
    game_engine.assign_roles seed g = (g', inr m) ∧
    phase g' = night_seer ∧
    id <$> players g' = id <$> players g ∧
    name <$> players g' = name <$> players g ∧
    Forall (λ p, status p = alive ∧ m !! id p = Some (role p)) (players g') ∧
    utils.count_role (players g') seer = 1%nat ∧
    utils.count_role (players g') witch
    = (if decide (6 ≤ length (players g))%nat then 1 else 0)%nat ∧
    utils.count_role (players g') wolf
    = (if decide (length (players g) ≤ 6)%nat then 1
       else if decide (length (players g) ≤ 9)%nat then 2 else 3)%nat ∧
    (utils.count_role (players g') seer + utils.count_role (players g') witch
     + utils.count_role (players g') wolf + utils.count_role (players g') villager
     = length (players g))%nat ∧
    last_killed g' = last_killed g ∧ potions g' = potions g ∧
    history g' = history g ∧ chat_history g' = chat_history g ∧ code g' = code g.
Proof.
  intros Hph Hlen Hnd.
  destruct (assign_roles_deals g seed Hph Hlen Hnd) as (d & m & ps & Hd & Hrun & Hps & Hkeys & Hbag).
  destruct (bag_of_distribution (Z.of_nat (length (players g)))) as (d' & Hd' & Hshape & _);
    [lia|].
  rewrite Hd in Hd'. injection Hd' as <-.
  exists m, (set_phase night_seer (set_players ps g)).
  split; [done|]. split; [done|]. cbn [players set_phase set_players].
  assert (∀ r, utils.count_role ps r
               = length (filter (λ x, x = r) (roles.bag_of d))) as Hcount.
  { intros r. by rewrite count_role_fmap, Hbag. }
  rewrite !Hcount, !(bag_counts _ _ _ _ _ Hshape).
  assert (Z.to_nat (roles._wolf_count (Z.of_nat (length (players g))))
          = (if decide (length (players g) ≤ 6)%nat then 1
             else if decide (length (players g) ≤ 9)%nat then 2 else 3)%nat) as ->.
  { unfold roles._wolf_count.
    destruct (Z.leb_spec (Z.of_nat (length (players g))) 6),
             (Z.leb_spec (Z.of_nat (length (players g))) 9);
      repeat case_decide; lia. }
  assert ((if (6 <=? Z.of_nat (length (players g)))%Z then 1 else 0)%nat
          = (if decide (6 ≤ length (players g))%nat then 1 else 0)%nat) as ->.
  { destruct (Z.leb_spec 6 (Z.of_nat (length (players g)))); case_decide; lia. }
  rewrite Nat2Z.id.
  split_and!; try done.
  - subst ps. rewrite <-list_fmap_compose. by apply list_fmap_ext.
  - subst ps. rewrite <-list_fmap_compose. by apply list_fmap_ext.
  - subst ps. apply Forall_fmap, Forall_forall. intros p Hp. cbn. split; [done|].
    destruct (proj2 (Hkeys (id p))) as [r Hr]; [by apply list_elem_of_fmap_2|].
    by rewrite Hr.
  - repeat case_decide; lia.
Qed.

Lemma assign_roles_spec_witness :
  ∃ m g',
    @game_engine.assign_roles demo_environment None lobby_of_six = (g', inr m) ∧
    phase g' = night_seer ∧
    id <$> players g' = id <$> players lobby_of_six ∧
    name <$> players g' = name <$> players lobby_of_six ∧
    Forall (λ p, status p = alive ∧ m !! id p = Some (role p)) (players g') ∧
    utils.count_role (players g') seer = 1%nat ∧
    utils.count_role (players g') witch
    = (if decide (6 ≤ length (players lobby_of_six))%nat then 1 else 0)%nat ∧
    utils.count_role (players g') wolf
    = (if decide (length (players lobby_of_six) ≤ 6)%nat then 1
       else if decide (length (players lobby_of_six) ≤ 9)%nat then 2 else 3)%nat ∧
    (utils.count_role (players g') seer + utils.count_role (players g') witch
     + utils.count_role (players g') wolf + utils.count_role (players g') villager
     = length (players lobby_of_six))%nat ∧
    last_killed g' = last_killed lobby_of_six ∧ potions g' = potions lobby_of_six ∧
    history g' = history lobby_of_six ∧ chat_history g' = chat_history lobby_of_six ∧
    code g' = code lobby_of_six.
Proof.
  assert (phase lobby_of_six = lobby) as Hph by reflexivity.
  assert (5 ≤ length (players lobby_of_six))%nat as Hlen by (vm_compute; lia).
  assert (NoDup (id <$> players lobby_of_six)) as Hnd
    by (apply (bool_decide_unpack _); vm_compute; reflexivity).
  exact (@assign_roles_spec demo_environment demo_shuffles lobby_of_six None Hph Hlen Hnd).
Defined.

(** ** Counting the living *)

Lemma filter_complement_length {A} (P : A → Prop) `{∀ x, Decision (P x)} (l : list A) :
  (length (filter P l) + length (filter (λ x, ¬ P x) l) = length l)%nat.
Proof. by rewrite <-length_app, filter_app_complement. Qed.

(** The summary, against the verdict. *)
Lemma living_roles_summary_agrees (g : Game) :
  let wolves := (game_engine.living_roles_summary g).1 in
  let others := (game_engine.living_roles_summary g).2 in
  wolves = length (filter (λ p, role p = wolf) (utils.alive_players (players g))) ∧
  others = Z.of_nat (length (filter (λ p, role p ≠ wolf) (utils.alive_players (players g)))) ∧
  game_engine.is_game_over g
  = (if decide (wolves = 0%nat) then (true, Some "village")
     else if decide (others ≤ Z.of_nat wolves)%Z then (true, Some "wolves")
     else (false, None)).
Proof.
  cbn zeta. unfold game_engine.living_roles_summary, game_engine.is_game_over.
  unfold utils.count_wolves, utils.count_role. cbn [fst snd].
  pose proof (filter_complement_length (λ p, role p = wolf)
                (utils.alive_players (players g))) as Hsum.
  split; [done|]. split; [lia|].
  destruct (filter (λ p, role p = wolf) (utils.alive_players (players g))) as [|w ws] eqn:Hw.
  - by rewrite !decide_True.
  - rewrite (decide_False (P := _ = [])) by done.
    rewrite (decide_False (P := _ = 0%nat)) by done.
    repeat case_decide; try done; cbn in *; lia.
Qed.

(** X11: the two numbers of [living_roles_summary] are the sizes of the
    two camps [is_game_over] compares, and they decide its verdict: the
    village has won exactly when no wolf is counted, the wolves have won
    exactly when a wolf is counted and the others are no more than the
    wolves, and otherwise the game goes on. *)
Theorem living_roles_summary_decides (g : Game) :
  let wolves := (game_engine.living_roles_summary g).1 in
  let others := (game_engine.living_roles_summary g).2 in
  wolves = length (filter (λ p, role p = wolf) (utils.alive_players (players g))) ∧
  others = Z.of_nat (length (filter (λ p, role p ≠ wolf) (utils.alive_players (players g)))) ∧
  game_engine.is_game_over g
  = (if decide (wolves = 0%nat) then (true, Some "village")
     else if decide (others ≤ Z.of_nat wolves)%Z then (true, Some "wolves")
     else (false, None)).
Proof. apply living_roles_summary_agrees. Qed.

(** X12: a table just dealt is a game that goes on.  After [assign_roles]
    in a lobby of five or more players with distinct identifiers, the
    shuffles being permutations, nobody has won: there is a living wolf
    and the others outnumber the wolves. *)
Theorem fresh_deal_is_not_over `{Environment} `{!ShufflePermutes} (g : Game) (seed : option Z) :
  phase g = lobby → (5 ≤ length (players g))%nat → NoDup (id <$> players g) →
  ∃ m g',
    game_engine.assign_roles seed g = (g', inr m) ∧
    game_engine.is_game_over g' = (false, None) ∧
    (0 < (game_engine.living_roles_summary g').1)%nat ∧
    (Z.of_nat (game_engine.living_roles_summary g').1
     < (game_engine.living_roles_summary g').2)%Z.
Proof.
  intros Hph Hlen Hnd.
  destruct (assign_roles_deals g seed Hph Hlen Hnd)
    as (d & m & ps & Hd & Hrun & Hps & Hkeys & Hbag).
  destruct (bag_of_distribution (Z.of_nat (length (players g)))) as (d' & Hd' & Hshape & _);
    [lia|].
  rewrite Hd in Hd'. injection Hd' as <-.
  exists m, (set_phase night_seer (set_players ps g)). split; [done|].
  assert (utils.alive_players ps = ps) as Halive.
  { apply filter_all. subst ps. by apply Forall_fmap, Forall_forall. }
  assert (length ps = length (players g)) as Hsize by (by subst ps; rewrite length_fmap).
  assert (utils.count_role ps wolf
          = Z.to_nat (roles._wolf_count (Z.of_nat (length (players g))))) as Hwolves.
  { by rewrite count_role_fmap, Hbag, (bag_counts _ _ _ _ _ Hshape). }
  assert (1 ≤ utils.count_role ps wolf ∧ 2 * utils.count_role ps wolf < length ps)%nat
    as [Hone Hfew].
  { rewrite Hwolves, Hsize. unfold roles._wolf_count.
    destruct (Z.leb_spec (Z.of_nat (length (players g))) 6),
             (Z.leb_spec (Z.of_nat (length (players g))) 9); lia. }
  destruct (living_roles_summary_agrees (set_phase night_seer (set_players ps g)))
    as (Hw & Ho & Hover).
  cbn [players set_phase set_players] in *. rewrite Halive in *.
  unfold utils.count_role in Hone, Hfew.
  pose proof (filter_complement_length (λ p, role p = wolf) ps) as Hsum.
  rewrite Hover, Hw, Ho.
  rewrite decide_False by lia. rewrite decide_False by lia.
  split; [done|]. lia.
Qed.

Lemma fresh_deal_is_not_over_witness :
  ∃ m g',
    @game_engine.assign_roles demo_environment None lobby_of_six = (g', inr m) ∧
    game_engine.is_game_over g' = (false, None) ∧
    (0 < (game_engine.living_roles_summary g').1)%nat ∧
    (Z.of_nat (game_engine.living_roles_summary g').1
     < (game_engine.living_roles_summary g').2)%Z.
Proof.
  assert (phase lobby_of_six = lobby) as Hph by reflexivity.
  assert (5 ≤ length (players lobby_of_six))%nat as Hlen by (vm_compute; lia).
  assert (NoDup (id <$> players lobby_of_six)) as Hnd
    by (apply (bool_decide_unpack _); vm_compute; reflexivity).
  exact (@fresh_deal_is_not_over demo_environment demo_shuffles lobby_of_six None
           Hph Hlen Hnd).
Defined.

(** ** Session codes and player names ([utils.py]) *)

Lemma map_chars_length (f : ascii → ascii) (s : string) :
  String.length (pystr.map_chars f s) = String.length s.
Proof. induction s as [|c s IH]; cbn; [done|]. by rewrite IH. Qed.

Lemma map_chars_compose (f g h : ascii → ascii) (s : string) :
  (∀ c, f (g c) = h c) → pystr.map_chars f (pystr.map_chars g s) = pystr.map_chars h s.
Proof. intros Hfg. induction s as [|c s IH]; cbn; [done|]. by rewrite Hfg, IH. Qed.

Lemma upper_char_upper_char (c : ascii) :
  pystr.upper_char (pystr.upper_char c) = pystr.upper_char c.
Proof. destruct c as [[] [] [] [] [] [] [] []]; vm_compute; reflexivity. Qed.

Lemma upper_char_lower_char (c : ascii) :
  pystr.upper_char (pystr.lower_char c) = pystr.upper_char c.
Proof. destruct c as [[] [] [] [] [] [] [] []]; vm_compute; reflexivity. Qed.

Lemma lower_char_upper_char (c : ascii) :
  pystr.lower_char (pystr.upper_char c) = pystr.lower_char c.
Proof. destruct c as [[] [] [] [] [] [] [] []]; vm_compute; reflexivity. Qed.

Lemma lower_char_lower_char (c : ascii) :
  pystr.lower_char (pystr.lower_char c) = pystr.lower_char c.
Proof. destruct c as [[] [] [] [] [] [] [] []]; vm_compute; reflexivity. Qed.

Lemma is_space_upper_char (c : ascii) :
  pystr.is_space (pystr.upper_char c) = pystr.is_space c.
Proof. destruct c as [[] [] [] [] [] [] [] []]; vm_compute; reflexivity. Qed.

Lemma is_space_lower_char (c : ascii) :
  pystr.is_space (pystr.lower_char c) = pystr.is_space c.
Proof. destruct c as [[] [] [] [] [] [] [] []]; vm_compute; reflexivity. Qed.

(** Every character of the alphabet is its own upper case. *)
Lemma alphabet_is_upper (c : ascii) :
  c ∈ utils.GAME_CODE_ALPHABET → pystr.upper_char c = c.
Proof.
  assert (Forall (λ c, pystr.upper_char c = c) utils.GAME_CODE_ALPHABET) as Hall.
  { apply (bool_decide_unpack _). vm_compute. reflexivity. }
  intros Hc. by eapply Forall_forall in Hall.
Qed.

Lemma choice_in_alphabet `{Environment} (n : nat) : utils.choice n ∈ utils.GAME_CODE_ALPHABET.
Proof.
  unfold utils.choice.
  destruct (lookup_lt_is_Some_2 utils.GAME_CODE_ALPHABET
              (system_random n `mod` length utils.GAME_CODE_ALPHABET)) as [c Hc].
  { apply Nat.mod_upper_bound. vm_compute. lia. }
  rewrite Hc. cbn. by eapply list_elem_of_lookup_2.
Qed.

Lemma generate_game_code_chars `{Environment} (length0 n : nat) :
  String.length (utils.generate_game_code n length0) = length0 ∧
  Forall (λ c, c ∈ utils.GAME_CODE_ALPHABET) (pystr.chars (utils.generate_game_code n length0)) ∧
  pystr.upper (utils.generate_game_code n length0) = utils.generate_game_code n length0.
Proof.
  revert n. induction length0 as [|k IH]; intros n; cbn; [done|].
  destruct (IH (S n)) as (Hlen & Hall & Hup).
  split_and!.
  - by rewrite Hlen.
  - constructor; [apply choice_in_alphabet|done].
  - unfold pystr.upper in *. rewrite Hup.
    by rewrite (alphabet_is_upper _ (choice_in_alphabet n)).
Qed.

Lemma forallb_Forall_chars (cs : list ascii) :
  forallb (λ char, bool_decide (char ∈ utils.GAME_CODE_ALPHABET)) cs = true
  ↔ Forall (λ c, c ∈ utils.GAME_CODE_ALPHABET) cs.
Proof.
  induction cs as [|c cs IH]; cbn; [done|].
  rewrite andb_true_iff, IH, bool_decide_eq_true, Forall_cons. done.
Qed.

(** X13: a generated code has the length asked for, is drawn from the
    alphabet of capital letters and digits, is its own upper case, and,
    at the default length of six, is accepted by [validate_game_code]:
    whatever the random draws, [tool_create_game] never generates a code
    it would itself refuse.  At any other length it is refused. *)
Theorem generated_code_is_valid `{Environment} (n length0 : nat) :
  String.length (utils.generate_game_code n length0) = length0 ∧
  Forall (λ c, c ∈ utils.GAME_CODE_ALPHABET) (pystr.chars (utils.generate_game_code n length0)) ∧
  pystr.upper (utils.generate_game_code n length0) = utils.generate_game_code n length0 ∧
  utils.validate_game_code (utils.generate_game_code n length0)
  = bool_decide (length0 = 6%nat).
Proof.
  destruct (generate_game_code_chars length0 n) as (Hlen & Hall & Hup).
  split_and!; try done.
  unfold utils.validate_game_code. rewrite Hlen, Hup.
  apply forallb_Forall_chars in Hall. rewrite Hall. by rewrite andb_true_r.
Qed.

(** X14: on an ASCII code, [validate_game_code] does not look at the
    case of letters: the code, its upper case and its lower case are
    accepted or refused together.  An ASCII code it accepts has six
    characters, and its upper case, the form the dispatcher stores, is
    made of capital letters and digits only and is unchanged by
    [upper]. *)
Theorem validate_game_code_ignores_case (c : string) :
  pystr.isascii c = true →
  utils.validate_game_code (pystr.upper c) = utils.validate_game_code c ∧
  utils.validate_game_code (pystr.lower c) = utils.validate_game_code c ∧
  (utils.validate_game_code c = true →
   String.length c = 6%nat ∧
   Forall (λ x, x ∈ utils.GAME_CODE_ALPHABET) (pystr.chars (pystr.upper c)) ∧
   pystr.upper (pystr.upper c) = pystr.upper c).
Proof.
  intros _.
  unfold utils.validate_game_code, pystr.upper, pystr.lower.
  rewrite !map_chars_length.
  rewrite (map_chars_compose _ _ _ c upper_char_upper_char).
  rewrite (map_chars_compose _ _ _ c upper_char_lower_char).
  split_and!; try done.
  intros [Hlen Hall]%andb_true_iff. split_and!.
  - by apply bool_decide_eq_true in Hlen.
  - by apply forallb_Forall_chars.
  - done.
Qed.

Lemma validate_game_code_ignores_case_witness :
  pystr.isascii "ab12cd" = true ∧
  utils.validate_game_code "AB12CD" = utils.validate_game_code "ab12cd" ∧
  utils.validate_game_code "ab12cd" = true ∧
  String.length "ab12cd" = 6%nat ∧
  Forall (λ x, x ∈ utils.GAME_CODE_ALPHABET) (pystr.chars (pystr.upper "ab12cd")) ∧
  pystr.upper (pystr.upper "ab12cd") = pystr.upper "ab12cd".
Proof.
  assert (pystr.isascii "ab12cd" = true) as Hascii by reflexivity.
  assert (utils.validate_game_code "ab12cd" = true) as Hok by (vm_compute; reflexivity).
  destruct (validate_game_code_ignores_case "ab12cd" Hascii) as (Hupper & _ & Haccepted).
  split; [exact Hascii|]. split; [exact Hupper|]. split; [exact Hok|].
  exact (Haccepted Hok).
Defined.

Lemma chars_inj (s t : string) : pystr.chars s = pystr.chars t → s = t.
Proof.
  revert t. induction s as [|c s IH]; intros [|c' t]; cbn; try done.
  intros [= -> Hrest]. by rewrite (IH t).
Qed.

Lemma chars_rev_app (s t : string) :
  pystr.chars (String.rev_app s t) = reverse (pystr.chars s) ++ pystr.chars t.
Proof.
  revert t. induction s as [|c s IH]; intros t; [done|].
  cbn [String.rev_app pystr.chars]. rewrite IH. cbn [pystr.chars].
  rewrite reverse_cons, <-app_assoc. done.
Qed.

Lemma chars_rev (s : string) : pystr.chars (String.rev s) = reverse (pystr.chars s).
Proof. unfold String.rev. by rewrite chars_rev_app, app_nil_r. Qed.

Lemma rev_rev (s : string) : String.rev (String.rev s) = s.
Proof. apply chars_inj. by rewrite !chars_rev, reverse_involutive. Qed.

Lemma rev_map_chars (f : ascii → ascii) (s : string) :
  String.rev (pystr.map_chars f s) = pystr.map_chars f (String.rev s).
Proof.
  assert (∀ s, pystr.chars (pystr.map_chars f s) = f <$> pystr.chars s) as Hmap.
  { intros u. induction u as [|c u IH]; cbn; [done|]. by rewrite IH. }
  apply chars_inj. by rewrite chars_rev, !Hmap, chars_rev, fmap_reverse.
Qed.

Lemma lstrip_map_chars (f : ascii → ascii) (s : string) :
  (∀ c, pystr.is_space (f c) = pystr.is_space c) →
  pystr.lstrip (pystr.map_chars f s) = pystr.map_chars f (pystr.lstrip s).
Proof.
  intros Hf. induction s as [|c s IH]; cbn; [done|].
  rewrite Hf. by destruct (pystr.is_space c).
Qed.

Lemma strip_map_chars (f : ascii → ascii) (s : string) :
  (∀ c, pystr.is_space (f c) = pystr.is_space c) →
  pystr.strip (pystr.map_chars f s) = pystr.map_chars f (pystr.strip s).
Proof.
  intros Hf. unfold pystr.strip.
  by rewrite (lstrip_map_chars f s Hf), rev_map_chars, (lstrip_map_chars f _ Hf),
    rev_map_chars.
Qed.

(** What [lstrip] leaves does not begin with a space, is left alone by
    [lstrip], and is the end of what it was given. *)
Lemma lstrip_head (s : string) (c : ascii) :
  head (pystr.chars (pystr.lstrip s)) = Some c → pystr.is_space c = false.
Proof.
  induction s as [|c' s IH]; cbn; [done|].
  destruct (pystr.is_space c') eqn:Hc'; [done|]. cbn. by intros [= <-].
Qed.

Lemma lstrip_id (s : string) :
  (∀ c, head (pystr.chars s) = Some c → pystr.is_space c = false) → pystr.lstrip s = s.
Proof. destruct s as [|c s]; cbn; [done|]. intros Hc. by rewrite (Hc c). Qed.

Lemma lstrip_suffix (s : string) :
  ∃ pre, pystr.chars s = pre ++ pystr.chars (pystr.lstrip s).
Proof.
  induction s as [|c s [pre IH]]; cbn; [by exists []|].
  destruct (pystr.is_space c); [|by exists []].
  exists (c :: pre). by rewrite IH.
Qed.

Lemma strip_head (s : string) (c : ascii) :
  head (pystr.chars (pystr.strip s)) = Some c → pystr.is_space c = false.
Proof.
  unfold pystr.strip. rewrite chars_rev.
  destruct (lstrip_suffix (String.rev (pystr.lstrip s))) as [pre Hpre].
  rewrite chars_rev in Hpre.
  apply (f_equal reverse) in Hpre. rewrite reverse_involutive, reverse_app in Hpre.
  destruct (reverse (pystr.chars (pystr.lstrip (String.rev (pystr.lstrip s)))))
    as [|c' rest] eqn:Hrev; cbn; [done|].
  intros [= ->]. apply (lstrip_head s). by rewrite Hpre.
Qed.

Lemma strip_strip (s : string) : pystr.strip (pystr.strip s) = pystr.strip s.
Proof.
  unfold pystr.strip at 1. rewrite (lstrip_id (pystr.strip s)) by apply strip_head.
  unfold pystr.strip. rewrite rev_rev.
  rewrite (lstrip_id (pystr.lstrip _)) by apply lstrip_head. done.
Qed.

(** X15: on ASCII names, [find_player_by_name] compares up to case and
    surrounding white space.  For an ASCII query among players with ASCII
    names: the query in upper case, in lower case or stripped finds what
    the query itself finds; the player found is the first of the list
    whose name, stripped and lowered, equals the query stripped and
    lowered; and nothing is found exactly when no player has such a
    name. *)
Theorem find_player_by_name_normalizes (ps : list Player) (n : string) :
  pystr.isascii n = true →
  Forall (λ p, pystr.isascii (name p) = true) ps →
  utils.find_player_by_name ps (pystr.upper n) = utils.find_player_by_name ps n ∧
  utils.find_player_by_name ps (pystr.lower n) = utils.find_player_by_name ps n ∧
  utils.find_player_by_name ps (pystr.strip n) = utils.find_player_by_name ps n ∧
  (∀ i p, utils.find_player_by_name ps n = Some (i, p) ↔
     ps !! i = Some p ∧
     pystr.lower (pystr.strip (name p)) = pystr.lower (pystr.strip n) ∧
     ∀ j q, ps !! j = Some q → (j < i)%nat →
            pystr.lower (pystr.strip (name q)) ≠ pystr.lower (pystr.strip n)) ∧
  (utils.find_player_by_name ps n = None ↔
     Forall (λ p, pystr.lower (pystr.strip (name p)) ≠ pystr.lower (pystr.strip n)) ps).
Proof.
  intros _ _.
  unfold utils.find_player_by_name.
  assert (pystr.lower (pystr.strip (pystr.upper n)) = pystr.lower (pystr.strip n)) as ->.
  { unfold pystr.upper, pystr.lower.
    rewrite (strip_map_chars _ n is_space_upper_char).
    apply map_chars_compose, lower_char_upper_char. }
  assert (pystr.lower (pystr.strip (pystr.lower n)) = pystr.lower (pystr.strip n)) as ->.
  { unfold pystr.lower.
    rewrite (strip_map_chars _ n is_space_lower_char).
    apply map_chars_compose, lower_char_lower_char. }
  rewrite strip_strip. split_and!; try done.
  - intros i p.
    apply (list_find_Some (λ p, pystr.lower (pystr.strip (name p))
                                = pystr.lower (pystr.strip n))).
  - apply (list_find_None (λ p, pystr.lower (pystr.strip (name p))
                                = pystr.lower (pystr.strip n))).
Qed.

Lemma find_player_by_name_normalizes_witness :
  utils.find_player_by_name six_players (pystr.upper " Dave ")
  = utils.find_player_by_name six_players " Dave " ∧
  utils.find_player_by_name six_players (pystr.strip " Dave ")
  = utils.find_player_by_name six_players " Dave " ∧
  utils.find_player_by_name six_players " Dave "
  = Some (3%nat, {| id := "u3"; name := "Dave"; role := villager; status := alive |}).
Proof.
  assert (pystr.isascii " Dave " = true) as Hquery by reflexivity.
  assert (Forall (λ p, pystr.isascii (name p) = true) six_players) as Hnames
    by (repeat constructor).
  destruct (find_player_by_name_normalizes six_players " Dave " Hquery Hnames)
    as (Hupper & _ & Hstrip & Hfound & _).
  split; [exact Hupper|]. split; [exact Hstrip|].
  apply Hfound. split; [reflexivity|]. split; [reflexivity|].
  intros j q Hj Hlt.
  destruct j as [|[|[|j]]]; [| | |exfalso; lia];
    cbn in Hj; injection Hj as <-; vm_compute; discriminate.
Defined.

(** ** The store ([db.py]) *)

(** X16: an update addressed to a code under which nothing is stored is
    silently dropped.  Setting the phase, logging an event or removing a
    player leaves the world exactly as it was and raises nothing; adding
    a player with an acceptable name still draws an identifier and
    returns it, yet no session holds a player with it: the store is as
    before. *)
Theorem updates_to_a_missing_code_are_dropped `{Environment} (c : string) (w : World) :
  store w !! c = None →
  (∀ ph, db.set_phase c ph w = (w, inr tt)) ∧
  (∀ ev, db.log_event c ev w = (w, inr tt)) ∧
  (∀ k, db.remove_player c k w = (w, inr tt)) ∧
  (∀ n, pystr.strip n ≠ EmptyString → (String.length (pystr.strip n) ≤ 40)%nat →
        db.add_player c n w
        = (set_uuid_calls (S (uuid_calls w)) w, inr (uuid7 (uuid_calls w)))).
Proof.
  intros Hfree.
  assert (∀ f, on_store (alter f c) w = w) as Hdrop.
  { intros f. destruct w as [st ctx u r]. unfold on_store, set_store. cbn in *.
    f_equal. apply map_eq. intros k. rewrite lookup_alter.
    case_decide; [subst k; by rewrite Hfree|done]. }
  unfold db.set_phase, db.log_event, db.remove_player, db.add_player, db.update_one.
  unfold mbind, M_bind, get, modify, mret, M_ret.
  split_and!; intros; rewrite ?Hdrop; try done.
  rewrite decide_False by done. rewrite decide_False by lia.
  f_equal. destruct w as [st ctx u r]. unfold on_store, set_store, set_uuid_calls. cbn in *.
  f_equal. apply map_eq. intros k. rewrite lookup_alter.
  case_decide; [subst k; by rewrite Hfree|done].
Qed.

Lemma updates_to_a_missing_code_are_dropped_witness :
  (∀ ph, db.set_phase "NOGAME" ph empty_world = (empty_world, inr tt)) ∧
  (∀ ev, db.log_event "NOGAME" ev empty_world = (empty_world, inr tt)) ∧
  (∀ k, db.remove_player "NOGAME" k empty_world = (empty_world, inr tt)) ∧
  (∀ n, pystr.strip n ≠ EmptyString → (String.length (pystr.strip n) ≤ 40)%nat →
        @db.add_player demo_environment "NOGAME" n empty_world
        = (set_uuid_calls (S (uuid_calls empty_world)) empty_world,
           inr (@uuid7 demo_environment (uuid_calls empty_world)))).
Proof.
  assert (store empty_world !! "NOGAME" = None) as Hfree by (vm_compute; reflexivity).
  exact (@updates_to_a_missing_code_are_dropped demo_environment "NOGAME" empty_world Hfree).
Defined.

(** X17: adding a player and removing the identifier returned puts the
    store back as it was.  The name must be acceptable, and the
    identifier drawn must not be carried by a player of the session
    already, as is the case when identifiers are never drawn twice; the
    only trace is the identifier spent. *)
Theorem add_then_remove_player `{Environment} (c n : string) (w : World) (s : Game) :
  store w !! c = Some s →
  Forall (λ p, id p ≠ uuid7 (uuid_calls w)) (players s) →
  pystr.strip n ≠ EmptyString → (String.length (pystr.strip n) ≤ 40)%nat →
  (player_id ← db.add_player c n; db.remove_player c player_id) w
  = (set_uuid_calls (S (uuid_calls w)) w, inr tt).
Proof.
  intros Hs Hfresh Hname Hlen.
  unfold db.remove_player, db.add_player, db.update_one.
  unfold mbind, M_bind, get, modify, mret, M_ret.
  rewrite decide_False by done. rewrite decide_False by lia.
  f_equal. destruct w as [st ctx u r]. unfold on_store, set_store, set_uuid_calls. cbn in *.
  f_equal. apply map_eq. intros k. rewrite !lookup_alter.
  case_decide as Hk; [subst k|done]. rewrite Hs. cbn.
  rewrite decide_True by done. cbn. f_equal.
  rewrite filter_app, (filter_all _ _ Hfresh).
  rewrite filter_cons, decide_False by (cbn; by intros ?).
  rewrite filter_nil, app_nil_r. by destruct s.
Qed.

Lemma add_then_remove_player_witness :
  (player_id ← @db.add_player demo_environment "ABCDEF" "Grace";
   db.remove_player "ABCDEF" player_id) (world_with seer_night)
  = (set_uuid_calls (S (uuid_calls (world_with seer_night))) (world_with seer_night), inr tt).
Proof.
  assert (store (world_with seer_night) !! "ABCDEF" = Some seer_night) as Hs
    by (vm_compute; reflexivity).
  assert (Forall (λ p, id p ≠ @uuid7 demo_environment (uuid_calls (world_with seer_night)))
            (players seer_night)) as Hfresh
    by (apply (bool_decide_unpack _); vm_compute; reflexivity).
  assert (pystr.strip "Grace" ≠ EmptyString) as Hname by (vm_compute; intros [=]).
  assert (String.length (pystr.strip "Grace") ≤ 40)%nat as Hlen by (vm_compute; lia).
  exact (@add_then_remove_player demo_environment "ABCDEF" "Grace" _ _ Hs Hfresh Hname Hlen).
Defined.

(** ** Writing the session back ([agent_runtime.py]) *)

Lemma insert_alter_same (c : string) (f : Game → Game) (g : Game) (st : gmap string Game) :
  <[c := g]> (alter f c st) = <[c := g]> st.
Proof.
  apply map_eq. intros k. destruct (decide (k = c)) as [->|Hk].
  - by rewrite !lookup_insert_eq.
  - by rewrite !lookup_insert_ne, lookup_alter_ne.
Qed.

(** X18: [_finalize_state] stores the in-flight session as it is, over
    whatever was stored under its code, and binds the context to it.  If
    the game is over and the phase is not yet [ended], what is stored is
    the session with its phase set to [ended].  In particular the stored
    history is the in-flight one: an event logged to the store since the
    session was loaded is dropped by the write, the [game_over] event
    logged by [_finalize_state] itself included. *)
Theorem finalize_state_stores_session (w : World) (g : Game) :
  game (context w) = Some g → code g ≠ EmptyString →
  let g' := if (game_engine.is_game_over g).1 && bool_decide (phase g ≠ ended)
            then set_phase ended g else g in
  ∃ w', agent_runtime._finalize_state w = (w', inr tt) ∧
        store w' = <[code g := g']> (store w) ∧
        game (context w') = Some g' ∧
        game_code (context w') = Some (code g) ∧
        history g' = history g ∧
        executed (context w') = executed (context w) ∧
        errors (context w') = errors (context w) ∧
        uuid_calls w' = uuid_calls w.
Proof.
  intros Hg Hcode%truthy_Some. cbn zeta.
  unfold agent_runtime._finalize_state, agent_runtime.the_game, agent_runtime.on_game,
    agent_runtime.reload_game, agent_runtime.the_game, db.log_event, db.upsert_game,
    db.update_one, db.get_game.
  unfold mbind, M_bind, get, modify, mret, M_ret. rewrite Hg.
  destruct (game_engine.is_game_over g) as [over winner]. cbn [fst].
  destruct (over && bool_decide (phase g ≠ ended)); cbn; rewrite ?Hg; cbn;
    cbn in Hcode; rewrite Hcode; cbn;
    (eexists; split; [reflexivity|]); cbn; rewrite ?insert_alter_same, lookup_insert_eq; done.
Qed.

Lemma finalize_state_stores_session_witness :
  ∃ w', agent_runtime._finalize_state
          (on_store (alter (set_history [night_finished]) "ABCDEF") (world_with witch_night))
        = (w', inr tt) ∧
        store w' = <[code witch_night := witch_night]>
                     (store (on_store (alter (set_history [night_finished]) "ABCDEF")
                               (world_with witch_night))) ∧
        game (context w') = Some witch_night ∧
        game_code (context w') = Some (code witch_night) ∧
        history witch_night = history witch_night ∧
        executed (context w') = executed (context (world_with witch_night)) ∧
        errors (context w') = errors (context (world_with witch_night)) ∧
        uuid_calls w' = uuid_calls (world_with witch_night).
Proof.
  assert (game (context (on_store (alter (set_history [night_finished]) "ABCDEF")
                           (world_with witch_night))) = Some witch_night) as Hg
    by reflexivity.
  assert (code witch_night ≠ EmptyString) as Hcode by (intros [=]).
  exact (finalize_state_stores_session _ witch_night Hg Hcode).
Defined.

(** ** What a command writes *)

Ltac unfold_world :=
  unfold langchain_agent.tool_function,
    agent_runtime.tool_list_players, agent_runtime.tool_game_status,
    agent_runtime.tool_join_game, agent_runtime.tool_seer_peek,
    agent_runtime.tool_assign_roles, agent_runtime.tool_start_next_night,
    agent_runtime.tool_advance_to_day, agent_runtime.tool_add_player,
    agent_runtime.tool_remove_player, agent_runtime.tool_create_game,
    agent_runtime.log_killed, agent_runtime.player_with_id,
    agent_runtime._finalize_state, agent_runtime.say, agent_runtime.engine_call,
    agent_runtime.on_game, agent_runtime.the_game, agent_runtime._ensure_game,
    agent_runtime.reload_game, db.log_event, db.upsert_game, db.set_phase,
    db.add_player, db.remove_player, db.create_game, db.update_one, db.get_game;
  unfold mbind, M_bind, get, modify, mret, M_ret, raise.

Ltac run_world :=
  unfold_world; repeat (case_match; simplify_eq/=; try done); intros; simplify_eq/=; try done.

(** X19: consulting never writes.  Listing the players, asking for the
    status and joining a session leave the store exactly as it was,
    whether they answer or raise, and draw no identifier. *)
Theorem consulting_never_writes (w w' : World) (r : Exception + string) :
  (agent_runtime.tool_list_players w = (w', r) →
   store w' = store w ∧ uuid_calls w' = uuid_calls w) ∧
  (agent_runtime.tool_game_status w = (w', r) →
   store w' = store w ∧ uuid_calls w' = uuid_calls w) ∧
  (∀ code0, agent_runtime.tool_join_game code0 w = (w', r) →
            store w' = store w ∧ uuid_calls w' = uuid_calls w).
Proof. split_and!; [| |intros code0]; run_world. Qed.

Lemma consulting_never_writes_witness :
  store (agent_runtime.tool_game_status (world_with seer_night)).1
  = store (world_with seer_night) ∧
  uuid_calls (agent_runtime.tool_game_status (world_with seer_night)).1
  = uuid_calls (world_with seer_night).
Proof.
  exact (proj1 (proj2 (consulting_never_writes (world_with seer_night) _ _))
           (surjective_pairing _)).
Defined.

(** X20: a command that raises has written nothing, with three
    exceptions.  Whatever the error, a failed creation, registration,
    removal, role assignment, peek, end of night, start of night, listing,
    status or join leaves the store exactly as it was.  The wolves' vote,
    the witch's action and the night sequence are left out: they may have
    stored a forced change of phase before they fail. *)
Theorem failed_command_writes_nothing `{Environment} (c : Command) (w w' : World)
    (e : Exception) :
  langchain_agent.tool_function c w = (w', inl e) →
  (∀ t, c ≠ cmd_wolves_vote t) → (∀ heal poison, c ≠ cmd_witch_action heal poison) →
  c ≠ cmd_run_night_sequence →
  store w' = store w.
Proof.
  intros Hrun Hvote Hwitch Hnight. destruct c; try congruence.
  all: try (by destruct (Hvote _)); try (by destruct (Hwitch _ _)).
  all: revert Hrun; run_world.
Qed.

Lemma failed_command_writes_nothing_witness :
  @langchain_agent.tool_function demo_environment (cmd_seer_peek "Nobody")
    (world_with seer_night)
  = (world_with seer_night, inl (AgentToolError UnknownTarget)) ∧
  store (world_with seer_night) = store (world_with seer_night).
Proof.
  assert (@langchain_agent.tool_function demo_environment (cmd_seer_peek "Nobody")
            (world_with seer_night)
          = (world_with seer_night, inl (AgentToolError UnknownTarget))) as Hrun
    by (vm_compute; reflexivity).
  split; [exact Hrun|].
  refine (@failed_command_writes_nothing demo_environment _ _ _ _ Hrun _ _ _);
    intros; discriminate.
Defined.

(** X21: the night sequence passes over every phase whose role is gone,
    one after the other.  Started in the seer's phase with no living seer
    in the in-flight session and no living wolf in the stored one, a
    single call answers, stores the witch's phase and binds the context
    to the stored session at that phase; apart from the phase the stored
    session is as before: nobody has died, no potion is spent, no kill is
    pending that was not. *)
Theorem night_sequence_cascades (w : World) (g s : Game) (c : string) :
  game (context w) = Some g → game_code (context w) = Some c → c ≠ EmptyString →
  code g = c → store w !! c = Some s → code s = c →
  phase g = night_seer → agent_runtime.living_seer g = None →
  agent_runtime.living_wolves s = [] →
  ∃ w' message,
    agent_runtime.tool_run_night_sequence w = (w', inr message) ∧
    store w' !! c = Some (set_phase night_witch s) ∧
    game (context w') = Some (set_phase night_witch s) ∧
    ∀ c', c' ≠ c → store w' !! c' = store w !! c'.
Proof.
  intros Hg Hc Hne Hcode Hs Hcode' Hph Hseer Hwolves.
  assert (Hbound : agent_runtime._ensure_game w = (w, inr g)).
  { apply ensure_game_bound; [done|]. rewrite Hc. by apply truthy_Some. }
  pose proof (force_phase_eval night_wolves w g s c Hg Hc Hne Hcode Hs) as Hfirst.
  assert (store (advanced night_wolves c s w) !! c = Some (set_phase night_wolves s)) as Hs'.
  { cbn. by rewrite lookup_alter, decide_True, Hs. }
  pose proof (force_phase_eval night_witch (advanced night_wolves c s w)
                (set_phase night_wolves s) (set_phase night_wolves s) c
                eq_refl Hc Hne Hcode' Hs') as Hsecond.
  assert (∀ w0 g0, game (context w0) = Some g0 → agent_runtime.the_game w0 = (w0, inr g0))
    as Hthe.
  { intros w0 g0 H0. unfold agent_runtime.the_game, mbind, M_bind, get. by rewrite H0. }
  unfold agent_runtime.tool_run_night_sequence.
  rewrite (bind_eval _ _ _ _ _ Hbound).
  rewrite decide_False by (rewrite Hph; intros Hnot; apply Hnot; set_solver).
  rewrite decide_True, Hseer by done.
  assert (∀ {A B} (a : A) (k : A → M World B) w0, (mret a ≫= k) w0 = k a w0) as Hret
    by done.
  assert (agent_runtime.living_wolves (set_phase night_wolves s) = []) as Hwolves'
    by exact Hwolves.
  rewrite (bind_eval _ _ _ _ _ (bind_eval _ _ _ _ _ Hfirst)).
  rewrite (bind_eval _ _ _ _ _ (Hthe (advanced night_wolves c s w)
                                  (set_phase night_wolves s) eq_refl)).
  cbn [phase set_phase]. rewrite decide_True by done.
  rewrite (decide_False (P := _ ≠ [])) by (rewrite Hwolves'; by intros ?).
  rewrite (bind_eval _ _ _ _ _ (bind_eval _ _ _ _ _ Hsecond)).
  rewrite (bind_eval _ _ _ _ _
             (Hthe (advanced night_witch c (set_phase night_wolves s)
                      (advanced night_wolves c s w))
                (set_phase night_witch (set_phase night_wolves s)) eq_refl)).
  eexists _, _. split; [reflexivity|]. cbn.
  rewrite !lookup_alter, !decide_True, Hs by done. split; [done|]. split; [done|].
  intros c' Hc'. by rewrite !lookup_alter_ne.
Qed.

Lemma night_sequence_cascades_witness :
  ∃ w' message,
    agent_runtime.tool_run_night_sequence (world_with night_without_actors)
    = (w', inr message) ∧
    store w' !! "ABCDEF" = Some (set_phase night_witch night_without_actors) ∧
    game (context w') = Some (set_phase night_witch night_without_actors) ∧
    ∀ c', c' ≠ "ABCDEF" → store w' !! c' = store (world_with night_without_actors) !! c'.
Proof.
  assert (store (world_with night_without_actors) !! "ABCDEF" = Some night_without_actors)
    as Hs by (vm_compute; reflexivity).
  assert ("ABCDEF" ≠ EmptyString) as Hne by discriminate.
  assert (agent_runtime.living_seer night_without_actors = None) as Hseer
    by (vm_compute; reflexivity).
  assert (agent_runtime.living_wolves night_without_actors = []) as Hwolves
    by (vm_compute; reflexivity).
  exact (night_sequence_cascades (world_with night_without_actors) night_without_actors
           night_without_actors "ABCDEF" eq_refl eq_refl Hne eq_refl Hs eq_refl eq_refl
           Hseer Hwolves).
Defined.

(** ** Every world the dispatcher reaches *)

(** X22: in every world reached from the empty one by exchanges and
    commands, whatever they are and whether they succeed, every session
    is stored under its own code, no two of its players carry the same
    identifier, and as long as it is in the lobby nobody in it is dead;
    and the session the context holds is a stored one, with the same
    players in the same order by identifier. *)
Theorem reachable_worlds_are_sound `{Environment} `{!EnvironmentOk} (w : World) :
  reachable w →
  (∀ c s, store w !! c = Some s →
          code s = c ∧ NoDup (id <$> players s) ∧
          (phase s = lobby → Forall (λ p, status p = alive) (players s))) ∧
  (∀ g, game (context w) = Some g →
        ∃ s, store w !! code g = Some s ∧ id <$> players g = id <$> players s).
Proof.
  intros [steps ->].
  destruct (run_steady steps empty_world empty_world_ok) as [[Hstore Hcontext] _].
  split.
  - intros c s Hs. destruct (Hstore c s Hs) as (Hcode & Hlobby & Hnodup & _). done.
  - intros g Hg. destruct (Hcontext g Hg) as (_ & s & Hs & Hbehind).
    exists s. split; [done|]. by apply players_evolve_NoDup.
Qed.

Lemma reachable_worlds_are_sound_witness :
  (∀ c s, store seer_lost_world !! c = Some s →
          code s = c ∧ NoDup (id <$> players s) ∧
          (phase s = lobby → Forall (λ p, status p = alive) (players s))) ∧
  (∀ g, game (context seer_lost_world) = Some g →
        ∃ s, store seer_lost_world !! code g = Some s ∧
             id <$> players g = id <$> players s).
Proof.
  assert (@reachable demo_environment seer_lost_world) as Hreach
    by (exists seer_lost; reflexivity).
  exact (@reachable_worlds_are_sound demo_environment demo_environment_ok _ Hreach).
Defined.

(** X23: no command deletes a session, and none recycles an identifier.
    A session stored at some point of a run is still stored, under the
    same code, however the run goes on; and each of its players then
    either was in it already, with the same identifier, or carries an
    identifier drawn in between. *)
Theorem sessions_are_never_deleted `{Environment} `{!EnvironmentOk}
    (before after : list Step) (c : string) (s : Game) :
  store (run before empty_world) !! c = Some s →
  ∃ s', store (run after (run before empty_world)) !! c = Some s' ∧
        code s' = c ∧
        Forall (λ p', (∃ p, p ∈ players s ∧ id p' = id p) ∨
                      (∃ m, (uuid_calls (run before empty_world) ≤ m)%nat ∧
                            (m < uuid_calls (run after (run before empty_world)))%nat ∧
                            id p' = uuid7 m))
          (players s').
Proof.
  intros Hs.
  destruct (run_steady before empty_world empty_world_ok) as [Hok _].
  destruct (run_steady after _ Hok) as [[Hstore' _] (_ & Hkept & Hone)].
  destruct (Hkept c) as [s' Hs']; [by eexists|].
  exists s'. split; [done|].
  destruct (Hstore' c s' Hs') as (Hcode & _ & _ & Hdrawn). split; [done|].
  pose proof (Hone c s s' Hs Hs') as Hplayers.
  apply Forall_forall. intros p' Hp'.
  pose proof (proj1 (Forall_forall _ _) Hplayers p' Hp') as [(m & Hm & Hid)|(p & Hp & Hev & _)].
  - right. exists m. split; [done|]. split; [|done].
    pose proof (proj1 (Forall_forall _ _) Hdrawn p' Hp') as (m' & Hm' & Hid').
    rewrite Hid in Hid'. apply uuid7_inj in Hid'. by subst m'.
  - left. by exists p.
Qed.

Lemma sessions_are_never_deleted_witness :
  ∃ s', store (@run demo_environment [invoke (cmd_remove_player "Bob")]
                 (@run demo_environment seer_lost empty_world)) !! "ABCDEF" = Some s' ∧
        code s' = "ABCDEF" ∧
        Forall (λ p', (∃ p, p ∈ players second_seer_night ∧ id p' = id p) ∨
                      (∃ m, (uuid_calls (@run demo_environment seer_lost empty_world) ≤ m)%nat ∧
                            (m < uuid_calls (@run demo_environment
                                               [invoke (cmd_remove_player "Bob")]
                                               (@run demo_environment seer_lost empty_world)))%nat ∧
                            id p' = @uuid7 demo_environment m))
          (players s').
Proof.
  assert (store (@run demo_environment seer_lost empty_world) !! "ABCDEF"
          = Some second_seer_night) as Hs by (vm_compute; reflexivity).
  exact (@sessions_are_never_deleted demo_environment demo_environment_ok seer_lost
           [invoke (cmd_remove_player "Bob")] "ABCDEF" second_seer_night Hs).
Defined.

(** ** Sessions in order *)

(** *** Rules *)

Lemma hoare_ret {A} (a : A) (P : World → Prop) (Q : A → World → Prop) (E : World → Prop) :
  (∀ w, P w → Q a w) → hoare P (mret a) Q E.
Proof. intros HQ w Hw. by apply HQ. Qed.

Lemma hoare_raise {A} (e : Exception) (P : World → Prop) (Q : A → World → Prop)
    (E : World → Prop) :
  (∀ w, P w → E w) → hoare P (raise e) Q E.
Proof. intros HE w Hw. by apply HE. Qed.

Lemma hoare_modify (f : World → World) (P : World → Prop) (Q : unit → World → Prop)
    (E : World → Prop) :
  (∀ w, P w → Q tt (f w)) → hoare P (modify f) Q E.
Proof. intros HQ w Hw. by apply HQ. Qed.

Lemma hoare_bind {A B} (m : M World A) (k : A → M World B) (P : World → Prop)
    (R : A → World → Prop) (Q : B → World → Prop) (E : World → Prop) :
  hoare P m R E → (∀ a, hoare (R a) (k a) Q E) → hoare P (m ≫= k) Q E.
Proof.
  intros Hm Hk w Hw. specialize (Hm w Hw). unfold mbind, M_bind.
  destruct (m w) as [w1 [e|a]]; [done|]. by apply Hk.
Qed.

Lemma hoare_weaken {A} (m : M World A) (P P' : World → Prop) (Q Q' : A → World → Prop)
    (E E' : World → Prop) :
  (∀ w, P w → P' w) → (∀ a w, Q' a w → Q a w) → (∀ w, E' w → E w) →
  hoare P' m Q' E' → hoare P m Q E.
Proof.
  intros HP HQ HE Hm w Hw. specialize (Hm w (HP w Hw)).
  destruct (m w) as [w1 [e|a]]; auto.
Qed.

Lemma hoare_pre {A} (m : M World A) (P P' : World → Prop) (Q : A → World → Prop)
    (E : World → Prop) :
  (∀ w, P w → P' w) → hoare P' m Q E → hoare P m Q E.
Proof. intros HP. by apply hoare_weaken. Qed.

(** A pure step under an assertion on the world. *)
Lemma hoare_frame_ret {A} (a : A) (P : World → Prop) (E : World → Prop) :
  hoare P (mret a) (λ _, P) E.
Proof. by apply hoare_ret. Qed.

(** A hypothesis that does not depend on the world, taken out of the
    precondition. *)
Lemma hoare_assume {A} (φ : Prop) (P : World → Prop) (m : M World A)
    (Q : A → World → Prop) (E : World → Prop) :
  (φ → hoare P m Q E) → hoare (λ w, P w ∧ φ) m Q E.
Proof. intros Hm w [Hw Hφ]. by apply Hm. Qed.

Lemma neat_bind {A B} (m : M World A) (k : A → M World B) :
  neat m → (∀ a, neat (k a)) → neat (m ≫= k).
Proof. intros Hm Hk. by eapply hoare_bind. Qed.

Lemma neat_ret {A} (a : A) : neat (mret a).
Proof. by apply hoare_ret. Qed.

Lemma neat_raise {A} (e : Exception) : neat (raise e : M World A).
Proof. by apply hoare_raise. Qed.

(** *** What keeps a session in order *)

Lemma same_roster_code (g g' : Game) : same_roster g g' → code g' = code g.
Proof. by intros (? & _). Qed.

Lemma same_roster_names (g g' : Game) :
  same_roster g g' → name <$> players g' = name <$> players g.
Proof. by intros (_ & _ & _ & _ & ?). Qed.

Lemma same_roster_tidy (g g' : Game) : same_roster g g' → tidy g → tidy g'.
Proof.
  intros (Hcode & Hhist & _ & _ & Hnames). unfold tidy.
  by rewrite Hcode, Hhist, Hnames.
Qed.

Ltac solve_same_roster :=
  unfold_ops; repeat respects_step; try (by repeat split);
  repeat split; try done; cbn; apply alter_status_roster.

Lemma assign_roles_same_roster `{Environment} (seed : option Z) :
  respects same_roster (game_engine.assign_roles seed).
Proof. apply assign_roles_respects. Qed.

Lemma seer_peek_same_roster (t : string) : respects same_roster (game_engine.seer_peek t).
Proof. solve_same_roster. Qed.

Lemma wolves_vote_same_roster (t : string) : respects same_roster (game_engine.wolves_vote t).
Proof. solve_same_roster. Qed.

Lemma witch_action_same_roster (heal : bool) (poison : option string) :
  respects same_roster (game_engine.witch_action heal poison).
Proof. solve_same_roster. Qed.

Lemma start_next_night_same_roster : respects same_roster game_engine.start_next_night.
Proof. solve_same_roster. Qed.

Lemma set_phase_same_roster (ph : Phase) : respects same_roster (modify (set_phase ph)).
Proof. apply respects_modify. intros g. by repeat split. Qed.

(** *** The context and the store, step by step *)

Lemma on_context_tidy (f : AgentContext → AgentContext) (w : World) :
  (∀ x, game (f x) = game x) → world_tidy w → world_tidy (on_context f w).
Proof.
  intros Hf [Hs Hc]. split; [done|]. intros g. cbn. rewrite Hf. apply Hc.
Qed.

Lemma on_context_neat (f : AgentContext → AgentContext) :
  (∀ x, game (f x) = game x) → neat (modify (on_context f)).
Proof. intros Hf. apply hoare_modify. intros w. by apply on_context_tidy. Qed.

Lemma say_neat (message : string) : neat (agent_runtime.say message).
Proof.
  unfold agent_runtime.say. apply neat_bind; [by apply on_context_neat|].
  intros ?. apply neat_ret.
Qed.

Lemma set_random_calls_neat (n : nat) : neat (modify (set_random_calls n)).
Proof. apply hoare_modify. by intros w [Hs Hc]. Qed.

Lemma the_game_tidy :
  hoare world_tidy agent_runtime.the_game
    (λ g w, world_tidy w ∧ game (context w) = Some g) world_tidy.
Proof.
  intros w Hw. unfold agent_runtime.the_game, mbind, M_bind, get.
  destruct (game (context w)) as [g|] eqn:Hg; cbn; [by split|done].
Qed.

Lemma ensure_game_tidy :
  hoare world_tidy agent_runtime._ensure_game
    (λ g w, world_tidy w ∧ game (context w) = Some g) world_tidy.
Proof.
  intros w Hw. unfold agent_runtime._ensure_game, mbind, M_bind, get.
  destruct (game (context w)) as [g|] eqn:Hg; cbn; [|done].
  destruct (truthy _); cbn; [by split|done].
Qed.

Lemma the_game_neat : neat agent_runtime.the_game.
Proof. eapply hoare_weaken; [| | |apply the_game_tidy]; try done. by intros g w []. Qed.

Lemma ensure_game_neat : neat agent_runtime._ensure_game.
Proof. eapply hoare_weaken; [| | |apply ensure_game_tidy]; try done. by intros g w []. Qed.

(** From the store alone, a reload puts the whole world in order. *)
Lemma reload_game_tidy :
  hoare stored_tidy agent_runtime.reload_game (λ _, world_tidy) world_tidy.
Proof.
  intros w Hs. rewrite reload_game_eval. split; [done|].
  intros g. cbn [context on_context set_context game set_game].
  destruct (game_code (context w)) as [c|]; [|done].
  destruct (truthy (Some c)); [|done]. intros Hg.
  destruct (Hs c g Hg) as [Hcode Htidy]. split; [done|].
  intros s. cbn. rewrite Hcode, Hg. by intros [= <-].
Qed.

Lemma reload_game_neat : neat agent_runtime.reload_game.
Proof. eapply hoare_pre; [|apply reload_game_tidy]. by intros w []. Qed.

(** An update of one stored session that leaves its code, its history
    and its names alone. *)
Lemma alter_tidy (c : string) (f : Game → Game) (w : World) :
  (∀ s, same_roster s (f s)) → world_tidy w → world_tidy (on_store (alter f c) w).
Proof.
  intros Hf [Hs Hc]. split.
  - intros c' s'. cbn. rewrite lookup_alter. case_decide as Hcc.
    + subst c'. destruct (store w !! c) as [s|] eqn:Hlook; cbn; [|done]. intros [= <-].
      destruct (Hs c s Hlook) as [Hcode Htidy]. split.
      * rewrite <-Hcode. apply (same_roster_code _ _ (Hf s)).
      * apply (same_roster_tidy s); [apply Hf|done].
    + apply Hs.
  - intros g Hg. destruct (Hc g Hg) as [Htidy Hnames]. split; [done|].
    intros s'. cbn. rewrite lookup_alter. case_decide as Hcc.
    + subst c. destruct (store w !! code g) as [s|] eqn:Hlook; cbn; [|done]. intros [= <-].
      rewrite <-(Hnames s eq_refl). apply (same_roster_names _ _ (Hf s)).
    + apply Hnames.
Qed.

Lemma set_phase_neat (c : string) (ph : Phase) : neat (db.set_phase c ph).
Proof.
  apply hoare_modify. intros w. apply alter_tidy. intros s. by repeat split.
Qed.

(** An engine operation on the in-flight session. *)
Lemma on_game_tidy {A} (m : M Game A) (g : Game) :
  respects same_roster m →
  hoare (λ w, world_tidy w ∧ game (context w) = Some g) (agent_runtime.on_game m)
    (λ _ w, world_tidy w ∧ ∃ g', game (context w) = Some g' ∧ code g' = code g)
    world_tidy.
Proof.
  intros Hm w [[Hs Hc] Hg].
  unfold agent_runtime.on_game, agent_runtime.the_game, mbind, M_bind, get, mret, M_ret.
  rewrite Hg. cbv beta iota.
  destruct (m g) as [g' r] eqn:Hrun. pose proof (Hm g g' r Hrun) as Hsame.
  destruct (Hc g Hg) as [Htidy Hnames].
  assert (world_tidy (on_context (set_game (Some g')) w)) as Hw'.
  { split; [done|]. intros g0. cbn. intros [= <-]. split; [by apply (same_roster_tidy g)|].
    rewrite (same_roster_code _ _ Hsame), (same_roster_names _ _ Hsame). apply Hnames. }
  destruct r as [e|a]; cbn; [done|]. split; [done|].
  exists g'. split; [done|]. apply (same_roster_code _ _ Hsame).
Qed.

Lemma engine_call_tidy {A} (m : M Game A) (g : Game) :
  respects same_roster m →
  hoare (λ w, world_tidy w ∧ game (context w) = Some g) (agent_runtime.engine_call m)
    (λ _ w, world_tidy w ∧ ∃ g', game (context w) = Some g' ∧ code g' = code g)
    world_tidy.
Proof.
  intros Hm w Hw. pose proof (on_game_tidy m g Hm w Hw) as Hrun.
  unfold agent_runtime.engine_call.
  destruct (agent_runtime.on_game m w) as [w' [e|a]]; [|done]. by destruct e.
Qed.

Lemma on_game_neat {A} (m : M Game A) : respects same_roster m → neat (agent_runtime.on_game m).
Proof.
  intros Hm w Hw. destruct (game (context w)) as [g|] eqn:Hg.
  - pose proof (on_game_tidy m g Hm w (conj Hw Hg)) as Hrun.
    destruct (agent_runtime.on_game m w) as [w' [e|a]]; [done|]. apply Hrun.
  - unfold agent_runtime.on_game, agent_runtime.the_game, mbind, M_bind, get.
    by rewrite Hg.
Qed.

Lemma force_phase_neat (ph : Phase) : neat (agent_runtime.force_phase ph).
Proof.
  unfold agent_runtime.force_phase.
  apply neat_bind; [apply the_game_neat|]. intros g.
  apply neat_bind; [apply on_game_neat, set_phase_same_roster|]. intros ?.
  apply neat_bind; [apply set_phase_neat|]. intros ?.
  apply reload_game_neat.
Qed.

(** *** Between the first event logged and the write *)

Lemma valid_code_nonempty (c : string) : utils.validate_game_code c = true → c ≠ EmptyString.
Proof. intros Hc ->. by vm_compute in Hc. Qed.

Lemma enter_mid (c : string) (w : World) :
  world_tidy w ∧ (∃ g, game (context w) = Some g ∧ code g = c) → mid_command c w.
Proof.
  intros [[Hs Hc] (g & Hg & Hcode)]. split.
  - intros c' s Hlook. destruct (Hs c' s Hlook). by split.
  - exists g. split; [done|]. split; [done|]. apply (Hc g Hg).
Qed.

Lemma log_event_mid (c : string) (event : Event) :
  hoare (mid_command c) (db.log_event c event) (λ _, mid_command c) world_tidy.
Proof.
  apply hoare_modify. intros w [Hs Hc]. split; [|done].
  intros c' s'. cbn. rewrite lookup_alter. case_decide as Hcc; [|apply Hs].
  subst c'. destruct (store w !! c) as [s|] eqn:Hlook; cbn; [|done]. intros [= <-].
  split; [|done]. cbn. apply (Hs c s Hlook).
Qed.

Lemma the_game_mid (c : string) :
  hoare (mid_command c) agent_runtime.the_game
    (λ g w, mid_command c w ∧ code g = c) world_tidy.
Proof.
  intros w [Hs (g & Hg & Hcode & Htidy)].
  unfold agent_runtime.the_game, mbind, M_bind, get. rewrite Hg. cbn.
  split; [|done]. split; [done|]. by exists g.
Qed.

Lemma log_killed_mid (c : string) (g : Game) (killed_id : option string) :
  code g = c →
  hoare (mid_command c) (agent_runtime.log_killed g killed_id) (λ _, mid_command c) world_tidy.
Proof.
  intros <-. unfold agent_runtime.log_killed.
  repeat case_match; try (by apply hoare_ret); apply log_event_mid.
Qed.

(** The write, evaluated. *)
Lemma finalize_state_eval (w : World) (g : Game) :
  game (context w) = Some g → code g ≠ EmptyString →
  ∃ w' g', agent_runtime._finalize_state w = (w', inr tt) ∧
           game (context w') = Some g' ∧
           store w' = <[code g := g']> (store w) ∧
           same_roster g g' ∧
           game_code (context w') = Some (code g).
Proof.
  intros Hg Hcode%truthy_Some.
  unfold agent_runtime._finalize_state, agent_runtime.the_game, agent_runtime.on_game,
    agent_runtime.reload_game, agent_runtime.the_game, db.log_event, db.upsert_game,
    db.update_one, db.get_game.
  unfold mbind, M_bind, get, modify, mret, M_ret. rewrite Hg.
  destruct (game_engine.is_game_over g) as [over winner].
  destruct (over && bool_decide (phase g ≠ ended)); cbn; rewrite ?Hg; cbn;
    cbn in Hcode; rewrite Hcode; cbn;
    (eexists _, _; split; [reflexivity|]); cbn;
    rewrite ?insert_alter_same, lookup_insert_eq;
    (split; [reflexivity|]); by repeat split.
Qed.

Lemma finalize_state_mid (c : string) :
  hoare (mid_command c) agent_runtime._finalize_state (λ _, world_tidy) world_tidy.
Proof.
  intros w [Hs (g & Hg & Hcode & Htidy)].
  assert (code g ≠ EmptyString) as Hne by (apply valid_code_nonempty, Htidy).
  destruct (finalize_state_eval w g Hg Hne) as (w' & g' & -> & Hctx & Hstore & Hsame & _).
  pose proof (same_roster_tidy g g' Hsame Htidy) as Htidy'.
  pose proof (same_roster_code g g' Hsame) as Hcode'.
  split.
  - intros c' s. rewrite Hstore, Hcode, lookup_insert. case_decide as Hcc.
    + intros [= <-]. split; [congruence|done].
    + intros Hlook. destruct (Hs c' s Hlook) as [? Hother]. split; [done|].
      apply Hother. congruence.
  - intros g0. rewrite Hctx. intros [= <-]. split; [done|].
    intros s. rewrite Hstore, Hcode', lookup_insert_eq. by intros [= <-].
Qed.

Lemma finish_neat (c message : string) :
  hoare (mid_command c) (agent_runtime._finalize_state;; agent_runtime.say message)
    (λ _, world_tidy) world_tidy.
Proof.
  eapply hoare_bind; [apply finalize_state_mid|]. intros ?. apply say_neat.
Qed.

(** *** The commands *)

(** Decomposition of a command that keeps the world in order at every
    step. *)
Ltac neat_step :=
  first
    [ apply neat_ret
    | apply neat_raise
    | apply say_neat
    | apply reload_game_neat
    | apply the_game_neat
    | apply ensure_game_neat
    | apply set_random_calls_neat
    | apply force_phase_neat
    | apply set_phase_neat
    | apply on_context_neat; done
    | apply neat_bind; [|intros ?]
    | case_match
    | case_decide ].

(** The end of a command of the game proper, from the engine call on:
    events are logged, and the in-flight session is written back. *)
Ltac enter_mid_command :=
  eapply hoare_pre; [intros ? Hpre; apply enter_mid; exact Hpre|].

Ltac raise_tidy := apply hoare_raise; by intros ? [? ?].

Lemma tool_list_players_neat : neat agent_runtime.tool_list_players.
Proof. unfold agent_runtime.tool_list_players. repeat neat_step. Qed.

Lemma tool_game_status_neat : neat agent_runtime.tool_game_status.
Proof. unfold agent_runtime.tool_game_status. repeat neat_step. Qed.

Lemma tool_run_night_sequence_neat : neat agent_runtime.tool_run_night_sequence.
Proof. unfold agent_runtime.tool_run_night_sequence. repeat neat_step. Qed.

Lemma tool_seer_peek_neat (target_name : string) :
  neat (agent_runtime.tool_seer_peek target_name).
Proof.
  unfold agent_runtime.tool_seer_peek.
  eapply hoare_bind; [apply ensure_game_tidy|]. intros g.
  repeat case_decide; try raise_tidy.
  destruct (utils.find_player_by_name _ _) as [[i target]|]; [|raise_tidy].
  eapply hoare_bind; [apply engine_call_tidy, seer_peek_same_roster|]. intros r.
  enter_mid_command.
  eapply hoare_bind; [apply log_event_mid|]. intros ?.
  apply finish_neat.
Qed.

Lemma tool_assign_roles_neat `{Environment} (seed : option Z) :
  neat (agent_runtime.tool_assign_roles seed).
Proof.
  unfold agent_runtime.tool_assign_roles.
  eapply hoare_bind; [apply ensure_game_tidy|]. intros g.
  case_decide; [raise_tidy|].
  eapply hoare_bind; [apply engine_call_tidy, assign_roles_same_roster|]. intros r.
  enter_mid_command.
  eapply hoare_bind; [apply log_event_mid|]. intros ?.
  apply finish_neat.
Qed.

Lemma tool_start_next_night_neat : neat agent_runtime.tool_start_next_night.
Proof.
  unfold agent_runtime.tool_start_next_night.
  eapply hoare_bind; [apply ensure_game_tidy|]. intros g.
  eapply hoare_bind; [apply engine_call_tidy, start_next_night_same_roster|]. intros r.
  enter_mid_command.
  eapply hoare_bind; [apply log_event_mid|]. intros ?.
  apply finish_neat.
Qed.

Lemma tool_advance_to_day_neat : neat agent_runtime.tool_advance_to_day.
Proof.
  unfold agent_runtime.tool_advance_to_day.
  eapply hoare_bind; [apply ensure_game_tidy|]. intros g.
  case_decide; [raise_tidy|].
  eapply hoare_bind; [apply engine_call_tidy, witch_action_same_roster|]. intros killed_id.
  enter_mid_command.
  eapply hoare_bind; [apply the_game_mid|]. intros g'.
  apply hoare_assume. intros Hcode.
  eapply hoare_bind; [by apply log_killed_mid|]. intros ?.
  eapply hoare_bind; [apply log_event_mid|]. intros ?.
  apply finish_neat.
Qed.

Lemma tool_wolves_vote_neat (target_name : string) :
  neat (agent_runtime.tool_wolves_vote target_name).
Proof.
  unfold agent_runtime.tool_wolves_vote.
  apply neat_bind; [apply ensure_game_neat|]. intros g0.
  apply neat_bind; [repeat neat_step|]. intros ?.
  eapply hoare_bind; [apply the_game_tidy|]. intros g.
  destruct (utils.find_player_by_name _ _) as [[i target]|]; [|raise_tidy].
  case_decide; [raise_tidy|].
  eapply hoare_bind; [apply engine_call_tidy, wolves_vote_same_roster|]. intros r.
  enter_mid_command.
  eapply hoare_bind; [apply log_event_mid|]. intros ?.
  apply finish_neat.
Qed.

Lemma tool_witch_action_neat (heal : bool) (poison_target : option string) :
  neat (agent_runtime.tool_witch_action heal poison_target).
Proof.
  unfold agent_runtime.tool_witch_action.
  apply neat_bind; [apply ensure_game_neat|]. intros g0.
  apply neat_bind; [repeat neat_step|]. intros ?.
  eapply hoare_bind; [apply the_game_tidy|]. intros g.
  eapply (hoare_bind _ _ _ (λ _ w, world_tidy w ∧ game (context w) = Some g)).
  { repeat case_match; try raise_tidy; apply hoare_frame_ret. }
  intros [poison_id poisoned_name].
  eapply hoare_bind; [apply engine_call_tidy, witch_action_same_roster|]. intros killed_id.
  enter_mid_command.
  eapply hoare_bind.
  { destruct heal; [apply log_event_mid|apply hoare_frame_ret]. }
  intros ?. eapply hoare_bind.
  { destruct (truthy poisoned_name); [apply log_event_mid|apply hoare_frame_ret]. }
  intros ?.
  eapply hoare_bind; [apply the_game_mid|]. intros g'.
  apply hoare_assume. intros Hcode.
  eapply hoare_bind; [by apply log_killed_mid|]. intros ?.
  apply finish_neat.
Qed.

(** *** Players joining and leaving, sessions created and joined *)

Lemma log_lobby_event (c : string) (event : Event) :
  lobby_event event →
  hoare stored_tidy (db.log_event c event) (λ _, stored_tidy) world_tidy.
Proof.
  intros Hev. apply hoare_modify. intros w Hs c' s'. cbn.
  rewrite lookup_alter. case_decide as Hcc; [|apply Hs].
  subst c'. destruct (store w !! c) as [s|] eqn:Hlook; cbn; [|done]. intros [= <-].
  destruct (Hs c s Hlook) as (Hcode & Hhist & Hrest). split; [done|].
  split; [|done]. cbn. apply Forall_app. split; [done|]. by apply Forall_singleton.
Qed.

Lemma tidy_sublist (s : Game) (ps : list Player) :
  ps `sublist_of` players s → tidy s → tidy (set_players ps s).
Proof.
  intros Hsub (Hhist & Hproper & Hnodup & Hvalid & Hupper). split; [done|]. cbn.
  assert ((name <$> ps) `sublist_of` (name <$> players s)) as Hnames
    by by apply fmap_sublist.
  split_and!; try done.
  - apply Forall_forall. intros n Hn.
    eapply (proj1 (Forall_forall _ _) Hproper). by eapply elem_of_sublist.
  - eapply sublist_NoDup; [done|]. by apply fmap_sublist.
Qed.

Lemma remove_player_tidy (c player_id : string) :
  hoare world_tidy (db.remove_player c player_id) (λ _, stored_tidy) world_tidy.
Proof.
  apply hoare_modify. intros w [Hs _] c' s'. cbn.
  rewrite lookup_alter. case_decide as Hcc; [|apply Hs].
  subst c'. destruct (store w !! c) as [s|] eqn:Hlook; cbn; [|done]. intros [= <-].
  destruct (Hs c s Hlook) as [Hcode Htidy]. split; [done|].
  apply tidy_sublist; [apply sublist_filter|done].
Qed.

(** A name no player of the list has, up to case and white space. *)
Lemma find_player_by_name_fresh (ps : list Player) (n : string) :
  utils.find_player_by_name ps n = None →
  normal_name (pystr.strip n) ∉ normal_name <$> (name <$> ps).
Proof.
  intros Hfind Hin. unfold utils.find_player_by_name in Hfind.
  apply (list_find_None (λ p, pystr.lower (pystr.strip (name p))
                              = pystr.lower (pystr.strip n))) in Hfind.
  apply list_elem_of_fmap in Hin as (m & Hm & Hin).
  apply list_elem_of_fmap in Hin as (p & -> & Hp).
  apply (proj1 (Forall_forall _ _) Hfind p Hp).
  unfold normal_name in Hm. by rewrite strip_strip in Hm.
Qed.

Lemma add_player_tidy `{Environment} (g : Game) (n : string) :
  utils.find_player_by_name (players g) n = None →
  hoare (λ w, world_tidy w ∧ game (context w) = Some g) (db.add_player (code g) n)
    (λ _, stored_tidy) world_tidy.
Proof.
  intros Hfind w [[Hs Hc] Hg].
  unfold db.add_player, db.update_one, mbind, M_bind, get, modify, mret, M_ret. cbn.
  case_decide as Hempty; cbn; [by split|].
  case_decide as Hlong; cbn; [by split|].
  intros c' s'. cbn. rewrite lookup_alter. case_decide as Hcc; [|apply Hs].
  subst c'. destruct (store w !! code g) as [s|] eqn:Hlook; cbn; [|done]. intros [= <-].
  destruct (Hs _ s Hlook) as (Hcode & Hhist & Hproper & Hnodup & Hvalid & Hupper).
  destruct (Hc g Hg) as [_ Hnames]. specialize (Hnames s Hlook).
  split; [done|]. split; [done|]. cbn. rewrite !fmap_app. cbn. split_and!; try done.
  - apply Forall_app. split; [done|]. apply Forall_singleton.
    split; [done|]. split; [apply strip_strip|lia].
  - apply NoDup_app. split; [done|]. split; [|apply NoDup_singleton].
    intros m Hm ->%list_elem_of_singleton. rewrite Hnames in Hm.
    by apply (find_player_by_name_fresh (players g) n).
Qed.

Lemma tool_add_player_neat `{Environment} (name0 : string) :
  neat (agent_runtime.tool_add_player name0).
Proof.
  unfold agent_runtime.tool_add_player.
  eapply hoare_bind; [apply ensure_game_tidy|]. intros g.
  case_decide; [raise_tidy|].
  destruct (utils.find_player_by_name _ _) as [found|] eqn:Hfind; [raise_tidy|].
  eapply hoare_bind; [by apply add_player_tidy|]. intros ?.
  eapply hoare_bind; [by apply log_lobby_event|]. intros ?.
  eapply hoare_bind; [apply reload_game_tidy|]. intros ?.
  apply say_neat.
Qed.

Lemma tool_remove_player_neat (name0 : string) :
  neat (agent_runtime.tool_remove_player name0).
Proof.
  unfold agent_runtime.tool_remove_player.
  eapply hoare_bind; [apply ensure_game_tidy|]. intros g.
  case_decide; [raise_tidy|].
  destruct (utils.find_player_by_name _ _) as [[i player]|] eqn:Hfind; [|raise_tidy].
  eapply hoare_bind.
  { eapply hoare_pre; [|apply remove_player_tidy]. by intros w []. }
  intros ?.
  eapply hoare_bind; [by apply log_lobby_event|]. intros ?.
  eapply hoare_bind; [apply reload_game_tidy|]. intros ?.
  apply say_neat.
Qed.

Lemma new_game_tidy (c : string) :
  utils.validate_game_code c = true → pystr.upper c = c → tidy (new_game c).
Proof. intros Hvalid Hupper. split_and!; try done; cbn; constructor. Qed.

Lemma generated_code_valid `{Environment} (n : nat) :
  utils.validate_game_code (utils.generate_game_code n 6) = true ∧
  pystr.upper (utils.generate_game_code n 6) = utils.generate_game_code n 6.
Proof.
  destruct (generate_game_code_chars 6 n) as (Hlen & Hall & Hup). split; [|done].
  unfold utils.validate_game_code. rewrite Hlen, Hup.
  apply forallb_Forall_chars in Hall. by rewrite Hall.
Qed.

(** The part of [tool_create_game] that follows the choice of the code. *)
Lemma create_game_tidy (c : string) :
  utils.validate_game_code c = true → pystr.upper c = c →
  neat (g ← db.create_game c;
        db.log_event c (game_created c);;
        modify (on_context (set_game_code (Some c)));;
        modify (on_context (set_game (Some g)));;
        agent_runtime.say ("Partie creee avec le code " +:+ c +:+ ".")).
Proof.
  intros Hvalid Hupper w [Hs Hc].
  unfold db.create_game, db.log_event, db.update_one, agent_runtime.say.
  unfold mbind, M_bind, get, modify, mret, M_ret.
  destruct (store w !! c) as [s|] eqn:Hlook; cbn; [by split|].
  pose proof (new_game_tidy c Hvalid Hupper) as Hnew.
  split.
  - intros c' s'. cbn. rewrite lookup_alter. case_decide as Hcc.
    + subst c'. rewrite lookup_insert_eq. cbn. intros [= <-]. split; [done|].
      destruct Hnew as (_ & Hrest). split; [|done]. cbn. by apply Forall_singleton.
    + rewrite lookup_insert_ne by done. apply Hs.
  - intros g. cbn. intros [= <-]. split; [done|]. intros s. cbn.
    rewrite lookup_alter, decide_True, lookup_insert_eq by done. cbn. by intros [= <-].
Qed.

Lemma tool_create_game_neat `{Environment} (code0 : option string) :
  neat (agent_runtime.tool_create_game code0).
Proof.
  unfold agent_runtime.tool_create_game.
  eapply (hoare_bind _ _ _
            (λ c w, (world_tidy w ∧ utils.validate_game_code c = true) ∧ pystr.upper c = c)).
  - assert (hoare world_tidy
              (w ← get; modify (set_random_calls (random_calls w + 6));;
               mret (utils.generate_game_code (random_calls w) 6))
              (λ c w, (world_tidy w ∧ utils.validate_game_code c = true)
                      ∧ pystr.upper c = c) world_tidy) as Hgenerated.
    { intros w [Hs Hc]. destruct (generated_code_valid (random_calls w)) as [Hvalid Hupper].
      unfold mbind, M_bind, get, modify, mret, M_ret. cbv beta iota.
      split; [|exact Hupper]. split; [by split|exact Hvalid]. }
    destruct code0 as [c|]; [|done].
    destruct (truthy (Some c)); [|done].
    destruct (utils.validate_game_code _) eqn:Hvalid; cbn; [|by apply hoare_raise].
    apply hoare_ret. intros w Hw. split; [by split|].
    apply map_chars_compose, upper_char_upper_char.
  - intros c. apply hoare_assume. intros Hupper. apply hoare_assume. intros Hvalid.
    by apply create_game_tidy.
Qed.

Lemma tool_join_game_neat (code0 : string) : neat (agent_runtime.tool_join_game code0).
Proof.
  unfold agent_runtime.tool_join_game. intros w [Hs Hc].
  unfold db.get_game, agent_runtime.say, mbind, M_bind, get, modify, mret, M_ret.
  destruct (negb _); cbn; [by split|].
  destruct (store w !! _) as [s|] eqn:Hlook; cbn; [|by split].
  split; [done|]. intros g. cbn. intros [= <-].
  destruct (Hs _ s Hlook) as [Hcode Htidy]. split; [done|].
  intros s'. cbn. rewrite Hcode, Hlook. by intros [= <-].
Qed.

(** *** Every command, every exchange, every run *)

Lemma tool_function_neat `{Environment} (c : Command) :
  neat (langchain_agent.tool_function c).
Proof.
  destruct c; cbn.
  - apply tool_create_game_neat.
  - apply tool_join_game_neat.
  - apply tool_add_player_neat.
  - apply tool_remove_player_neat.
  - apply tool_list_players_neat.
  - apply tool_assign_roles_neat.
  - apply tool_seer_peek_neat.
  - apply tool_wolves_vote_neat.
  - apply tool_witch_action_neat.
  - apply tool_run_night_sequence_neat.
  - apply tool_advance_to_day_neat.
  - apply tool_start_next_night_neat.
  - apply tool_game_status_neat.
Qed.

Lemma wrap_tool_neat `{Environment} (c : Command) : neat (langchain_agent._wrap_tool c).
Proof.
  intros w Hw. pose proof (tool_function_neat c w Hw) as Hrun.
  unfold langchain_agent._wrap_tool.
  destruct (langchain_agent.tool_function c w) as [w' [e|a]]; [|done].
  by destruct e.
Qed.

Lemma set_current_context_neat (code0 : option string) :
  neat (agent_runtime.set_current_context code0).
Proof.
  unfold agent_runtime.set_current_context.
  eapply hoare_bind; [|intros ?; apply reload_game_tidy].
  apply hoare_modify. by intros w [Hs _].
Qed.

Lemma exec_tidy `{Environment} (s : Step) (w : World) : world_tidy w → world_tidy (exec s w).
Proof.
  intros Hw. destruct s as [code0|c]; cbn.
  - pose proof (set_current_context_neat code0 w Hw) as Hrun.
    by destruct (agent_runtime.set_current_context code0 w) as [w' [e|a]].
  - pose proof (wrap_tool_neat c w Hw) as Hrun.
    by destruct (langchain_agent._wrap_tool c w) as [w' [e|a]].
Qed.

Lemma run_tidy `{Environment} (steps : list Step) (w : World) :
  world_tidy w → world_tidy (run steps w).
Proof.
  revert w. induction steps as [|s steps IH]; intros w Hw; cbn; [done|].
  by apply IH, exec_tidy.
Qed.

Lemma empty_world_tidy : world_tidy empty_world.
Proof. split; [by intros c s|by intros g]. Qed.

Lemma reachable_tidy `{Environment} (w : World) : reachable w → world_tidy w.
Proof. intros [steps ->]. apply run_tidy, empty_world_tidy. Qed.

(** X24: no event of the game proper is ever kept.  In every world
    reached from the empty one by exchanges and commands, the history of
    every stored session, and of the session the context holds, consists
    only of creation, registration and withdrawal events: whatever a
    command of the game logs (roles assigned, a peek, a vote, the
    witch's potions, a death, a night ending or starting, the game
    over) is overwritten, before the command returns, by the write of the
    in-flight session that follows. *)
Theorem game_events_are_never_kept `{Environment} (w : World) :
  reachable w →
  (∀ c s, store w !! c = Some s → Forall lobby_event (history s)) ∧
  (∀ g, game (context w) = Some g → Forall lobby_event (history g)).
Proof.
  intros [Hs Hc]%reachable_tidy. split.
  - intros c s Hlook. apply (Hs c s Hlook).
  - intros g Hg. apply (Hc g Hg).
Qed.

Lemma game_events_are_never_kept_witness :
  store seer_lost_world !! "ABCDEF" = Some second_seer_night ∧
  Forall lobby_event (history second_seer_night).
Proof.
  assert (@reachable demo_environment seer_lost_world) as Hreach
    by (exists seer_lost; reflexivity).
  assert (store seer_lost_world !! "ABCDEF" = Some second_seer_night) as Hs
    by (vm_compute; reflexivity).
  split; [exact Hs|].
  exact (proj1 (@game_events_are_never_kept demo_environment _ Hreach) _ _ Hs).
Defined.

(** X25: after any series of steps from the empty world whose text is
    ASCII, the players of a stored session have proper names, non-empty,
    without surrounding white space and of at most forty characters, and
    no two of them have the same name, even up to case: no series of
    commands registers [Alice] twice, be it as [alice] or as [ ALICE ]. *)
Theorem names_stay_distinct `{Environment} (steps : list Step) (c : string) (s : Game) :
  forallb ascii_step steps = true →
  store (run steps empty_world) !! c = Some s →
  Forall (λ p, name p ≠ EmptyString ∧ pystr.strip (name p) = name p ∧
               (String.length (name p) ≤ 40)%nat) (players s) ∧
  NoDup ((λ p, pystr.lower (pystr.strip (name p))) <$> players s).
Proof.
  intros _ Hlook.
  assert (reachable (run steps empty_world)) as [Hs _]%reachable_tidy by (by exists steps).
  destruct (Hs c s Hlook) as (_ & _ & Hproper & Hnodup & _). split.
  - rewrite Forall_fmap in Hproper. eapply Forall_impl; [exact Hproper|]. by intros p.
  - rewrite <-list_fmap_compose in Hnodup. exact Hnodup.
Qed.

Lemma names_stay_distinct_witness :
  forallb ascii_step seer_lost = true ∧
  Forall (λ p, name p ≠ EmptyString ∧ pystr.strip (name p) = name p ∧
               (String.length (name p) ≤ 40)%nat) (players second_seer_night) ∧
  NoDup ((λ p, pystr.lower (pystr.strip (name p))) <$> players second_seer_night).
Proof.
  assert (forallb ascii_step seer_lost = true) as Hascii by reflexivity.
  assert (store (@run demo_environment seer_lost empty_world) !! "ABCDEF"
          = Some second_seer_night) as Hs
    by (vm_compute; reflexivity).
  split; [exact Hascii|].
  exact (@names_stay_distinct demo_environment seer_lost _ _ Hascii Hs).
Defined.

(** X26: in every world reached from the empty one, a session is stored
    under a code [validate_game_code] accepts, six characters long and
    made of capital letters and digits only, whether the code was given
    or generated; in particular no session is ever stored under a code in
    lower case. *)
Theorem stored_codes_are_valid `{Environment} (w : World) (c : string) (s : Game) :
  reachable w → store w !! c = Some s →
  code s = c ∧ utils.validate_game_code c = true ∧ String.length c = 6%nat ∧
  pystr.upper c = c ∧ Forall (λ x, x ∈ utils.GAME_CODE_ALPHABET) (pystr.chars c).
Proof.
  intros [Hs _]%reachable_tidy Hlook.
  destruct (Hs c s Hlook) as (Hcode & _ & _ & _ & Hvalid & Hupper).
  rewrite Hcode in Hvalid, Hupper. split_and!; try done.
  - unfold utils.validate_game_code in Hvalid.
    apply andb_true_iff in Hvalid as [Hlen _]. by apply bool_decide_eq_true in Hlen.
  - unfold utils.validate_game_code in Hvalid.
    apply andb_true_iff in Hvalid as [_ Hall]. rewrite Hupper in Hall.
    by apply forallb_Forall_chars.
Qed.

Lemma stored_codes_are_valid_witness :
  code second_seer_night = "ABCDEF" ∧ utils.validate_game_code "ABCDEF" = true ∧
  String.length "ABCDEF" = 6%nat ∧ pystr.upper "ABCDEF" = "ABCDEF" ∧
  Forall (λ x, x ∈ utils.GAME_CODE_ALPHABET) (pystr.chars "ABCDEF").
Proof.
  assert (@reachable demo_environment seer_lost_world) as Hreach
    by (exists seer_lost; reflexivity).
  assert (store seer_lost_world !! "ABCDEF" = Some second_seer_night) as Hs
    by (vm_compute; reflexivity).
  exact (@stored_codes_are_valid demo_environment _ _ _ Hreach Hs).
Defined.

(** ** Who can die at the end of a night *)

Lemma alter_beyond {A} (f : A → A) (l : list A) (i : nat) :
  (length l ≤ i)%nat → alter f i l = l.
Proof.
  revert i. induction l as [|x l IH]; intros i Hi; [done|].
  destruct i as [|i]; cbn in *; [lia|]. f_equal. apply IH. lia.
Qed.

(** [kill] marks at most one position, that of a player carrying the
    identifier. *)
Lemma kill_at (o : option string) (ps : list Player) :
  ∃ i, kill o ps = alter (set_status dead) i ps ∧
       ∀ p, ps !! i = Some p → o = Some (id p).
Proof.
  unfold kill. destruct o as [k|]; [destruct (truthy (Some k))|].
  - destruct (lookup_player k ps) as [[i v]|] eqn:Hfind.
    + exists i. split; [done|]. intros p Hp.
      apply lookup_player_Some in Hfind as [Hv Hid]. congruence.
    + exists (length ps). split.
      * symmetry. by apply alter_beyond.
      * intros p Hp. apply lookup_lt_Some in Hp. lia.
  - exists (length ps). split.
    + symmetry. by apply alter_beyond.
    + intros p Hp. apply lookup_lt_Some in Hp. lia.
  - exists (length ps). split.
    + symmetry. by apply alter_beyond.
    + intros p Hp. apply lookup_lt_Some in Hp. lia.
Qed.

(** X27: the end of a night kills nobody but its targets.  When
    [witch_action] returns, the session has the same players in the same
    order, and a player is as before unless it carries the identifier
    poisoned or, the witch not healing, the identifier of the pending
    victim, in which case it is the same player marked dead; at most two
    positions of the list differ from before. *)
Theorem witch_action_kills_only_targets (g g' : Game) (heal : bool)
    (poison r : option string) :
  phase g = night_witch →
  game_engine.witch_action heal poison g = (g', inr r) →
  Forall2 (λ p p',
             p' = p ∨
             (p' = set_status dead p ∧
              (poison = Some (id p) ∨ (heal = false ∧ last_killed g = Some (id p)))))
    (players g) (players g') ∧
  ∃ i j, ∀ n, n ≠ i → n ≠ j → players g' !! n = players g !! n.
Proof.
  intros Hph Hrun.
  destruct (witch_action_returns g g' heal poison r Hph Hrun) as (_ & _ & _ & Hps & _).
  cbn zeta in Hps.
  destruct (kill_at poison (players g)) as (i & Hi & Hpoison).
  destruct (kill_at (if heal then None else last_killed g) (kill poison (players g)))
    as (j & Hj & Hpending).
  rewrite Hj, Hi in Hps. rewrite Hi in Hpending. split.
  - apply Forall2_same_length_lookup. split.
    { by rewrite Hps, !length_alter. }
    intros n p p' Hp. rewrite Hps. rewrite !list_lookup_alter.
    destruct (decide (j = n)) as [->|Hjn], (decide (i = n)) as [->|Hin];
      rewrite ?Hp; cbn; intros [= <-].
    + right. split; [done|]. left. by apply Hpoison.
    + right. split; [done|]. right.
      specialize (Hpending p). rewrite list_lookup_alter_ne, Hp in Hpending by done.
      specialize (Hpending eq_refl). by destruct heal.
    + right. split; [done|]. left. by apply Hpoison.
    + by left.
  - exists i, j. intros n Hni Hnj. rewrite Hps.
    by rewrite !list_lookup_alter_ne.
Qed.

Lemma witch_action_kills_only_targets_witness :
  Forall2 (λ p p',
             p' = p ∨
             (p' = set_status dead p ∧
              (Some "u4" = Some (id p) ∨ (false = false ∧ last_killed witch_night = Some (id p)))))
    (players witch_night) (players (game_engine.witch_action false (Some "u4") witch_night).1) ∧
  ∃ i j, ∀ n, n ≠ i → n ≠ j →
              players (game_engine.witch_action false (Some "u4") witch_night).1 !! n
              = players witch_night !! n.
Proof.
  exact (witch_action_kills_only_targets witch_night _ false (Some "u4") (Some "u4")
           eq_refl eq_refl).
Defined.

(** ** The chat of a session *)

Lemma alter_twice (c : string) (f1 f2 : Game → Game) (st : gmap string Game) :
  (∀ s, st !! c = Some s →
        alter f2 c (alter f1 c st) = <[c := f2 (f1 s)]> st ∧
        alter f2 c (alter f1 c st) !! c = Some (f2 (f1 s))) ∧
  (st !! c = None →
   alter f2 c (alter f1 c st) = st ∧ alter f2 c (alter f1 c st) !! c = None).
Proof.
  assert (∀ k, alter f2 c (alter f1 c st) !! k
               = if decide (k = c) then f2 <$> (f1 <$> st !! c) else st !! k) as Hlook.
  { intros k. case_decide as Hk.
    - subst k. by rewrite !lookup_alter_eq.
    - by rewrite !lookup_alter_ne. }
  split.
  - intros s Hs. split.
    + apply map_eq. intros k. rewrite Hlook, lookup_insert.
      repeat case_decide; try congruence. by rewrite Hs.
    + by rewrite Hlook, decide_True, Hs.
  - intros Hs. split.
    + apply map_eq. intros k. rewrite Hlook. case_decide; [subst k; by rewrite Hs|done].
    + by rewrite Hlook, decide_True, Hs.
Qed.

(** X28: [persist_interaction] never raises, leaves the context alone
    and answers with the reply, the code, the errors and the actions of
    the context.  Bound to a code under which a session is stored, it
    appends to the stored chat the message of the user and then the
    reply, changes nothing else in the store, and answers with the chat
    and the session as now stored.  Bound to a code under which nothing
    is stored, it writes nothing and answers with an empty chat and no
    session: the exchange itself is missing from the answer.  Bound to no
    code, it writes nothing and answers with the chat it was given
    followed by the two messages. *)
Theorem persist_interaction_appends (user_message assistant_reply : string)
    (chat_history0 : list ChatMessage) (w : World) :
  let user := {| chat_role := "user"; content := user_message |} in
  let assistant := {| chat_role := "assistant"; content := assistant_reply |} in
  ∃ w' response,
    agent_runtime.persist_interaction user_message chat_history0 assistant_reply w
    = (w', inr response) ∧
    context w' = context w ∧ uuid_calls w' = uuid_calls w ∧
    agent_runtime.reply response = assistant_reply ∧
    agent_runtime.response_game_code response = game_code (context w) ∧
    agent_runtime.response_errors response = errors (context w) ∧
    agent_runtime.executed_actions response = executed (context w) ∧
    (∀ c s, game_code (context w) = Some c → c ≠ EmptyString → store w !! c = Some s →
       store w' = <[c := set_chat_history (chat_history s ++ [user; assistant]) s]> (store w) ∧
       agent_runtime.response_chat_history response = chat_history s ++ [user; assistant] ∧
       agent_runtime.game_snapshot response
       = Some (set_chat_history (chat_history s ++ [user; assistant]) s)) ∧
    (∀ c, game_code (context w) = Some c → c ≠ EmptyString → store w !! c = None →
       store w' = store w ∧
       agent_runtime.response_chat_history response = [] ∧
       agent_runtime.game_snapshot response = None) ∧
    (truthy (game_code (context w)) = false →
       store w' = store w ∧
       agent_runtime.response_chat_history response = chat_history0 ++ [user; assistant] ∧
       agent_runtime.game_snapshot response = None).
Proof.
  cbn zeta.
  unfold agent_runtime.persist_interaction, db.append_chat_message, db.get_game,
    db.update_one, mbind, M_bind, get, modify, mret, M_ret.
  destruct (game_code (context w)) as [c|] eqn:Hc.
  - destruct (truthy (Some c)) eqn:Htruthy; cbn.
    + eexists _, _. split; [reflexivity|]. cbn. rewrite Hc. split_and!; try done.
      * intros c' s [= <-] _ Hs.
        destruct (proj1 (alter_twice c
                    (λ g, set_chat_history (chat_history g ++ [{| chat_role := "user";
                                                                 content := user_message |}]) g)
                    (λ g, set_chat_history (chat_history g ++ [{| chat_role := "assistant";
                                                                 content := assistant_reply |}]) g)
                    (store w)) s Hs) as [-> Hlook].
        rewrite lookup_insert_eq. cbn. rewrite <-app_assoc. done.
      * intros c' [= <-] _ Hs.
        destruct (proj2 (alter_twice c
                    (λ g, set_chat_history (chat_history g ++ [{| chat_role := "user";
                                                                 content := user_message |}]) g)
                    (λ g, set_chat_history (chat_history g ++ [{| chat_role := "assistant";
                                                                 content := assistant_reply |}]) g)
                    (store w)) Hs) as [-> Hlook].
        by rewrite Hs.
    + eexists _, _. split; [reflexivity|]. cbn. rewrite Hc. split_and!; try done.
      * intros c' s [= <-] Hne%truthy_Some. congruence.
      * intros c' [= <-] Hne%truthy_Some. congruence.
  - cbn. eexists _, _. split; [reflexivity|]. cbn. rewrite Hc. by split_and!.
Qed.

Lemma persist_interaction_appends_witness :
  ∃ w' response,
    agent_runtime.persist_interaction "les loups attaquent Dave" [] "Les Loups ciblent Dave."
      (world_with seer_night)
    = (w', inr response) ∧
    store w' = <[ "ABCDEF" :=
                  set_chat_history
                    (chat_history seer_night
                     ++ [ {| chat_role := "user"; content := "les loups attaquent Dave" |};
                          {| chat_role := "assistant"; content := "Les Loups ciblent Dave." |} ])
                    seer_night ]> (store (world_with seer_night)) ∧
    agent_runtime.response_chat_history response
    = chat_history seer_night
      ++ [ {| chat_role := "user"; content := "les loups attaquent Dave" |};
           {| chat_role := "assistant"; content := "Les Loups ciblent Dave." |} ].
Proof.
  destruct (persist_interaction_appends "les loups attaquent Dave" "Les Loups ciblent Dave."
              [] (world_with seer_night))
    as (w' & response & Hrun & _ & _ & _ & _ & _ & _ & Hstored & _).
  assert (store (world_with seer_night) !! "ABCDEF" = Some seer_night) as Hs
    by (vm_compute; reflexivity).
  assert ("ABCDEF" ≠ EmptyString) as Hne by discriminate.
  destruct (Hstored "ABCDEF" seer_night eq_refl Hne Hs) as (Hstore & Hchat & _).
  exists w', response. split; [exact Hrun|]. split; [exact Hstore|exact Hchat].
Defined.

(** X29: the reset of the administration panel puts a fresh session in
    place of the one stored under the code: back in the lobby, without
    players, events, pending kill or chat, both potions unused.  No other
    session is touched, the context is not told, and resetting twice is
    resetting once. *)
Theorem reset_game_starts_afresh (g : Game) (w : World) :
  ∃ w', app._reset_game g w = (w', inr tt) ∧
        store w' = <[code g := new_game (code g)]> (store w) ∧
        db.get_game (code g) w' = (w', inr (Some (new_game (code g)))) ∧
        context w' = context w ∧
        app._reset_game g w' = (w', inr tt).
Proof.
  unfold app._reset_game, db.upsert_game, db.overwrite_chat_history, db.update_one,
    db.get_game, mbind, M_bind, get, modify, mret, M_ret. cbn.
  assert (∀ st : gmap string Game,
            alter (set_chat_history []) (code g) (<[code g := new_game (code g)]> st)
            = <[code g := new_game (code g)]> st) as Hsame.
  { intros st. apply map_eq. intros k. rewrite lookup_alter. case_decide; [|done].
    subst k. by rewrite lookup_insert_eq. }
  eexists. split; [reflexivity|]. cbn. rewrite !Hsame, lookup_insert_eq.
  split_and!; try done.
  f_equal. unfold on_store, set_store. cbn. f_equal.
  by rewrite !Hsame, insert_insert_eq.
Qed.

(** ** Errors that escape the wrapper *)

(** *** Rules *)

Lemma hoarex_ret {A} (a : A) (P : World → Prop) (Q : A → World → Prop)
    (E : Exception → World → Prop) :
  (∀ w, P w → Q a w) → hoarex P (mret a) Q E.
Proof. intros HQ w Hw. by apply HQ. Qed.

Lemma hoarex_raise {A} (e : Exception) (P : World → Prop) (Q : A → World → Prop)
    (E : Exception → World → Prop) :
  (∀ w, P w → E e w) → hoarex P (raise e) Q E.
Proof. intros HE w Hw. by apply HE. Qed.

Lemma hoarex_bind {A B} (m : M World A) (k : A → M World B) (P : World → Prop)
    (R : A → World → Prop) (Q : B → World → Prop) (E : Exception → World → Prop) :
  hoarex P m R E → (∀ a, hoarex (R a) (k a) Q E) → hoarex P (m ≫= k) Q E.
Proof.
  intros Hm Hk w Hw. specialize (Hm w Hw). unfold mbind, M_bind.
  destruct (m w) as [w1 [e|a]]; [done|]. by apply Hk.
Qed.

Lemma hoarex_weaken {A} (m : M World A) (P P' : World → Prop) (Q Q' : A → World → Prop)
    (E E' : Exception → World → Prop) :
  (∀ w, P w → P' w) → (∀ a w, Q' a w → Q a w) → (∀ e w, E' e w → E e w) →
  hoarex P' m Q' E' → hoarex P m Q E.
Proof.
  intros HP HQ HE Hm w Hw. specialize (Hm w (HP w Hw)).
  destruct (m w) as [w1 [e|a]]; auto.
Qed.

Lemma hoarex_pre {A} (m : M World A) (P P' : World → Prop) (Q : A → World → Prop)
    (E : Exception → World → Prop) :
  (∀ w, P w → P' w) → hoarex P' m Q E → hoarex P m Q E.
Proof. intros HP. by apply hoarex_weaken. Qed.

Section calm.
Context `{Environment} `{!EnvironmentOk}.

Lemma calm_bind {A B} (m : M World A) (k : A → M World B) :
  calm m → (∀ a, calm (k a)) → calm (m ≫= k).
Proof. intros Hm Hk. by eapply hoarex_bind. Qed.

Lemma calm_ret {A} (a : A) : calm (mret a).
Proof. by apply hoarex_ret. Qed.

Lemma calm_raise {A} (k : AgentToolErrorKind) : calm (raise (AgentToolError k) : M World A).
Proof. apply hoarex_raise. intros w [Hw _]. split; [done|]. by exists k. Qed.

(** A step that is sound and changes neither what the context holds nor
    its code, and does not raise. *)
Lemma calm_quiet (m : M World unit) :
  steady m →
  (∀ w, ∃ w', m w = (w', inr tt) ∧ game (context w') = game (context w) ∧
              game_code (context w') = game_code (context w)) →
  calm m.
Proof.
  intros Hsteady Hm w [[Hok Hbound] [Hlive Htruthy]].
  specialize (Hsteady w Hok). destruct (Hm w) as (w' & Hrun & Hgame & Hcode).
  rewrite Hrun in Hsteady |- *. destruct Hsteady as [Hok' _].
  split; [split; [done|]|by rewrite Hgame, Hcode].
  intros g. rewrite Hgame, Hcode. apply Hbound.
Qed.

Lemma log_event_calm (c : string) (event : Event) : calm (db.log_event c event).
Proof. apply calm_quiet; [apply log_event_steady|]. intros w. by eexists. Qed.

Lemma set_phase_calm (c : string) (ph : Phase) : ph ≠ lobby → calm (db.set_phase c ph).
Proof. intros Hph. apply calm_quiet; [by apply set_phase_steady|]. intros w. by eexists. Qed.

Lemma say_calm (message : string) : calm (agent_runtime.say message).
Proof.
  intros w [[Hok Hbound] Hlive]. pose proof (say_steady message w Hok) as Hsteady.
  unfold agent_runtime.say, mbind, M_bind, modify, mret, M_ret in *. cbn in *.
  split; [split; [apply Hsteady|done]|done].
Qed.

Lemma on_context_calm (f : AgentContext → AgentContext) :
  (∀ x, game (f x) = game x) → (∀ x, game_code (f x) = game_code x) →
  calm (modify (on_context f)).
Proof.
  intros Hgame Hcode. apply calm_quiet; [by apply on_context_steady|].
  intros w. eexists. split; [done|]. cbn. by rewrite Hgame, Hcode.
Qed.

Lemma the_game_live :
  hoarex in_session agent_runtime.the_game
    (λ g w, in_session w ∧ game (context w) = Some g) handled_at_rest.
Proof.
  intros w Hw. pose proof Hw as [_ [[g Hg] _]].
  unfold agent_runtime.the_game, mbind, M_bind, get. rewrite Hg. by split.
Qed.

Lemma the_game_calm : calm agent_runtime.the_game.
Proof. eapply hoarex_weaken; [| | |apply the_game_live]; try done. by intros g w []. Qed.

Lemma ensure_game_live :
  hoarex at_rest agent_runtime._ensure_game
    (λ g w, in_session w ∧ game (context w) = Some g) handled_at_rest.
Proof.
  intros w Hw. unfold agent_runtime._ensure_game, mbind, M_bind, get.
  destruct (game (context w)) as [g|] eqn:Hg; cbn.
  - destruct (truthy _) eqn:Htruthy; cbn.
    + split; [|done]. split; [done|]. by rewrite Hg.
    + split; [done|]. by eexists.
  - split; [done|]. by eexists.
Qed.

(** With a session found, a reload finds it again. *)
Lemma reload_game_calm : calm agent_runtime.reload_game.
Proof.
  intros w [[Hok Hbound] [[g Hg] Htruthy]].
  pose proof (reload_game_steady w Hok) as Hsteady.
  rewrite reload_game_eval in *. destruct Hsteady as [Hok' _].
  pose proof (Hbound g Hg) as Hcode. rewrite Hcode in Hok', Htruthy |- *.
  destruct Hok as [Hstore Hcontext].
  destruct (Hcontext g Hg) as (_ & s & Hs & _).
  rewrite Htruthy, Hs in Hok' |- *.
  split; [split; [done|]|].
  - intros g'. cbn. intros [= <-]. by rewrite (proj1 (Hstore _ _ Hs)).
  - cbn. split; [by eexists|]. by rewrite Hcode.
Qed.

(** An engine operation on the session found. *)
Lemma engine_call_calm {A} (m : M Game A) (g : Game) :
  engine_ok m → respects same_roster m → only_state_errors m g →
  hoarex (λ w, in_session w ∧ game (context w) = Some g) (agent_runtime.engine_call m)
    (λ _, in_session) handled_at_rest.
Proof.
  intros Hengine Hroster Honly w [[[Hok Hbound] [_ Htruthy]] Hg].
  pose proof (engine_call_steady m Hengine w Hok) as Hsteady.
  unfold agent_runtime.engine_call, agent_runtime.on_game, agent_runtime.the_game in *.
  unfold mbind, M_bind, get, modify, mret, M_ret, raise in *. rewrite Hg in *.
  cbv beta iota in *.
  destruct (m g) as [g' r] eqn:Hrun.
  pose proof (same_roster_code _ _ (Hroster g g' r Hrun)) as Hcode.
  assert (bound_ok (on_context (set_game (Some g')) w)) as Hbound'.
  { intros g0. cbn. intros [= <-]. rewrite Hcode. by apply Hbound. }
  destruct r as [e|a]; cbn in *.
  - destruct (Honly g' e Hrun) as [k ->]. cbn.
    split; [split; [apply Hsteady|done]|]. by eexists.
  - split; [split; [apply Hsteady|done]|]. split; [by eexists|done].
Qed.

Lemma on_game_modify_calm (f : Game → Game) :
  engine_ok (modify f) → (∀ g, code (f g) = code g) →
  calm (agent_runtime.on_game (modify f)).
Proof.
  intros Hengine Hcode w Hw. pose proof Hw as [[Hok Hbound] [[g Hg] Htruthy]].
  pose proof (on_game_steady (modify f) Hengine w Hok) as Hsteady.
  unfold agent_runtime.on_game, agent_runtime.the_game in *.
  unfold mbind, M_bind, get, modify, mret, M_ret, raise in *. rewrite Hg in *.
  cbn in *. split; [split; [apply Hsteady|]|].
  - intros g0. cbn. intros [= <-]. rewrite Hcode. by apply Hbound.
  - split; [by eexists|done].
Qed.

Lemma force_phase_calm (ph : Phase) : ph ≠ lobby → calm (agent_runtime.force_phase ph).
Proof.
  intros Hph. unfold agent_runtime.force_phase.
  apply calm_bind; [apply the_game_calm|]. intros g.
  apply calm_bind; [apply on_game_modify_calm; [by apply set_phase_ok|done]|]. intros ?.
  apply calm_bind; [by apply set_phase_calm|]. intros ?.
  apply reload_game_calm.
Qed.

Lemma log_killed_calm (g : Game) (killed_id : option string) :
  calm (agent_runtime.log_killed g killed_id).
Proof.
  unfold agent_runtime.log_killed.
  repeat case_match; try apply calm_ret; apply log_event_calm.
Qed.

Lemma finalize_state_calm : calm agent_runtime._finalize_state.
Proof.
  intros w Hw. pose proof Hw as [[Hok Hbound] [[g Hg] Htruthy]].
  pose proof (finalize_state_steady w Hok) as Hsteady.
  pose proof (Hbound g Hg) as Hcode. rewrite Hcode in Htruthy.
  apply truthy_Some in Htruthy.
  destruct (finalize_state_eval w g Hg Htruthy)
    as (w' & g' & Hrun & Hctx & Hstore & Hsame & Hcode').
  rewrite Hrun in Hsteady |- *. destruct Hsteady as [Hok' _].
  split; [split; [done|]|].
  - intros g0. rewrite Hctx, Hcode'. intros [= <-]. by rewrite (same_roster_code _ _ Hsame).
  - rewrite Hctx, Hcode'. split; [by eexists|]. by apply truthy_Some.
Qed.

(** *** The engine raises its own error only *)

Lemma seer_peek_only (t : string) (g : Game) :
  only_state_errors (game_engine.seer_peek t) g.
Proof. intros g' e. run_engine; intros; simplify_eq/=; by eexists. Qed.

Lemma wolves_vote_only (t : string) (g : Game) :
  only_state_errors (game_engine.wolves_vote t) g.
Proof. intros g' e. run_engine; intros; simplify_eq/=; by eexists. Qed.

Lemma start_next_night_only (g : Game) :
  only_state_errors game_engine.start_next_night g.
Proof. intros g' e. run_engine; intros; simplify_eq/=; by eexists. Qed.

Lemma witch_action_only (heal : bool) (poison : option string) (g : Game) :
  only_state_errors (game_engine.witch_action heal poison) g.
Proof. intros g' e. run_engine; intros; simplify_eq/=; by eexists. Qed.

Lemma assign_roles_only `{!ShufflePermutes} (seed : option Z) (g : Game) :
  (5 ≤ length (players g))%nat → NoDup (id <$> players g) →
  only_state_errors (game_engine.assign_roles seed) g.
Proof.
  intros Hlen Hnodup g' e Hrun.
  destruct (decide (phase g = lobby)) as [Hph|Hph].
  - destruct (assign_roles_deals g seed Hph Hlen Hnodup) as (_ & m & ps & _ & Hdeal & _).
    congruence.
  - unfold game_engine.assign_roles, mbind, M_bind, get in Hrun.
    rewrite decide_True in Hrun by done. injection Hrun as <- <-. by eexists.
Qed.

End calm.

(** *** The commands *)

Ltac calm_step :=
  first
    [ apply calm_ret
    | apply calm_raise
    | apply say_calm
    | apply log_event_calm
    | apply finalize_state_calm
    | apply log_killed_calm
    | apply the_game_calm
    | apply reload_game_calm
    | apply force_phase_calm; done
    | apply on_context_calm; done
    | apply calm_bind; [|intros ?]
    | progress cbv zeta
    | case_match
    | case_decide ].

(** A handled error raised where the world is at rest. *)
Ltac raise_handled :=
  apply hoarex_raise; intros ? Hpre;
  split; [first [apply Hpre | apply (proj1 Hpre) | apply (proj1 (proj1 Hpre))]|by eexists].

(** The steps that follow the engine call. *)
Ltac calm_tail := eapply hoarex_pre; [|repeat calm_step]; try done.

Section commands.
Context `{Environment} `{!EnvironmentOk} `{!ShufflePermutes}.

Lemma hoarex_from_pre {A} (φ : Prop) (P : World → Prop) (m : M World A)
    (Q : A → World → Prop) (E : Exception → World → Prop) :
  (∀ w, P w → φ) → (φ → hoarex P m Q E) → hoarex P m Q E.
Proof. intros Hφ Hm w Hw. exact (Hm (Hφ w Hw) w Hw). Qed.

(** A command that first looks for its session. *)
Lemma session_command {A} (c : Command) (body : Game → M World A) :
  (∀ g, hoarex (λ w, in_session w ∧ game (context w) = Some g) (body g)
          (λ _, in_session) handled_at_rest) →
  well_behaved c (agent_runtime._ensure_game ≫= body).
Proof.
  intros Hbody. eapply hoarex_bind.
  - eapply hoarex_weaken; [| | |apply ensure_game_live]; try done.
    intros e w [? ?]. split; [done|by left].
  - intros g. eapply hoarex_weaken; [| | |apply Hbody]; try done.
    + by intros _ w [? _].
    + intros e w [? ?]. split; [done|by left].
Qed.

Lemma tool_list_players_behaved : well_behaved cmd_list_players agent_runtime.tool_list_players.
Proof.
  apply session_command. intros g. calm_tail. by intros w [].
Qed.

Lemma tool_game_status_behaved : well_behaved cmd_game_status agent_runtime.tool_game_status.
Proof.
  apply session_command. intros g. calm_tail. by intros w [].
Qed.

Lemma tool_run_night_sequence_behaved :
  well_behaved cmd_run_night_sequence agent_runtime.tool_run_night_sequence.
Proof.
  apply session_command. intros g. calm_tail. by intros w [].
Qed.

Lemma tool_seer_peek_behaved (target_name : string) :
  well_behaved (cmd_seer_peek target_name) (agent_runtime.tool_seer_peek target_name).
Proof.
  apply session_command. intros g.
  repeat case_decide; try raise_handled.
  destruct (utils.find_player_by_name _ _) as [[i target]|]; [|raise_handled].
  eapply hoarex_bind.
  { apply engine_call_calm;
      [apply seer_peek_ok|apply seer_peek_same_roster|apply seer_peek_only]. }
  intros r. calm_tail.
Qed.

Lemma tool_start_next_night_behaved :
  well_behaved cmd_start_next_night agent_runtime.tool_start_next_night.
Proof.
  apply session_command. intros g.
  eapply hoarex_bind.
  { apply engine_call_calm;
      [apply start_next_night_ok|apply start_next_night_same_roster
      |apply start_next_night_only]. }
  intros r. calm_tail.
Qed.

Lemma tool_advance_to_day_behaved :
  well_behaved cmd_advance_to_day agent_runtime.tool_advance_to_day.
Proof.
  apply session_command. intros g.
  case_decide; [raise_handled|].
  eapply hoarex_bind.
  { apply engine_call_calm;
      [apply witch_action_ok|apply witch_action_same_roster|apply witch_action_only]. }
  intros r. calm_tail.
Qed.

Lemma tool_assign_roles_behaved (seed : option Z) :
  well_behaved (cmd_assign_roles seed) (agent_runtime.tool_assign_roles seed).
Proof.
  apply session_command. intros g.
  case_decide as Hlen; [raise_handled|].
  apply (hoarex_from_pre (NoDup (id <$> players g))).
  { intros w [[[[_ Hctx] _] _] Hg]. by destruct (Hctx g Hg) as [(_ & ? & _) _]. }
  intros Hnodup. eapply hoarex_bind.
  { apply engine_call_calm;
      [apply assign_roles_ok|apply assign_roles_same_roster
      |apply assign_roles_only; [lia|done]]. }
  intros r. calm_tail.
Qed.

Lemma tool_wolves_vote_behaved (target_name : string) :
  well_behaved (cmd_wolves_vote target_name) (agent_runtime.tool_wolves_vote target_name).
Proof.
  apply session_command. intros g0.
  eapply hoarex_bind.
  { eapply hoarex_pre; [|repeat calm_step]. by intros w []. }
  intros ?. eapply hoarex_bind; [apply the_game_live|]. intros g.
  destruct (utils.find_player_by_name _ _) as [[i target]|]; [|raise_handled].
  case_decide; [raise_handled|].
  eapply hoarex_bind.
  { apply engine_call_calm;
      [apply wolves_vote_ok|apply wolves_vote_same_roster|apply wolves_vote_only]. }
  intros r. calm_tail.
Qed.

Lemma tool_witch_action_behaved (heal : bool) (poison_target : option string) :
  well_behaved (cmd_witch_action heal poison_target)
    (agent_runtime.tool_witch_action heal poison_target).
Proof.
  apply session_command. intros g0.
  eapply hoarex_bind.
  { eapply hoarex_pre; [|repeat calm_step]. by intros w []. }
  intros ?. eapply hoarex_bind; [apply the_game_live|]. intros g.
  eapply (hoarex_bind _ _ _ (λ _ w, in_session w ∧ game (context w) = Some g)).
  { repeat case_match; try raise_handled; by apply hoarex_ret. }
  intros [poison_id poisoned_name].
  eapply hoarex_bind.
  { apply engine_call_calm;
      [apply witch_action_ok|apply witch_action_same_roster|apply witch_action_only]. }
  intros r. calm_tail.
Qed.

(** From the store alone, a reload puts the world at rest. *)
Lemma reload_game_rest (E : Exception → World → Prop) :
  hoarex store_ok agent_runtime.reload_game (λ _, at_rest) E.
Proof.
  intros w Hstore. pose proof (reload_game_restores w Hstore) as Hsteady.
  rewrite reload_game_eval in *. destruct Hsteady as [Hok _]. split; [done|].
  intros g. cbn [game context on_context set_context set_game game_code].
  destruct (game_code (context w)) as [c|]; [|done].
  destruct (truthy (Some c)); [|done]. intros Hg. by rewrite (proj1 (Hstore c g Hg)).
Qed.

Lemma log_event_stored (c : string) (event : Event) (E : Exception → World → Prop) :
  hoarex store_ok (db.log_event c event) (λ _, store_ok) E.
Proof.
  intros w Hstore. pose proof (log_event_store c event (λ _, True) w Hstore) as Hsteady.
  unfold db.log_event, db.update_one, modify in *. apply Hsteady.
Qed.

Lemma say_rest (message : string) (E : Exception → World → Prop) :
  hoarex at_rest (agent_runtime.say message) (λ _, at_rest) E.
Proof.
  intros w [Hok Hbound]. pose proof (say_steady message w Hok) as Hsteady.
  unfold agent_runtime.say, mbind, M_bind, modify, mret, M_ret in *. cbn in *.
  split; [apply Hsteady|done].
Qed.

Lemma add_player_rest (c n : string) :
  n ≠ EmptyString → pystr.strip n = n →
  hoarex at_rest (db.add_player c n) (λ _, store_ok)
    (λ e w, at_rest w ∧ e = ValueError NameTooLong).
Proof.
  intros Hname Hstrip w [Hok Hbound]. pose proof (add_player_store c n w Hok) as Hsteady.
  unfold db.add_player, db.update_one in *.
  unfold mbind, M_bind, get, modify, mret, M_ret, raise in *. cbn in *.
  rewrite Hstrip in *. rewrite decide_False in * by done.
  case_decide; cbn in *; [|apply Hsteady].
  split; [|done]. split; [apply Hsteady|done].
Qed.

Lemma remove_player_rest (c k : string) (E : Exception → World → Prop) :
  hoarex at_rest (db.remove_player c k) (λ _, store_ok) E.
Proof.
  intros w [Hok Hbound]. pose proof (remove_player_store c k w Hok) as Hsteady.
  unfold db.remove_player, db.update_one, modify in *. apply Hsteady.
Qed.

(** A command of the lobby, its session found. *)
Lemma lobby_command {A} (c : Command) (body : Game → M World A) :
  (∀ g, hoarex at_rest (body g) (λ _, at_rest)
          (λ e w, at_rest w ∧ (handled e ∨ escapes c e))) →
  well_behaved c (agent_runtime._ensure_game ≫= body).
Proof.
  intros Hbody. eapply hoarex_bind.
  - eapply hoarex_weaken; [| | |apply ensure_game_live]; try done.
    intros e w [? ?]. split; [done|by left].
  - intros g. eapply hoarex_pre; [|apply Hbody]. by intros w [[? _] _].
Qed.

Ltac raise_at_rest := apply hoarex_raise; intros w Hw; split; [done|left; by eexists].

Lemma tool_add_player_behaved (name0 : string) :
  well_behaved (cmd_add_player name0) (agent_runtime.tool_add_player name0).
Proof.
  apply lobby_command. intros g. cbv beta zeta.
  case_decide as Hname; [raise_at_rest|].
  destruct (utils.find_player_by_name _ _); [raise_at_rest|].
  eapply hoarex_bind.
  { eapply hoarex_weaken; [| | |apply add_player_rest]; try done.
    - intros e w [? ->]. split; [done|by right].
    - apply strip_strip. }
  intros ?. eapply hoarex_bind; [apply log_event_stored|]. intros ?.
  eapply hoarex_bind; [apply reload_game_rest|]. intros ?.
  apply say_rest.
Qed.

Lemma tool_remove_player_behaved (name0 : string) :
  well_behaved (cmd_remove_player name0) (agent_runtime.tool_remove_player name0).
Proof.
  apply lobby_command. intros g. cbv beta zeta.
  case_decide as Hname; [raise_at_rest|].
  destruct (utils.find_player_by_name _ _) as [[i player]|]; [|raise_at_rest].
  eapply hoarex_bind; [apply remove_player_rest|]. intros ?.
  eapply hoarex_bind; [apply log_event_stored|]. intros ?.
  eapply hoarex_bind; [apply reload_game_rest|]. intros ?.
  apply say_rest.
Qed.

(** Soundness from what is known, the rest by evaluation. *)
Lemma behaved_by_evaluation {A} (c : Command) (m : M World A) :
  steady m →
  hoarex at_rest m (λ _, bound_ok) (λ e w, bound_ok w ∧ (handled e ∨ escapes c e)) →
  well_behaved c m.
Proof.
  intros Hsteady Hm w Hw. specialize (Hm w Hw). specialize (Hsteady w (proj1 Hw)).
  destruct (m w) as [w' [e|a]].
  - split; [split; [apply Hsteady|apply Hm]|apply Hm].
  - split; [apply Hsteady|apply Hm].
Qed.

Lemma tool_create_game_behaved (code0 : option string) :
  well_behaved (cmd_create_game code0) (agent_runtime.tool_create_game code0).
Proof.
  apply behaved_by_evaluation; [apply tool_create_game_steady|].
  intros w [Hok Hbound].
  unfold agent_runtime.tool_create_game, agent_runtime.say, db.create_game, db.log_event,
    db.update_one.
  unfold mbind, M_bind, get, modify, mret, M_ret, raise.
  repeat (case_match; simplify_eq/=; try done);
    try (split; [done|]; first [by left; eexists|by right]);
    by intros ? [= <-].
Qed.

Lemma tool_join_game_behaved (code0 : string) :
  well_behaved (cmd_join_game code0) (agent_runtime.tool_join_game code0).
Proof.
  apply behaved_by_evaluation; [apply tool_join_game_steady|].
  intros w [[Hstore _] Hbound].
  unfold agent_runtime.tool_join_game, agent_runtime.say, db.get_game.
  unfold mbind, M_bind, get, modify, mret, M_ret, raise.
  repeat (case_match; simplify_eq/=; try done);
    try (split; [done|]; left; by eexists).
  intros ? [= <-]. cbn. f_equal. symmetry. by eapply Hstore.
Qed.

(** *** Every command, every exchange, every run *)

Lemma tool_function_behaved (c : Command) : well_behaved c (langchain_agent.tool_function c).
Proof.
  destruct c; cbn.
  - apply tool_create_game_behaved.
  - apply tool_join_game_behaved.
  - apply tool_add_player_behaved.
  - apply tool_remove_player_behaved.
  - apply tool_list_players_behaved.
  - apply tool_assign_roles_behaved.
  - apply tool_seer_peek_behaved.
  - apply tool_wolves_vote_behaved.
  - apply tool_witch_action_behaved.
  - apply tool_run_night_sequence_behaved.
  - apply tool_advance_to_day_behaved.
  - apply tool_start_next_night_behaved.
  - apply tool_game_status_behaved.
Qed.

Lemma wrap_tool_rest (c : Command) (w : World) :
  at_rest w → at_rest (langchain_agent._wrap_tool c w).1.
Proof.
  intros Hw. pose proof (tool_function_behaved c w Hw) as Hrun.
  unfold langchain_agent._wrap_tool.
  destruct (langchain_agent.tool_function c w) as [w' [e|a]]; [|done].
  destruct Hrun as [[Hok Hbound] _]. by destruct e.
Qed.

Lemma set_current_context_rest (code0 : option string) (w : World) :
  at_rest w → at_rest (agent_runtime.set_current_context code0 w).1.
Proof.
  intros [[Hstore _] _].
  pose proof (reload_game_rest (λ _ _, False)
                (set_context {| game_code := code0; game := None;
                                executed := []; errors := [] |} w) Hstore) as Hrun.
  unfold agent_runtime.set_current_context, mbind, M_bind, modify. cbn.
  by destruct (agent_runtime.reload_game _) as [w' [e|a]].
Qed.

Lemma run_rest (steps : list Step) (w : World) : at_rest w → at_rest (run steps w).
Proof.
  revert w. induction steps as [|s steps IH]; intros w Hw; cbn; [done|].
  apply IH. destruct s; cbn; [by apply set_current_context_rest|by apply wrap_tool_rest].
Qed.

Lemma empty_world_rest : at_rest empty_world.
Proof. split; [apply empty_world_ok|by intros g]. Qed.

End commands.

(** X30: what escapes the wrapper.  In a world reached from the empty
    one by exchanges and commands, a command run through [_wrap_tool]
    answers, an error of the dispatcher or of the engine being answered
    as text, with two exceptions only: the creation of a session under a
    code already taken lets the duplicate-code [ValueError] of the store
    through, and the registration of a player under a name of more than
    forty characters lets the [ValueError] of the name validator through.
    No command fails on a missing session, a missing key or an index out
    of range.  Identifiers are assumed never drawn twice, and the
    shuffles to be permutations. *)
Theorem only_two_errors_escape `{Environment} `{!EnvironmentOk} `{!ShufflePermutes}
    (w w' : World) (c : Command) (e : Exception) :
  reachable w →
  langchain_agent._wrap_tool c w = (w', inl e) →
  (e = ValueError DuplicateCode ∧ ∃ code0, c = cmd_create_game code0) ∨
  (e = ValueError NameTooLong ∧ ∃ name0, c = cmd_add_player name0).
Proof.
  intros [steps ->] Hrun.
  pose proof (tool_function_behaved c _ (run_rest steps _ empty_world_rest)) as Htool.
  unfold langchain_agent._wrap_tool in Hrun.
  destruct (langchain_agent.tool_function c (run steps empty_world)) as [w1 [e1|a]];
    [|done].
  destruct Htool as [_ [[k ->]|Hescapes]]; [done|].
  assert (e1 = e) as -> by (by destruct e1; simplify_eq).
  destruct c; try done; [left|right]; (split; [done|by eexists]).
Qed.

Lemma only_two_errors_escape_witness :
  (ValueError DuplicateCode = ValueError DuplicateCode ∧
   ∃ code0, cmd_create_game (Some "abcdef") = cmd_create_game code0) ∨
  (ValueError DuplicateCode = ValueError NameTooLong ∧
   ∃ name0, cmd_create_game (Some "abcdef") = cmd_add_player name0).
Proof.
  assert (@reachable demo_environment seer_lost_world) as Hreach
    by (exists seer_lost; reflexivity).
  assert (@langchain_agent._wrap_tool demo_environment (cmd_create_game (Some "abcdef"))
            seer_lost_world
          = (seer_lost_world, inl (ValueError DuplicateCode))) as Hrun
    by (vm_compute; reflexivity).
  exact (@only_two_errors_escape demo_environment demo_environment_ok demo_shuffles
           _ _ _ _ Hreach Hrun).
Defined.
